(** * onewaymirror: a shallow embedding of the connection engine

    The development follows the logging variant of the program
    (handleConn, proxyBytes, logSession, openLogFile, logPacket, waitConn,
    waitDead and the dispatcher loop of main).  Blocking operations
    (socket reads and writes, channel sends and receives, the dial) are the
    points at which the environment answers; sequential code between two
    such points is one step. *)

From Stdlib Require Import ZArith List String Ascii Strings.Byte Lia Bool.
From Stdlib Require Import DecimalString DecimalPos DecimalZ.
From stdpp Require Import gmap strings list.
Import ListNotations.
Open Scope Z_scope.

(** ** Go values *)

Module Go.

(** Go's [int] on the 64-bit targets: [+=] wraps around. *)
Definition wrap_int (z : Z) : Z := (z + 2 ^ 63) mod 2 ^ 64 - 2 ^ 63.
Definition add_int (a b : Z) : Z := wrap_int (a + b).

(** [len(x)] of a slice or of a string. *)
Definition len {A} (l : list A) : Z := Z.of_nat (length l).
Definition slen (s : string) : Z := Z.of_nat (String.length s).

(** [[]byte(s)] *)
Definition bytes (s : string) : list byte := list_byte_of_string s.

(** [b[lo:hi]]; the model keeps [len(b) = cap(b)], so it is defined for
    [0 <= lo <= hi <= len(b)] and panics ([None]) otherwise. *)
Definition slice (b : list byte) (lo hi : Z) : option (list byte) :=
  if (0 <=? lo) && (lo <=? hi) && (hi <=? len b)
  then Some (firstn (Z.to_nat (hi - lo)) (skipn (Z.to_nat lo) b))
  else None.

Definition NL : string := String "010"%char EmptyString.
Definition TAB : string := String "009"%char EmptyString.

(** [%v] of an integer. *)
Definition fmt_int (z : Z) : string := NilZero.string_of_int (Z.to_int z).

(** [strings.HasSuffix] *)
Definition HasSuffix (s suffix : string) : bool :=
  let n := String.length s in
  let m := String.length suffix in
  (m <=? n)%nat && String.eqb (substring (n - m) m s) suffix.

(** Error values, as far as the program tells them apart: the sentinel
    [io.EOF], a [*net.OpError] (which implements [net.Error]), and any
    other dynamic type, which may or may not implement [net.Error]. *)
Inductive error : Type :=
| EOF
| OpError (text : string) (temporary : bool)
| OtherError (type text : string) (net_temporary : option bool).

(** [err.Error()] *)
Definition Error (e : error) : string :=
  match e with
  | EOF => "EOF"
  | OpError text _ => text
  | OtherError _ text _ => text
  end.

(** [%T] *)
Definition type_name (e : error) : string :=
  match e with
  | EOF => "*errors.errorString"
  | OpError _ _ => "*net.OpError"
  | OtherError ty _ _ => ty
  end.

(** [e, ok := err.(net.Error)] followed by [e.Temporary()]. *)
Definition as_net_Error (e : option error) : option bool :=
  match e with
  | Some (OpError _ tmp) => Some tmp
  | Some (OtherError _ _ nt) => nt
  | _ => None
  end.

End Go.
Import Go.

(** ** Network addresses and connections *)

Record TCPAddr : Type := { IP : list byte; Port : Z }.

(** A [net.Addr] interface value: its dynamic type is [*net.TCPAddr] or
    something else, of which only [String()] is observed. *)
Inductive Addr : Type :=
| AddrTCP (a : TCPAddr)
| AddrOther (text : string).

(** The textual renderings come from the net package. *)
Class NetText : Type := {
  TCPAddr_String : TCPAddr -> string;
  IP_String : list byte -> string
}.

Definition Addr_String `{NetText} (a : Addr) : string :=
  match a with
  | AddrTCP t => TCPAddr_String t
  | AddrOther s => s
  end.

(** The type assertion of an address to [*net.TCPAddr]. *)
Definition assert_TCPAddr (a : Addr) : option TCPAddr :=
  match a with
  | AddrTCP t => Some t
  | AddrOther _ => None
  end.

(** A [*net.TCPConn], as far as the program looks at it. *)
Record TCPConn : Type := { RemoteAddr : Addr; LocalAddr : Addr }.

(** The two sockets of a session: [r] is the accepted connection, [t] the
    connection dialled back. *)
Inductive handle : Type := ConnR | ConnT.

Definition handle_eqb (a b : handle) : bool :=
  match a, b with
  | ConnR, ConnR | ConnT, ConnT => true
  | _, _ => false
  end.

(** The two proxy directions, which are also the two channels [in] and
    [out] and the two buffers: [Inbound] is proxyBytes(r, t, ..., in) and
    [Outbound] is proxyBytes(t, r, ..., out). *)
Inductive dir : Type := Inbound | Outbound.

(** What one call of [Write] answers: the count and the error. *)
Record wres : Type := { w_n : Z; w_err : option error }.

(** ** The byte proxy: proxyBytes *)

(** What a goroutine of the session does that others can see. *)
Inductive event : Type :=
| EvRead (h : handle) (got : list byte) (err : option error)
| EvWrite (h : handle) (offered : list byte) (w : wres)
| EvPacket (h : handle) (n : Z)
| EvDone (h : handle)
| EvDial (ta : TCPAddr)
| EvClose (h : handle)
| EvCloseChan (d : dir)
| EvLog (msg : string).

(** Where a proxyBytes goroutine is blocked. *)
Inductive ppc : Type :=
| AtRead
| AtLogSend (n : Z)
| AtWrite (start end_ : Z)
| AtDone (h : handle) (again : bool)
| Returned
| Panicked.

(** The locals of proxyBytes.  [logc] tells whether the channel is non-nil;
    [buf] is the one buffer every read fills and every packet points to. *)
Record proxy : Type := {
  src : handle;
  dst : handle;
  buflen : Z;
  cstr : string;
  logc : bool;
  buf : list byte;
  read : Z;
  written : Z;
  pc : ppc
}.

Definition set_pc (p : proxy) (c : ppc) : proxy :=
  {| src := src p; dst := dst p; buflen := buflen p; cstr := cstr p;
     logc := logc p; buf := buf p; read := read p; written := written p;
     pc := c |}.

(** The closure [urws]: it runs after every change of a counter, so the
    string is a function of the two counters. *)
Definition rws (p : proxy) : string :=
  fmt_int (read p) +:+ " read / " +:+ fmt_int (written p) +:+ " written".

(** The answer of the environment to the operation a goroutine is blocked
    in: a [Read] that stored [got] at the start of the buffer, a [Write],
    or a channel operation going through. *)
Inductive answer : Type :=
| ARead (got : list byte) (err : option error)
| AWrite (w : wres)
| ASent.

(** The head of the write loop, [for start < end]; leaving it goes back to
    the read at the head of the outer loop. *)
Definition write_loop (start end_ : Z) : ppc :=
  if start <? end_ then AtWrite start end_ else AtRead.

(** The read returned: lines 250 to 284. *)
Definition on_read (p : proxy) (got : list byte) (err : option error)
  : proxy * list event :=
  let n := len got in
  let p := {| src := src p; dst := dst p; buflen := buflen p; cstr := cstr p;
              logc := logc p;
              buf := got ++ skipn (Z.to_nat n) (buf p);
              read := add_int (read p) n; written := written p;
              pc := pc p |} in
  let ev := EvRead (src p) got err in
  match err with
  | Some EOF =>
      (set_pc p (AtDone (src p) false),
       [ev; EvLog ("Connection ended (" +:+ rws p +:+ "): " +:+ cstr p)])
  | Some (OpError text _) =>
      (set_pc p Returned,
       ev ::
       (if HasSuffix text "use of closed network connection"
        then [EvLog ("Connection closed (" +:+ rws p +:+ "): " +:+ cstr p)]
        else if HasSuffix text "connection reset by peer"
        then [EvLog ("Connection reset (" +:+ rws p +:+ "): " +:+ cstr p)]
        else []))
  | Some e =>
      (set_pc p (AtDone (src p) false),
       [ev; EvLog ("Unknown error of type " +:+ type_name e +:+ " (" +:+
                   rws p +:+ "): " +:+ Error e)])
  | None =>
      (set_pc p (if logc p then AtLogSend n else write_loop 0 n), [ev])
  end.

(** A write returned: lines 286 to 298. *)
Definition on_write (p : proxy) (start end_ : Z) (w : wres)
  : proxy * list event :=
  match slice (buf p) start end_ with
  | None => (set_pc p Panicked, [])
  | Some offered =>
      let p := {| src := src p; dst := dst p; buflen := buflen p;
                  cstr := cstr p; logc := logc p; buf := buf p;
                  read := read p; written := add_int (written p) (w_n w);
                  pc := pc p |} in
      let ev := EvWrite (dst p) offered w in
      match as_net_Error (w_err w) with
      | Some false =>
          (set_pc p (AtDone (dst p) true),
           [ev; EvLog ("Error writing to " +:+ cstr p +:+ ": " +:+
                       match w_err w with Some e => Error e | None => "" end)])
      | _ => (set_pc p (write_loop (add_int start (w_n w)) end_), [ev])
      end
  end.

(** One step of proxyBytes: the operation it is blocked in returns.  An
    answer that the operation cannot give (a read longer than the buffer, a
    write count outside of what was offered) is no step. *)
Definition pstep (p : proxy) (a : answer) : option (proxy * list event) :=
  match pc p, a with
  | AtRead, ARead got err =>
      if len got <=? len (buf p) then Some (on_read p got err) else None
  | AtLogSend n, ASent =>
      Some (set_pc p (write_loop 0 n), [EvPacket (src p) n])
  | AtWrite start end_, AWrite w =>
      if (0 <=? w_n w) && (w_n w <=? end_ - start)
      then Some (on_write p start end_ w) else None
  | AtDone h again, ASent =>
      Some (set_pc p (if again then AtRead else Returned), [EvDone h])
  | _, _ => None
  end.

(** The goroutine up to its first blocking point: [make([]byte, buflen)]
    panics on a negative length. *)
Definition proxy_start (src dst : handle) (buflen : Z) (cstr : string)
    (logc : bool) : proxy :=
  {| src := src; dst := dst; buflen := buflen; cstr := cstr; logc := logc;
     buf := repeat x00 (Z.to_nat buflen); read := 0; written := 0;
     pc := if buflen <? 0 then Panicked else AtRead |}.

(** Running on the answers in turn; it stops at the first that is no step. *)
Fixpoint prun (p : proxy) (answers : list answer) : proxy * list event :=
  match answers with
  | [] => (p, [])
  | a :: rest =>
      match pstep p a with
      | Some (q, ev) => let (z, evs) := prun q rest in (z, ev ++ evs)
      | None => (p, [])
      end
  end.

Definition proxyBytes (src dst : handle) (buflen : Z) (cstr : string)
    (logc : bool) (answers : list answer) : proxy * list event :=
  prun (proxy_start src dst buflen cstr logc) answers.

(** ** The replay file: openLogFile and logPacket *)

(** The packet struct.  [pkt_data] is the slice: in a packet sent by
    proxyBytes it is the proxy's buffer itself, not a copy. *)
Record packet : Type := { pkt_data : list byte; pkt_length : Z }.

(** A [time.Time] through the three observations logPacket makes of it:
    [t.Format(time.StampNano)], [t.Unix()] and [t.Nanosecond()]. *)
Record Time : Type := { StampNano : string; Unix : Z; Nanosecond : Z }.

(** The regular files of the file system, by path. *)
Abbreviation disk := (gmap string (list byte)).

(** An [*os.File]: the path it was opened on and whether Close was called. *)
Record File : Type := { Name : string; closed : bool }.

Definition O_WRONLY : Z := 1.
Definition O_CREATE : Z := 64.
Definition O_EXCL : Z := 128.
Definition O_APPEND : Z := 1024.

Definition has_flag (flag bit : Z) : bool := negb (Z.land flag bit =? 0).

(** [path.Join] of two clean, non-empty elements. *)
Definition path_Join (dir name : string) : string := dir +:+ "/" +:+ name.

(** [os.OpenFile], as far as it depends on which files exist. *)
Definition os_OpenFile (fs : disk) (path : string) (flag : Z)
  : disk * (File + error) :=
  match fs !! path with
  | Some _ =>
      if has_flag flag O_CREATE && has_flag flag O_EXCL
      then (fs, inr (OtherError "*fs.PathError"
                       ("open " +:+ path +:+ ": file exists") None))
      else (fs, inl {| Name := path; closed := false |})
  | None =>
      if has_flag flag O_CREATE
      then (<[path := []]> fs, inl {| Name := path; closed := false |})
      else (fs, inr (OtherError "*fs.PathError"
                       ("open " +:+ path +:+ ": no such file or directory")
                       None))
  end.

(** What the file system answers to a write on an open file: all of it is
    written, or only [n] bytes and an error. *)
Inductive fanswer : Type :=
| FullWrite
| ShortWrite (n : Z) (e : error).

Definition ErrClosed : error :=
  OtherError "*fs.PathError" "file already closed" None.

(** [f.Write(b)] on a file opened with O_APPEND. *)
Definition File_Write (fs : disk) (f : File) (b : list byte) (a : fanswer)
  : disk * wres :=
  if closed f then (fs, {| w_n := 0; w_err := Some ErrClosed |})
  else
    let old := default [] (fs !! Name f) in
    match a with
    | FullWrite =>
        (<[Name f := old ++ b]> fs, {| w_n := len b; w_err := None |})
    | ShortWrite n e =>
        (<[Name f := old ++ firstn (Z.to_nat n) b]> fs,
         {| w_n := Z.min (Z.max 0 n) (len b); w_err := Some e |})
    end.

Definition File_Close (f : File) : File :=
  {| Name := Name f; closed := true |}.

(** The outcome of a piece of code that may end the process with
    [log.Fatalf] or by a panic. *)
Inductive run (A : Type) : Type :=
| Live (a : A) (log : list string)
| Fatal (log : list string)
| Panic (log : list string).
Arguments Live {A} a log.
Arguments Fatal {A} log.
Arguments Panic {A} log.

Definition openLogFile_flags : Z :=
  Z.lor (Z.lor (Z.lor O_WRONLY O_APPEND) O_CREATE) O_EXCL.

(** openLogFile.  [mkdir] is what [os.MkdirAll(dir, 0755)] answers. *)
Definition openLogFile (fs : disk) (mkdir : option error) (dir name : string)
  : run (disk * option File) :=
  match mkdir with
  | Some err =>
      Fatal ["Unable to create directory " +:+ dir +:+ ": " +:+ Error err]
  | None =>
      match os_OpenFile fs (path_Join dir name) openLogFile_flags with
      | (fs', inl f) => Live (fs', Some f) []
      | (fs', inr err) =>
          Live (fs', None) ["Unable to open " +:+ name +:+ ": " +:+ Error err]
      end
  end.

(** The line of metadata logPacket formats. *)
Definition metadata (d : bool) (t : Time) (length : Z) : string :=
  let dc := if d then "i" else "o" in
  NL +:+ StampNano t +:+ TAB +:+ fmt_int (Unix t) +:+ "." +:+
  fmt_int (Nanosecond t) +:+ TAB +:+ dc +:+ TAB +:+ fmt_int length +:+ TAB.

(** logPacket.  [a1] and [a2] answer the write of the metadata and of the
    payload.  The payload is sliced after the metadata is written. *)
Definition logPacket (fs : disk) (f : option File) (p : packet) (d : bool)
    (t : Time) (a1 a2 : fanswer) : run (disk * option File) :=
  match f with
  | None => Live (fs, None) []
  | Some f =>
      let s := metadata d t (pkt_length p) in
      let '(fs, w1) := File_Write fs f (bytes s) a1 in
      let '(f, log1) :=
        match w_err w1 with
        | Some err =>
            (File_Close f,
             ["Only wrote " +:+ fmt_int (w_n w1) +:+ "/" +:+
              fmt_int (slen s) +:+ " bytes of metadata to " +:+ Name f +:+
              ": " +:+ Error err])
        | None => (f, [])
        end in
      match slice (pkt_data p) 0 (pkt_length p) with
      | None => Panic log1
      | Some payload =>
          let '(fs, w2) := File_Write fs f payload a2 in
          match w_err w2 with
          | Some err =>
              Live (fs, Some (File_Close f))
                (log1 ++
                 ["Only wrote " +:+ fmt_int (w_n w2) +:+ "/" +:+
                  fmt_int (pkt_length p) +:+
                  " bytes of payload data to " +:+ Name f +:+ ": " +:+
                  Error err])
          | None => Live (fs, Some f) log1
          end
      end
  end.

Definition run_bind {A B} (x : run A) (k : A -> run B) : run B :=
  match x with
  | Live a l =>
      match k a with
      | Live b l' => Live b (l ++ l')
      | Fatal l' => Fatal (l ++ l')
      | Panic l' => Panic (l ++ l')
      end
  | Fatal l => Fatal l
  | Panic l => Panic l
  end.

(** ** The session logger: logSession *)

(** The locals of logSession, and whether it has returned. *)
Record logger : Type := {
  olog : option File;
  iclosed : bool;
  oclosed : bool;
  exited : bool
}.

(** What the select of logSession receives: a packet of one channel, with
    the [time.Now()] that follows and the answers to the two writes of
    logPacket, or the zero value of a closed channel. *)
Inductive received : Type :=
| Got (d : dir) (p : packet) (t : Time) (a1 a2 : fanswer)
| Closed (d : dir).

Definition chan_closed (l : logger) (d : dir) : bool :=
  match d with Inbound => iclosed l | Outbound => oclosed l end.

(** The head of the loop: with both flags set logSession breaks, and the
    deferred [olog.Close()] runs (on a nil file it only returns an error). *)
Definition loop_head (l : logger) : logger :=
  if iclosed l && oclosed l
  then {| olog := option_map File_Close (olog l); iclosed := iclosed l;
          oclosed := oclosed l; exited := true |}
  else l.

(** logSession after openLogFile returned [f]. *)
Definition logger_start (f : option File) : logger :=
  loop_head {| olog := f; iclosed := false; oclosed := false;
               exited := false |}.

(** One turn of the loop of logSession.  A closed channel delivers no
    packet, and a logger that has returned receives nothing. *)
Definition lstep (fs : disk) (l : logger) (r : received)
  : option (run (disk * logger)) :=
  if exited l then None
  else
    match r with
    | Closed Inbound =>
        Some (Live (fs, loop_head {| olog := olog l; iclosed := true;
                                     oclosed := oclosed l;
                                     exited := false |}) [])
    | Closed Outbound =>
        Some (Live (fs, loop_head {| olog := olog l; iclosed := iclosed l;
                                     oclosed := true;
                                     exited := false |}) [])
    | Got d p t a1 a2 =>
        if chan_closed l d then None
        else
          Some (run_bind
                  (logPacket fs (olog l) p
                     (match d with Inbound => true | Outbound => false end)
                     t a1 a2)
                  (fun '(fs', f') =>
                     Live (fs', loop_head {| olog := f'; iclosed := iclosed l;
                                             oclosed := oclosed l;
                                             exited := false |}) []))
    end.

(** Running on the receptions in turn; [None] when one of them cannot
    happen. *)
Fixpoint lrun (fs : disk) (l : logger) (script : list received)
  : option (run (disk * logger)) :=
  match script with
  | [] => Some (Live (fs, l) [])
  | r :: rest =>
      match lstep fs l r with
      | Some (Live (fs', l') log) =>
          match lrun fs' l' rest with
          | Some (Live z log') => Some (Live z (log ++ log'))
          | Some (Fatal log') => Some (Fatal (log ++ log'))
          | Some (Panic log') => Some (Panic (log ++ log'))
          | None => None
          end
      | Some (Fatal log) => Some (Fatal log)
      | Some (Panic log) => Some (Panic log)
      | None => None
      end
  end.

(** logSession on the receptions of its select, in turn. *)
Definition logSession (fs : disk) (mkdir : option error) (dir prefix : string)
    (script : list received) : option (run (disk * logger)) :=
  match openLogFile fs mkdir dir (prefix +:+ ".owm") with
  | Live (fs', f) log =>
      match lrun fs' (logger_start f) script with
      | Some (Live z log') => Some (Live z (log ++ log'))
      | Some (Fatal log') => Some (Fatal (log ++ log'))
      | Some (Panic log') => Some (Panic (log ++ log'))
      | None => None
      end
  | Fatal log => Some (Fatal log)
  | Panic log => Some (Panic log)
  end.

(** ** The session handler: handleConn *)

(** The newline main appends to a non-empty banner, once, before any
    connection is accepted. *)
Definition main_banner (banner : string) : string :=
  if 0 <? slen banner then banner +:+ NL else banner.

(** The goroutine of logSession inside a session. *)
Inductive lphase : Type :=
| LStart (dir prefix : string)
| LSelect (l : logger)
| LHolding (l : logger) (d : dir) (n : Z).

(** A session once both proxies are started. *)
Record session : Type := {
  p_in : proxy;
  p_out : proxy;
  logging : option lphase;
  fs : disk;
  waiting : bool;
  chans_closed : bool;
  r_closes : nat;
  t_closes : nat;
  process : run unit
}.

(** What the environment answers to handleConn: the writes on [r] in turn,
    the dial, and [time.Now().Format(time.RFC3339Nano)]. *)
Record henv : Type := {
  r_writes : list wres;
  dial : TCPConn + error;
  now : string
}.

Inductive houtcome : Type :=
| HReturned
| HStalled
| HWaiting (s : session).

(** The loop that sends the banner: every turn writes the whole banner and
    adds the count to [s]. *)
Fixpoint banner_loop (banner : string) (l s : Z) (ws : list wres)
  : list event * option (option error * list wres) :=
  if s <? l then
    match ws with
    | [] => ([], None)
    | w :: ws' =>
        let ev := EvWrite ConnR (bytes banner) w in
        match w_err w with
        | Some err => ([ev], Some (Some err, ws'))
        | None =>
            let '(evs, res) := banner_loop banner l (add_int s (w_n w)) ws' in
            (ev :: evs, res)
        end
    end
  else ([], Some (None, ws)).

(** Lines 138 to 154: the target of the connection back. *)
Definition build_target `{NetText} (r : TCPConn) : TCPAddr + list event :=
  match assert_TCPAddr (RemoteAddr r) with
  | None =>
      inr [EvLog (Addr_String (RemoteAddr r) +:+
                  " is not a TCP address.  Please file a bug report.")]
  | Some rad =>
      match assert_TCPAddr (LocalAddr r) with
      | None =>
          inr [EvLog (Addr_String (LocalAddr r) +:+
                      " is not a TCP address.  Please file a bug report.")]
      | Some lad => inl {| IP := IP rad; Port := Port lad |}
      end
  end.

(** handleConn up to [<-done], or to its return when it gets no further.
    [disk0] is the file system the session starts on. *)
Definition handleConn `{NetText} (r : TCPConn) (buflen : Z) (banner : string)
    (logdir : option string) (disk0 : disk) (env : henv)
  : list event * houtcome :=
  let constr :=
    Addr_String (RemoteAddr r) +:+ " -> " +:+ Addr_String (LocalAddr r) in
  let ev0 := [EvLog ("Connection got: " +:+ constr)] in
  let '(ev1, sent) :=
    if 0 <? slen banner
    then banner_loop banner (slen banner) 0 (r_writes env)
    else ([], Some (None, r_writes env)) in
  match sent with
  | None => (ev0 ++ ev1, HStalled)
  | Some (Some err, _) =>
      (ev0 ++ ev1 ++
       [EvLog ("Unable to send banner to " +:+ Addr_String (RemoteAddr r) +:+
               ": " +:+ Error err);
        EvClose ConnR], HReturned)
  | Some (None, ws) =>
      match build_target r with
      | inr ev2 => (ev0 ++ ev1 ++ ev2 ++ [EvClose ConnR], HReturned)
      | inl ta =>
          match dial env with
          | inr err =>
              let e := "Unable to connect back to " +:+ TCPAddr_String ta in
              let ev3 := [EvDial ta; EvLog (e +:+ ": " +:+ Error err)] in
              match ws with
              | [] => (ev0 ++ ev1 ++ ev3, HStalled)
              | w :: _ =>
                  (ev0 ++ ev1 ++ ev3 ++
                   EvWrite ConnR (bytes (e +:+ NL)) w ::
                   match w_err w with
                   | Some err' =>
                       [EvLog ("Unable to tell " +:+
                               Addr_String (RemoteAddr r) +:+
                               " a connection can't be established to " +:+
                               TCPAddr_String ta +:+ ": " +:+ Error err')]
                   | None => []
                   end ++ [EvClose ConnR], HReturned)
              end
          | inl t =>
              let tgtstr :=
                Addr_String (LocalAddr t) +:+ " -> " +:+
                Addr_String (RemoteAddr t) in
              let logc := match logdir with Some _ => true | None => false end in
              (ev0 ++ ev1 ++
               [EvDial ta; EvLog ("Connection made: " +:+ tgtstr)],
               HWaiting
                 {| p_in := proxy_start ConnR ConnT buflen constr logc;
                    p_out := proxy_start ConnT ConnR buflen tgtstr logc;
                    logging :=
                      option_map
                        (fun d => LStart (path_Join d (IP_String (IP ta)))
                                    (now env))
                        logdir;
                    fs := disk0;
                    waiting := true;
                    chans_closed := false;
                    r_closes := 0;
                    t_closes := 0;
                    process := Live tt [] |})
          end
      end
  end.

(** ** A session at run time: two proxies, the logger and handleConn *)

(** The moves of a session.  Each is one goroutine getting over the point
    it is blocked in. *)
Inductive action : Type :=
| Io (d : dir) (a : answer)
| LogOpen (mkdir : option error)
| Handoff (d : dir)
| LogIt (t : Time) (a1 a2 : fanswer)
| Report (d : dir)
| SeeClosed (d : dir)
| SendClosed (d : dir).

Definition proxy_of (s : session) (d : dir) : proxy :=
  match d with Inbound => p_in s | Outbound => p_out s end.

Definition with_proxy (s : session) (d : dir) (p : proxy) : session :=
  {| p_in := match d with Inbound => p | Outbound => p_in s end;
     p_out := match d with Inbound => p_out s | Outbound => p end;
     logging := logging s; fs := fs s; waiting := waiting s;
     chans_closed := chans_closed s; r_closes := r_closes s;
     t_closes := t_closes s; process := process s |}.

Definition with_logger (s : session) (ph : lphase) (fs' : disk) : session :=
  {| p_in := p_in s; p_out := p_out s; logging := Some ph; fs := fs';
     waiting := waiting s; chans_closed := chans_closed s;
     r_closes := r_closes s; t_closes := t_closes s;
     process := process s |}.

Definition with_process (s : session) (x : run unit) : session :=
  {| p_in := p_in s; p_out := p_out s; logging := logging s; fs := fs s;
     waiting := waiting s; chans_closed := chans_closed s;
     r_closes := r_closes s; t_closes := t_closes s; process := x |}.

(** handleConn got a value from [done]: it returns, and its deferred calls
    run last in, first out: close(out), close(in), t.Close(), r.Close(). *)
Definition handler_returns (s : session) : session * list event :=
  let logged := match logging s with Some _ => true | None => false end in
  ({| p_in := p_in s; p_out := p_out s; logging := logging s; fs := fs s;
      waiting := false;
      chans_closed := logged;
      r_closes := S (r_closes s);
      t_closes := S (t_closes s);
      process := process s |},
   (if logged then [EvCloseChan Outbound; EvCloseChan Inbound] else []) ++
   [EvClose ConnT; EvClose ConnR]).

Definition alive (s : session) : bool :=
  match process s, pc (p_in s), pc (p_out s) with
  | Live _ _, Panicked, _ => false
  | Live _ _, _, Panicked => false
  | Live _ _, _, _ => true
  | _, _, _ => false
  end.

Definition log_events (l : list string) : list event := map EvLog l.

(** The logger moved: its new state, or the end of the process. *)
Definition logger_moved (s : session) (x : run (disk * logger))
  : session * list event :=
  match x with
  | Live (fs', l') log => (with_logger s (LSelect l') fs', log_events log)
  | Fatal log => (with_process s (Fatal log), log_events log)
  | Panic log => (with_process s (Panic log), log_events log)
  end.

Definition sstep (s : session) (act : action) : option (session * list event) :=
  if negb (alive s) then None
  else
    match act with
    | Io d (ARead got err) =>
        match pstep (proxy_of s d) (ARead got err) with
        | Some (p, ev) => Some (with_proxy s d p, ev)
        | None => None
        end
    | Io d (AWrite w) =>
        match pstep (proxy_of s d) (AWrite w) with
        | Some (p, ev) => Some (with_proxy s d p, ev)
        | None => None
        end
    | Io _ ASent => None
    | LogOpen mkdir =>
        match logging s with
        | Some (LStart dir prefix) =>
            Some (logger_moved s
                    (run_bind (openLogFile (fs s) mkdir dir (prefix +:+ ".owm"))
                       (fun '(fs', f) => Live (fs', logger_start f) [])))
        | _ => None
        end
    | Handoff d =>
        match pc (proxy_of s d), logging s with
        | AtLogSend n, Some (LSelect l) =>
            if exited l || chans_closed s then None
            else
              match pstep (proxy_of s d) ASent with
              | Some (p, ev) =>
                  Some (with_logger (with_proxy s d p) (LHolding l d n) (fs s),
                        ev)
              | None => None
              end
        | _, _ => None
        end
    | LogIt t a1 a2 =>
        match logging s with
        | Some (LHolding l d n) =>
            let p := {| pkt_data := buf (proxy_of s d); pkt_length := n |} in
            match lstep (fs s) l (Got d p t a1 a2) with
            | Some x => Some (logger_moved s x)
            | None => None
            end
        | _ => None
        end
    | Report d =>
        match pc (proxy_of s d) with
        | AtDone _ _ =>
            if waiting s then
              match pstep (proxy_of s d) ASent with
              | Some (p, ev) =>
                  let '(s', ev') := handler_returns (with_proxy s d p) in
                  Some (s', ev ++ ev')
              | None => None
              end
            else None
        | _ => None
        end
    | SeeClosed d =>
        match logging s with
        | Some (LSelect l) =>
            if chans_closed s then
              match lstep (fs s) l (Closed d) with
              | Some x => Some (logger_moved s x)
              | None => None
              end
            else None
        | _ => None
        end
    | SendClosed d =>
        match pc (proxy_of s d) with
        | AtLogSend _ =>
            if chans_closed s
            then Some (with_process s (Panic ["send on closed channel"]), [])
            else None
        | _ => None
        end
    end.

(** A schedule runs when every move of it is enabled in turn. *)
Fixpoint srun (s : session) (acts : list action)
  : option (session * list event) :=
  match acts with
  | [] => Some (s, [])
  | a :: rest =>
      match sstep s a with
      | Some (s', ev) =>
          match srun s' rest with
          | Some (z, evs) => Some (z, ev ++ evs)
          | None => None
          end
      | None => None
      end
  end.

(** ** The listeners and the dispatcher: waitConn, waitDead, main *)

Inductive family : Type := Tcp4 | Tcp6.

(** Where a waitConn goroutine is; [NotStarted] is a family that main
    disabled, whose channel stays nil. *)
Inductive wstate : Type :=
| NotStarted
| Accepting
| Delivering (c : TCPConn)
| Signalling
| Finished.

(** main at its select, with the goroutines it started.  [closed4] and
    [closed6] record close(ch); [i] is the loop counter of waitDead;
    [handled] lists the arguments of the handleConn goroutines started so
    far, [None] being a nil connection. *)
Record dispatcher : Type := {
  w4 : wstate;
  w6 : wstate;
  closed4 : bool;
  closed6 : bool;
  n : Z;
  i : Z;
  handled : list (option TCPConn);
  out : list string;
  fatal : bool
}.

Definition waiter (d : dispatcher) (f : family) : wstate :=
  match f with Tcp4 => w4 d | Tcp6 => w6 d end.

Definition ch_closed (d : dispatcher) (f : family) : bool :=
  match f with Tcp4 => closed4 d | Tcp6 => closed6 d end.

Definition with_waiter (d : dispatcher) (f : family) (w : wstate)
    (cl : bool) : dispatcher :=
  {| w4 := match f with Tcp4 => w | Tcp6 => w4 d end;
     w6 := match f with Tcp4 => w6 d | Tcp6 => w end;
     closed4 := match f with Tcp4 => cl | Tcp6 => closed4 d end;
     closed6 := match f with Tcp4 => closed6 d | Tcp6 => cl end;
     n := n d; i := i d; handled := handled d; out := out d;
     fatal := fatal d |}.

(** main up to its select.  [listen4] and [listen6] tell whether listener
    succeeds for the family; when it does not it ends the process. *)
Definition main_start (disable4 disable6 listen4 listen6 : bool)
  : run dispatcher :=
  if disable4 && disable6
  then Fatal ["-no4 and -no6 may not both be specified."]
  else if negb disable4 && negb listen4 then Fatal ["Unable to listen"]
  else if negb disable6 && negb listen6 then Fatal ["Unable to listen"]
  else
    let n4 := if disable4 then 0 else 1 in
    let n6 := if disable6 then 0 else 1 in
    Live {| w4 := if disable4 then NotStarted else Accepting;
            w6 := if disable6 then NotStarted else Accepting;
            closed4 := false; closed6 := false;
            n := add_int n4 n6; i := 0; handled := []; out := [];
            fatal := false |} [].

Inductive daction : Type :=
| Accept (f : family) (res : TCPConn + error)
| Deliver (f : family)
| RecvClosed (f : family)
| Death (f : family)
| AllDead.

Definition dstep (d : dispatcher) (a : daction) : option dispatcher :=
  if fatal d then None
  else
    match a with
    | Accept f (inl c) =>
        (* waitConn: AcceptTCP returned a connection *)
        match waiter d f with
        | Accepting => Some (with_waiter d f (Delivering c) (ch_closed d f))
        | _ => None
        end
    | Accept f (inr err) =>
        (* waitConn: AcceptTCP failed; the channel is closed at once *)
        match waiter d f with
        | Accepting =>
            let d' := with_waiter d f Signalling true in
            Some {| w4 := w4 d'; w6 := w6 d'; closed4 := closed4 d';
                    closed6 := closed6 d'; n := n d'; i := i d';
                    handled := handled d';
                    out := out d' ++
                           ["Unable to accept connection: " +:+ Error err];
                    fatal := fatal d' |}
        | _ => None
        end
    | Deliver f =>
        (* main: case c := <-ch, from the sender blocked in ch <- c *)
        match waiter d f with
        | Delivering c =>
            let d' := with_waiter d f Accepting (ch_closed d f) in
            Some {| w4 := w4 d'; w6 := w6 d'; closed4 := closed4 d';
                    closed6 := closed6 d'; n := n d'; i := i d';
                    handled := handled d' ++ [Some c]; out := out d';
                    fatal := fatal d' |}
        | _ => None
        end
    | RecvClosed f =>
        (* main: case c := <-ch, on a closed channel: c is nil *)
        if ch_closed d f
        then Some {| w4 := w4 d; w6 := w6 d; closed4 := closed4 d;
                     closed6 := closed6 d; n := n d; i := i d;
                     handled := handled d ++ [None]; out := out d;
                     fatal := fatal d |}
        else None
    | Death f =>
        (* waitConn: dead <- 1, received by waitDead while i < n *)
        match waiter d f with
        | Signalling =>
            if i d <? n d then
              let d' := with_waiter d f Finished (ch_closed d f) in
              Some {| w4 := w4 d'; w6 := w6 d'; closed4 := closed4 d';
                      closed6 := closed6 d'; n := n d'; i := add_int (i d') 1;
                      handled := handled d'; out := out d';
                      fatal := fatal d' |}
            else None
        | _ => None
        end
    | AllDead =>
        (* waitDead: out <- 1 after its loop; main: case <-allDead *)
        if i d <? n d then None
        else Some {| w4 := w4 d; w6 := w6 d; closed4 := closed4 d;
                     closed6 := closed6 d; n := n d; i := i d;
                     handled := handled d;
                     out := out d ++ ["All listeners have terminated"];
                     fatal := true |}
    end.

Fixpoint drun (d : dispatcher) (acts : list daction) : option dispatcher :=
  match acts with
  | [] => Some d
  | a :: rest =>
      match dstep d a with
      | Some d' => drun d' rest
      | None => None
      end
  end.

(** ** Sample data *)

Module Sample.

(** A rendering of addresses: the bytes of the IP in decimal with dots,
    then a colon and the port. *)
Definition dotted (ip : list byte) : string :=
  String.concat "." (map (fun b => fmt_int (Z.of_N (Byte.to_N b))) ip).

Definition text : NetText :=
  {| TCPAddr_String := fun a => dotted (IP a) +:+ ":" +:+ fmt_int (Port a);
     IP_String := dotted |}.

(** A client at 10.0.0.1, port 40000, accepted on port 23. *)
Definition client : TCPConn :=
  {| RemoteAddr := AddrTCP {| IP := [x0a; x00; x00; x01]; Port := 40000 |};
     LocalAddr := AddrTCP {| IP := [x0a; x00; x00; x02]; Port := 23 |} |}.

(** The connection dialled back to port 23 of the client. *)
Definition back : TCPConn :=
  {| RemoteAddr := AddrTCP {| IP := [x0a; x00; x00; x01]; Port := 23 |};
     LocalAddr := AddrTCP {| IP := [x0a; x00; x00; x02]; Port := 50000 |} |}.

Definition full (n : Z) : wres := {| w_n := n; w_err := None |}.

Definition quiet : henv :=
  {| r_writes := []; dial := inl back; now := "2014-04-28T10:00:00Z" |}.

Definition reset : option error :=
  Some (OpError "read tcp 10.0.0.1:40000: connection reset by peer" false).

Definition timed_out : option error :=
  Some (OpError "read tcp 10.0.0.1:40000: connection timed out" true).

Definition broken_pipe : option error :=
  Some (OpError "write tcp 10.0.0.1:23: broken pipe" false).

Definition noon : Time :=
  {| StampNano := "Apr 28 10:00:00.000000005"; Unix := 1398679200;
     Nanosecond := 5 |}.

Definition later : Time :=
  {| StampNano := "Apr 28 10:00:01.123456789"; Unix := 1398679201;
     Nanosecond := 123456789 |}.

(** A session of [client] without a banner, logging under "owm". *)
Definition logged : list event * houtcome :=
  @handleConn text client 4 "" (Some "owm") ∅ quiet.

Definition logged_session : session :=
  match snd logged with
  | HWaiting s => s
  | _ =>
      {| p_in := proxy_start ConnR ConnT 0 "" false;
         p_out := proxy_start ConnT ConnR 0 "" false;
         logging := None; fs := ∅; waiting := false; chans_closed := false;
         r_closes := 0; t_closes := 0; process := Fatal [] |}
  end.

End Sample.

(** ** The vocabulary of the statements *)

(** The bytes that reach the peer of socket [h]: of every write, the
    part the write reports as written. *)
Fixpoint wire (h : handle) (tr : list event) : list byte :=
  match tr with
  | [] => []
  | EvWrite h' offered w :: rest =>
      (if handle_eqb h h' then firstn (Z.to_nat (w_n w)) offered else []) ++
      wire h rest
  | _ :: rest => wire h rest
  end.

(** The handles that went through the channel [done]. *)
Fixpoint done_sends (tr : list event) : list handle :=
  match tr with
  | [] => []
  | EvDone h :: rest => h :: done_sends rest
  | _ :: rest => done_sends rest
  end.

(** The bytes read from socket [h]. *)
Fixpoint reads (h : handle) (tr : list event) : list byte :=
  match tr with
  | [] => []
  | EvRead h' got _ :: rest =>
      (if handle_eqb h h' then got else []) ++ reads h rest
  | _ :: rest => reads h rest
  end.

(** The events before the first dial. *)
Fixpoint before_dial (tr : list event) : list event :=
  match tr with
  | [] => []
  | EvDial _ :: _ => []
  | e :: rest => e :: before_dial rest
  end.

(** A proxy is sending [h] on [done] when that is where it is blocked. *)
Definition reporting (p : proxy) (h : handle) : Prop :=
  exists again, pc p = AtDone h again.

(** A record of the replay file, written out. *)
Definition record_bytes (d : bool) (t : Time) (length : Z)
    (payload : list byte) : list byte :=
  bytes NL ++ bytes (StampNano t) ++ bytes TAB ++
  bytes (fmt_int (Unix t)) ++ bytes "." ++ bytes (fmt_int (Nanosecond t)) ++
  bytes TAB ++ bytes (if d then "i" else "o") ++ bytes TAB ++
  bytes (fmt_int length) ++ bytes TAB ++ payload.

(** The reception is the end of channel [d]. *)
Definition closes (d : dir) (r : received) : bool :=
  match r, d with
  | Closed Inbound, Inbound => true
  | Closed Outbound, Outbound => true
  | _, _ => false
  end.

(** What holds of a logger between two turns of its loop: it has returned
    exactly when both flags are set, and then its file is closed. *)
Definition logger_ok (l : logger) : Prop :=
  exited l = iclosed l && oclosed l /\
  (exited l = true -> forall f, olog l = Some f -> closed f = true).

(** A listener that has signalled its death, or is about to, has closed its
    channel: close(ch) comes before the send on [dead]. *)
Definition closed_before_signal (d : dispatcher) : Prop :=
  forall f, waiter d f = Signalling \/ waiter d f = Finished ->
            ch_closed d f = true.

(** main with both families listening. *)
Definition both_listening : dispatcher :=
  match main_start false false true true with
  | Live d _ => d
  | _ => {| w4 := NotStarted; w6 := NotStarted; closed4 := false;
            closed6 := false; n := 0; i := 0; handled := []; out := [];
            fatal := true |}
  end.

(** Equality of directions. *)
Definition dir_eqb (a b : dir) : bool :=
  match a, b with
  | Inbound, Inbound | Outbound, Outbound => true
  | _, _ => false
  end.


(** The tag logSession gives to the packets of a direction. *)
Definition tag (d : dir) : bool :=
  match d with Inbound => true | Outbound => false end.

(** A record of the replay file; the declared length is that of the
    payload. *)
Record record : Type := {
  rec_dir : dir;
  rec_time : Time;
  rec_payload : list byte
}.

(** The bytes of a record in the file. *)
Definition encode (r : record) : list byte :=
  record_bytes (tag (rec_dir r)) (rec_time r) (len (rec_payload r))
    (rec_payload r).


(** What the logger holds of direction [d]: the packet it has received
    and not written points to the buffer of the proxy. *)
Definition held (s : session) (d : dir) : list byte :=
  match logging s with
  | Some (LHolding _ d' n) =>
      if dir_eqb d d' then firstn (Z.to_nat n) (buf (proxy_of s d)) else []
  | _ => []
  end.

(** The chunk a direction has read that is not in the file yet: the proxy
    is about to send it to the logger, or the logger holds it. *)
Definition pending (s : session) (d : dir) : list byte :=
  match pc (proxy_of s d) with
  | AtLogSend n => firstn (Z.to_nat n) (buf (proxy_of s d))
  | _ => held s d
  end.

(** The moves of an orderly schedule: the directory can be made and the
    writes to the file succeed; a read that fails delivers no bytes; and no
    direction reads into its buffer while the logger still has to write a
    packet that points to it. *)
Definition orderly_move (s : session) (a : action) : bool :=
  match a with
  | Io d (ARead got err) =>
      match err with Some _ => len got =? 0 | None => true end &&
      match logging s with
      | Some (LHolding _ d' _) => negb (dir_eqb d d')
      | _ => true
      end
  | LogOpen (Some _) => false
  | LogIt _ FullWrite FullWrite => true
  | LogIt _ _ _ => false
  | _ => true
  end.

Fixpoint orderly (s : session) (acts : list action) : bool :=
  match acts with
  | [] => true
  | a :: rest =>
      orderly_move s a &&
      match sstep s a with
      | Some (s', _) => orderly s' rest
      | None => false
      end
  end.




(** A session that logs a chunk each way and then a second inbound chunk:
    the payloads tagged 'i' are "hi!" and those tagged 'o' are "yo". *)
Definition sample_schedule : list action :=
  [LogOpen None;
   Io Inbound (ARead [x68; x69] None); Handoff Inbound;
   LogIt Sample.noon FullWrite FullWrite;
   Io Outbound (ARead [x79; x6f] None);
   Io Inbound (AWrite (Sample.full 2));
   Handoff Outbound; LogIt Sample.later FullWrite FullWrite;
   Io Outbound (AWrite (Sample.full 2));
   Io Inbound (ARead [x21] None); Handoff Inbound;
   LogIt Sample.later FullWrite FullWrite].


(** ** The vocabulary of the further properties *)

(** The bytes a proxy has read and not yet offered in full to the
    destination: the chunk it is sending to the logger, or the rest of the
    chunk it is writing. *)
Definition unsent (p : proxy) : list byte :=
  match pc p with
  | AtLogSend n => firstn (Z.to_nat n) (buf p)
  | AtWrite start end_ =>
      firstn (Z.to_nat (end_ - start)) (skipn (Z.to_nat start) (buf p))
  | _ => []
  end.

(** A proxy whose indices are within its buffer, the buffer being of a
    length an [int] can hold. *)
Definition in_bounds (p : proxy) : Prop :=
  len (buf p) < 2 ^ 63 /\
  match pc p with
  | AtLogSend n => 0 <= n <= len (buf p)
  | AtWrite start end_ => 0 <= start /\ start < end_ /\ end_ <= len (buf p)
  | Panicked => False
  | _ => True
  end.

(** Answers after which no byte is lost on the way: a read that fails
    brings no bytes, and no write fails for good. *)
Definition lossless (a : answer) : bool :=
  match a with
  | ARead got (Some _) => len got =? 0
  | AWrite w =>
      match as_net_Error (w_err w) with Some false => false | _ => true end
  | _ => true
  end.

(** The logger of a session, whatever it is doing. *)
Definition logger_of (s : session) : option logger :=
  match logging s with
  | Some (LSelect l) | Some (LHolding l _ _) => Some l
  | _ => None
  end.

(** What holds of a session at every moment: the proxies are within their
    buffers and log exactly when there is a logger; a packet the logger
    holds is within the buffer it points to; the channels are closed only
    once handleConn has returned, and until then the logger has seen no
    channel closed and has not returned; and the process has panicked, if at
    all, on a send on a closed channel. *)
Definition sound (s : session) : Prop :=
  (forall d, in_bounds (proxy_of s d) /\
             logc (proxy_of s d) =
               match logging s with Some _ => true | None => false end) /\
  (forall l d n, logging s = Some (LHolding l d n) ->
                 0 <= n <= len (buf (proxy_of s d))) /\
  (chans_closed s = true -> waiting s = false /\ logging s <> None) /\
  (forall l, logger_of s = Some l -> chans_closed s = false ->
             iclosed l = false /\ oclosed l = false /\ exited l = false) /\
  (forall log, process s = Panic log -> log = ["send on closed channel"]).


(** An event that only a session with a logger shows. *)
Definition logging_event (e : event) : bool :=
  match e with
  | EvPacket _ _ | EvCloseChan _ => true
  | _ => false
  end.

(** How often a trace closes socket [h]. *)
Fixpoint count_close (h : handle) (tr : list event) : nat :=
  match tr with
  | [] => 0
  | EvClose h' :: rest =>
      ((if handle_eqb h h' then 1 else 0) + count_close h rest)%nat
  | _ :: rest => count_close h rest
  end.

(** A write that returned no error. *)
Definition clean (w : wres) : Prop := w_err w = None.

(** The connections AcceptTCP returned, in the order of the moves. *)
Fixpoint accepts (acts : list daction) : list TCPConn :=
  match acts with
  | [] => []
  | Accept _ (inl c) :: rest => c :: accepts rest
  | _ :: rest => accepts rest
  end.

(** How often main received from a closed channel. *)
Fixpoint nil_receptions (acts : list daction) : nat :=
  match acts with
  | [] => 0
  | RecvClosed _ :: rest => S (nil_receptions rest)
  | _ :: rest => nil_receptions rest
  end.

(** The connections among the arguments handleConn was started on, and the
    number of nil arguments. *)
Definition conns (hs : list (option TCPConn)) : list TCPConn :=
  omap id hs.

Definition nils (hs : list (option TCPConn)) : nat :=
  length (filter (fun h => h = None) hs).

(** The connection a waitConn goroutine has accepted and not yet handed to
    main. *)
Definition in_flight (d : dispatcher) (f : family) : list TCPConn :=
  match waiter d f with Delivering c => [c] | _ => [] end.

Definition is_started (w : wstate) : bool :=
  match w with NotStarted => false | _ => true end.

Definition is_finished (w : wstate) : bool :=
  match w with Finished => true | _ => false end.

Definition is_dead (w : wstate) : bool :=
  match w with Signalling | Finished => true | _ => false end.

(** The counters of main and waitDead agree with the goroutines: [n] counts
    the listeners that were started, [i] those whose death waitDead has
    received, a channel is closed exactly when the accept of its listener
    has failed, and the process has ended only if all deaths are in. *)
Definition tallied (d : dispatcher) : Prop :=
  n d = Z.b2z (is_started (w4 d)) + Z.b2z (is_started (w6 d)) /\
  i d = Z.b2z (is_finished (w4 d)) + Z.b2z (is_finished (w6 d)) /\
  (forall f, ch_closed d f = is_dead (waiter d f)) /\
  (fatal d = true -> i d = n d) /\
  1 <= n d.

(** ** The start of main: the flags and listener *)

(** The command line after [flag.Parse()]. *)
Record flags : Type := {
  f_addr : string;
  f_logdir : string;
  f_nolog : bool;
  f_no4 : bool;
  f_no6 : bool;
  f_banner : string;
  f_buflen : Z
}.

(** The flags when no argument is given. *)
Definition default_flags : flags :=
  {| f_addr := ":23"; f_logdir := "onewaymirror"; f_nolog := false;
     f_no4 := false; f_no6 := false;
     f_banner := "Connection proxied by onewaymirror."; f_buflen := 1024 |}.

(** What [net.ResolveTCPAddr] and [net.ListenTCP] answer to listener: no
    address, an address (by its [%v]) on which no socket can listen, or a
    listener (by the [%v] of its [Addr()]). *)
Inductive bind_answer : Type :=
| NoAddress (err : error)
| NoSocket (tcpAddr : string) (err : error)
| Bound (laddr : string).

Definition QUOTE : string := String "034"%char EmptyString.

(** listener.  The result is the [*net.TCPListener], [None] being nil;
    [log.Fatalf] ends the process, so that the [return nil] after it is not
    reached. *)
Definition listener (t addr : string) (a : bind_answer)
  : run (option string) :=
  if negb (String.eqb t "tcp4") && negb (String.eqb t "tcp6")
  then Panic ["listener() takes either " +:+ QUOTE +:+ "tcp4" +:+ QUOTE +:+
              " or " +:+ QUOTE +:+ "tcp6" +:+ QUOTE +:+
              " as its first argument."]
  else
    match a with
    | NoAddress err =>
        Fatal ["Unable to resolve " +:+ t +:+ " address " +:+ addr +:+ ": " +:+
               Error err]
    | NoSocket tcpAddr err =>
        Fatal ["Unable to listen on " +:+ tcpAddr +:+ ": " +:+ Error err]
    | Bound laddr => Live (Some laddr) ["Listening on " +:+ laddr]
    end.

(** What main has set up when it enters its loop: the arguments it gives
    to every handleConn, and the dispatcher with the goroutines started. *)
Record serving : Type := {
  s_buflen : Z;
  s_banner : string;
  s_logdir : option string;
  s_disp : dispatcher
}.

(** main up to its loop.  [mkdir] is what [os.MkdirAll] answers for the
    log directory, [a4] and [a6] what the network answers to the two calls of
    listener. *)
Definition main (fl : flags) (mkdir : option error) (a4 a6 : bind_answer)
  : run serving :=
  run_bind
    (if negb (f_nolog fl)
     then match mkdir with
          | Some err =>
              Fatal ["Unable to create directory " +:+ f_logdir fl +:+ ": " +:+
                     Error err]
          | None => Live (Some (f_logdir fl)) []
          end
     else Live None [])
    (fun logDir =>
       let banner :=
         if 0 <? slen (f_banner fl) then f_banner fl +:+ NL
         else f_banner fl in
       if f_no4 fl && f_no6 fl
       then Fatal ["-no4 and -no6 may not both be specified."]
       else
         run_bind
           (if negb (f_no4 fl) then listener "tcp4" (f_addr fl) a4
            else Live None [])
           (fun l4 =>
              let n1 := match l4 with Some _ => add_int 0 1 | None => 0 end in
              run_bind
                (if negb (f_no6 fl) then listener "tcp6" (f_addr fl) a6
                 else Live None [])
                (fun l6 =>
                   let n2 :=
                     match l6 with Some _ => add_int n1 1 | None => n1 end in
                   match l4, l6 with
                   | None, None => Fatal ["Unaable to create any listeners"]
                   | _, _ =>
                       Live {| s_buflen := f_buflen fl;
                               s_banner := banner;
                               s_logdir := logDir;
                               s_disp :=
                                 {| w4 := match l4 with
                                          | Some _ => Accepting
                                          | None => NotStarted
                                          end;
                                    w6 := match l6 with
                                          | Some _ => Accepting
                                          | None => NotStarted
                                          end;
                                    closed4 := false; closed6 := false;
                                    n := n2; i := 0; handled := [];
                                    out := []; fatal := false |} |} []
                   end))).

(** What a piece of code has logged, however it ended. *)
Definition log_of {A} (r : run A) : list string :=
  match r with Live _ l | Fatal l | Panic l => l end.

Definition is_bound (a : bind_answer) : bool :=
  match a with Bound _ => true | _ => false end.

Definition listening_line (disabled : bool) (a : bind_answer) : list string :=
  match disabled, a with
  | false, Bound laddr => ["Listening on " +:+ laddr]
  | _, _ => []
  end.

(** The packets among the receptions of the logger. *)
Fixpoint packets (script : list received) : nat :=
  match script with
  | [] => 0
  | Got _ _ _ _ _ :: rest => S (packets rest)
  | Closed _ :: rest => packets rest
  end.

(** ** Reading a replay file *)

(** The bytes before the first [sep], and those after it. *)
Fixpoint until (sep : byte) (bs : list byte)
  : option (list byte * list byte) :=
  match bs with
  | [] => None
  | b :: rest =>
      if Byte.eqb b sep then Some ([], rest)
      else
        match until sep rest with
        | Some (field, rest') => Some (b :: field, rest')
        | None => None
        end
  end.

(** No byte of [bs] is [sep]. *)
Definition free_of (sep : byte) (bs : list byte) : bool :=
  forallb (fun b => negb (Byte.eqb b sep)) bs.

(** A decimal numeral, read as [%v] wrote it. *)
Definition read_int (bs : list byte) : option Z :=
  option_map Z.of_int (NilZero.int_of_string (string_of_list_byte bs)).

Definition read_dir (b : byte) : option dir :=
  if Byte.eqb b x69 then Some Inbound
  else if Byte.eqb b x6f then Some Outbound
  else None.

(** One record off the front of a replay file: the fields of the line of
    metadata up to their separators, then as many bytes of payload as the
    metadata declares. *)
Definition read_record (bs : list byte) : option (record * list byte) :=
  match bs with
  | [] => None
  | nl :: r0 =>
      if negb (Byte.eqb nl x0a) then None
      else
        match until x09 r0 with
        | None => None
        | Some (stamp, r1) =>
        match until x2e r1 with
        | None => None
        | Some (secs, r2) =>
        match until x09 r2 with
        | None => None
        | Some (nanos, r3) =>
        match until x09 r3 with
        | None => None
        | Some (dc, r4) =>
        match until x09 r4 with
        | None => None
        | Some (length, r5) =>
        match dc, read_int secs, read_int nanos, read_int length with
        | [c], Some s, Some ns, Some n =>
            match read_dir c with
            | Some d =>
                if (0 <=? n) && (n <=? len r5)
                then Some ({| rec_dir := d;
                              rec_time :=
                                {| StampNano := string_of_list_byte stamp;
                                   Unix := s; Nanosecond := ns |};
                              rec_payload := firstn (Z.to_nat n) r5 |},
                           skipn (Z.to_nat n) r5)
                else None
            | None => None
            end
        | _, _, _, _ => None
        end end end end end end
  end.

(** The records of a replay file; the fuel bounds their number. *)
Fixpoint read_records (fuel : nat) (bs : list byte) : option (list record) :=
  match bs with
  | [] => Some []
  | _ :: _ =>
      match fuel with
      | O => None
      | S fuel' =>
          match read_record bs with
          | Some (r, rest) =>
              match read_records fuel' rest with
              | Some rs => Some (r :: rs)
              | None => None
              end
          | None => None
          end
      end
  end.

(** A record takes at least one byte, so the length of the file is fuel
    enough. *)
Definition replay (bs : list byte) : option (list record) :=
  read_records (length bs) bs.

(** The time stamp of the record has no tab in it. *)
Definition plain_stamp (r : record) : Prop :=
  free_of x09 (bytes (StampNano (rec_time r))) = true.

(** * Properties *)

(** ** Traces *)

Lemma wire_app h a b : wire h (a ++ b) = wire h a ++ wire h b.
Proof.
  induction a as [|e a IH]; simpl; [reflexivity|].
  destruct e; simpl; rewrite ?IH, <- ?List.app_assoc; reflexivity.
Qed.

Lemma done_sends_app a b : done_sends (a ++ b) = done_sends a ++ done_sends b.
Proof.
  induction a as [|e a IH]; simpl; [reflexivity|].
  destruct e; simpl; rewrite ?IH; reflexivity.
Qed.

Lemma reads_app h a b : reads h (a ++ b) = reads h a ++ reads h b.
Proof.
  induction a as [|e a IH]; simpl; [reflexivity|].
  destruct e; simpl; rewrite ?IH, <- ?List.app_assoc; reflexivity.
Qed.

Lemma bytes_app a b : bytes (a +:+ b) = bytes a ++ bytes b.
Proof.
  unfold bytes, list_byte_of_string.
  induction a as [|c a IH]; simpl; [reflexivity|].
  f_equal. exact IH.
Qed.

Lemma slen_bytes s : len (bytes s) = slen s.
Proof.
  unfold len, slen, bytes, list_byte_of_string. f_equal.
  induction s as [|c s IH]; simpl; [reflexivity|]. f_equal. exact IH.
Qed.

Lemma substring_all s : substring 0 (String.length s) s = s.
Proof. induction s as [|c s IH]; simpl; [reflexivity|]. rewrite IH. reflexivity. Qed.

Lemma substring_skip a b :
  substring (String.length a) (String.length b) (a +:+ b) = b.
Proof.
  induction a as [|c a IH]; simpl; [apply substring_all | exact IH].
Qed.

(** [HasSuffix] accepts what ends in the suffix. *)
Lemma HasSuffix_append a b : HasSuffix (a +:+ b) b = true.
Proof.
  unfold HasSuffix.
  assert (L : String.length (a +:+ b) =
              (String.length a + String.length b)%nat).
  { induction a as [|c a IH]; simpl; [reflexivity|]. rewrite IH. reflexivity. }
  rewrite L.
  replace (String.length a + String.length b - String.length b)%nat
    with (String.length a) by lia.
  rewrite substring_skip, String.eqb_refl, andb_true_r.
  apply Nat.leb_le. lia.
Qed.

(** ** The target of the connection back *)

Lemma banner_loop_no_dial banner l s ws ta :
  ~ In (EvDial ta) (fst (banner_loop banner l s ws)).
Proof.
  revert s. induction ws as [|w ws IH]; intros s; simpl.
  - destruct (s <? l); simpl; tauto.
  - destruct (s <? l); simpl; [|tauto].
    destruct (w_err w); simpl.
    + intros [E|[]]. discriminate E.
    + specialize (IH (add_int s (w_n w))).
      destruct (banner_loop banner l (add_int s (w_n w)) ws) as [evs res].
      simpl in *. intros [E|E]; [discriminate E | tauto].
Qed.

Section Target.
Context `{NetText}.

Lemma build_target_tcp r rad lad :
  RemoteAddr r = AddrTCP rad -> LocalAddr r = AddrTCP lad ->
  build_target r = inl {| IP := IP rad; Port := Port lad |}.
Proof. intros Hr Hl. unfold build_target. rewrite Hr, Hl. reflexivity. Qed.

(** C1. When both endpoint addresses of the accepted connection are TCP
    addresses, the target handleConn builds has the remote IP and the
    local port; every dial in the trace of handleConn goes to that target,
    whatever the remote port is; and a handler that reaches its proxies
    has dialled it. *)
Theorem C1_connect_back_target (r : TCPConn) (rad lad : TCPAddr)
    (buflen : Z) (banner : string) (logdir : option string)
    (disk0 : disk) (env : henv) :
  RemoteAddr r = AddrTCP rad ->
  LocalAddr r = AddrTCP lad ->
  let target := {| IP := IP rad; Port := Port lad |} in
  let res := handleConn r buflen banner logdir disk0 env in
  build_target r = inl target /\
  (forall ta, In (EvDial ta) (fst res) -> ta = target) /\
  (forall s, snd res = HWaiting s -> In (EvDial target) (fst res)).
Proof.
  intros Hr Hl target res.
  pose proof (build_target_tcp r rad lad Hr Hl) as Hb.
  split; [exact Hb|].
  subst res. unfold handleConn. rewrite Hb. fold target.
  set (B := if 0 <? slen banner
            then banner_loop banner (slen banner) 0 (r_writes env)
            else ([], Some (None, r_writes env))).
  assert (HB : forall ta, ~ In (EvDial ta) (fst B)).
  { intros ta. subst B. destruct (0 <? slen banner).
    - apply banner_loop_no_dial.
    - simpl. tauto. }
  destruct B as [ev1 sent]. simpl in HB.
  assert (Hin : forall ta (tl : list event),
             In (EvDial ta)
               ((EvLog ("Connection got: " +:+ Addr_String (RemoteAddr r) +:+
                        " -> " +:+ Addr_String (LocalAddr r)) :: nil) ++
                ev1 ++ tl) ->
             In (EvDial ta) tl).
  { intros ta tl E. simpl in E. destruct E as [E|E]; [discriminate E|].
    apply in_app_or in E. destruct E as [E|E]; [destruct (HB ta E)|exact E]. }
  destruct sent as [[[err|] ws]|].
  - split; [|intros s E; discriminate E].
    intros ta E. apply Hin in E. simpl in E.
    destruct E as [E|[E|[]]]; discriminate E.
  - destruct (dial env) as [t|err].
    + split.
      * intros ta E. apply Hin in E. simpl in E.
        destruct E as [E|[E|[]]]; [congruence | discriminate E].
      * intros s _. simpl. right. apply in_or_app. right. left. reflexivity.
    + destruct ws as [|w ws'].
      * split; [|intros s E; discriminate E].
        intros ta E. simpl in E. destruct E as [E|E]; [discriminate E|].
        apply in_app_or in E. destruct E as [E|E]; [destruct (HB ta E)|].
        simpl in E. destruct E as [E|[E|[]]]; [congruence | discriminate E].
      * split; [|intros s E; discriminate E].
        intros ta E. apply Hin in E. simpl in E.
        destruct E as [E|[E|[E|E]]];
          [congruence | discriminate E | discriminate E |].
        destruct (w_err w); simpl in E;
          repeat (destruct E as [E|E]; [discriminate E|]); destruct E.
  - split; [|intros s E; discriminate E].
    intros ta E. simpl in E. destruct E as [E|E]; [discriminate E|].
    destruct (HB ta E).
Qed.

End Target.

(** A concrete accepted connection: the target is 10.0.0.1, port 23, and
    not port 40000. *)
Lemma C1_connect_back_target_witness :
  RemoteAddr Sample.client =
    AddrTCP {| IP := [x0a; x00; x00; x01]; Port := 40000 |} /\
  LocalAddr Sample.client =
    AddrTCP {| IP := [x0a; x00; x00; x02]; Port := 23 |} /\
  @build_target Sample.text Sample.client =
    inl {| IP := [x0a; x00; x00; x01]; Port := 23 |} /\
  In (EvDial {| IP := [x0a; x00; x00; x01]; Port := 23 |})
     (fst Sample.logged).
Proof.
  split; [reflexivity|]. split; [reflexivity|].
  pose proof (@C1_connect_back_target Sample.text Sample.client
                {| IP := [x0a; x00; x00; x01]; Port := 40000 |}
                {| IP := [x0a; x00; x00; x02]; Port := 23 |}
                4 "" (Some "owm") ∅ Sample.quiet eq_refl eq_refl)
    as [Hb [_ Hd]].
  split; [exact Hb|].
  exact (Hd Sample.logged_session eq_refl).
Defined.

(** ** The banner *)

Lemma wrap_int_small z : - 2 ^ 63 <= z < 2 ^ 63 -> wrap_int z = z.
Proof.
  intros Hz. unfold wrap_int.
  rewrite Z.mod_small by lia. lia.
Qed.

(** main appends one newline to a non-empty banner, whatever it ends in. *)
Lemma main_banner_newline banner :
  banner <> EmptyString -> main_banner banner = banner +:+ NL.
Proof.
  intros Hne. unfold main_banner.
  destruct banner as [|c b]; [congruence|].
  unfold slen. simpl String.length.
  destruct (0 <? Z.of_nat (S (String.length b))) eqn:E; [reflexivity|].
  apply Z.ltb_ge in E. lia.
Qed.

(** A first write that takes the whole banner ends the loop: the banner
    is on the wire once. *)
Lemma banner_loop_whole banner w ws :
  0 < slen banner < 2 ^ 63 ->
  w_err w = None -> w_n w = slen banner ->
  banner_loop banner (slen banner) 0 (w :: ws) =
    ([EvWrite ConnR (bytes banner) w], Some (None, ws)).
Proof.
  intros Hl He Hn. simpl.
  destruct (0 <? slen banner) eqn:E; [|apply Z.ltb_ge in E; lia].
  rewrite He, Hn. unfold add_int. rewrite wrap_int_small by lia.
  simpl (0 + _).
  destruct ws as [|w' ws']; simpl; rewrite Z.ltb_irrefl; reflexivity.
Qed.


(** When the first write takes the whole banner, the client has been sent
    the configured text and one newline by the time of the dial. *)
Lemma banner_before_dial `{NetText} (r : TCPConn) (rad lad : TCPAddr)
    (buflen : Z) (flag : string) (logdir : option string) (disk0 : disk)
    (w : wres) (ws : list wres) (d : TCPConn + error) (n : string) :
  flag <> EmptyString ->
  slen (main_banner flag) < 2 ^ 63 ->
  RemoteAddr r = AddrTCP rad -> LocalAddr r = AddrTCP lad ->
  w_err w = None -> w_n w = slen (main_banner flag) ->
  wire ConnR
    (before_dial
       (fst (handleConn r buflen (main_banner flag) logdir disk0
               {| r_writes := w :: ws; dial := d; now := n |}))) =
  bytes flag ++ bytes NL.
Proof.
  intros Hne Hlt Hr Hl He Hn.
  assert (Hpos : 0 < slen (main_banner flag)).
  { rewrite main_banner_newline by exact Hne.
    unfold slen. destruct flag; [congruence|]. simpl. lia. }
  unfold handleConn. cbn [r_writes dial].
  destruct (0 <? slen (main_banner flag)) eqn:E;
    [|apply Z.ltb_ge in E; lia].
  rewrite banner_loop_whole by (try exact He; try exact Hn; lia).
  rewrite (build_target_tcp r rad lad Hr Hl).
  assert (Hw : firstn (Z.to_nat (w_n w)) (bytes (main_banner flag)) =
               bytes flag ++ bytes NL).
  { rewrite Hn, <- slen_bytes. unfold len. rewrite Nat2Z.id.
    rewrite firstn_all. rewrite main_banner_newline by exact Hne.
    apply bytes_app. }
  destruct d as [t|err]; [|destruct ws as [|w' ws']];
    simpl; rewrite Hw, app_nil_r; reflexivity.
Qed.

(** ** The read loop of proxyBytes *)

Lemma prun_Returned p answers : pc p = Returned -> prun p answers = (p, []).
Proof.
  intros Hp. destruct answers as [|a rest]; simpl; [reflexivity|].
  unfold pstep. rewrite Hp. reflexivity.
Qed.

(** Every [*net.OpError] ends the direction with nothing sent on [done];
    the text only chooses the message that is logged. *)
Lemma OpError_ends_silently p got text tmp rest :
  pc p = AtRead -> len got <= len (buf p) ->
  pc (fst (prun p (ARead got (Some (OpError text tmp)) :: rest))) = Returned /\
  done_sends (snd (prun p (ARead got (Some (OpError text tmp)) :: rest))) = [].
Proof.
  intros Hp Hl. simpl. unfold pstep. rewrite Hp.
  destruct (len got <=? len (buf p)) eqn:E; [|apply Z.leb_gt in E; lia].
  cbn [on_read].
  rewrite prun_Returned by reflexivity. cbn [fst snd].
  split; [reflexivity|].
  rewrite app_nil_r. cbn [done_sends].
  destruct (HasSuffix text "use of closed network connection");
    [reflexivity|].
  destruct (HasSuffix text "connection reset by peer"); reflexivity.
Qed.

(** C3 as it holds.  At the head of the read loop, that is after any
    sequence of reads and writes that came back to it: a clean EOF sends the
    source handle on [done] and ends the direction; a [*net.OpError] whose
    text ends in "use of closed network connection" or in "connection reset
    by peer" ends the direction with nothing sent on [done]; a read error
    that is neither EOF nor a [*net.OpError] sends the source handle and
    ends the direction. *)
Theorem C3_read_errors (p : proxy) (got : list byte) (rest : list answer) :
  pc p = AtRead ->
  len got <= len (buf p) ->
  (reporting (fst (prun p [ARead got (Some EOF)])) (src p) /\
   pc (fst (prun p (ARead got (Some EOF) :: ASent :: rest))) = Returned /\
   done_sends (snd (prun p (ARead got (Some EOF) :: ASent :: rest))) =
     [src p]) /\
  (forall text tmp,
      HasSuffix text "use of closed network connection" ||
      HasSuffix text "connection reset by peer" = true ->
      pc (fst (prun p (ARead got (Some (OpError text tmp)) :: rest))) =
        Returned /\
      done_sends (snd (prun p (ARead got (Some (OpError text tmp)) :: rest))) =
        []) /\
  (forall ty text nt,
      let e := Some (OtherError ty text nt) in
      reporting (fst (prun p [ARead got e])) (src p) /\
      pc (fst (prun p (ARead got e :: ASent :: rest))) = Returned /\
      done_sends (snd (prun p (ARead got e :: ASent :: rest))) = [src p]).
Proof.
  intros Hp Hl.
  assert (E : (len got <=? len (buf p)) = true) by (apply Z.leb_le; exact Hl).
  split; [|split].
  - simpl. unfold pstep. rewrite Hp, E. cbn [on_read set_pc pc fst snd src].
    rewrite prun_Returned by reflexivity.
    split; [exists false; reflexivity|]. split; reflexivity.
  - intros text tmp _. apply OpError_ends_silently; assumption.
  - intros ty text nt e. subst e. simpl. unfold pstep. rewrite Hp, E.
    cbn [on_read set_pc pc fst snd src].
    rewrite prun_Returned by reflexivity.
    split; [exists false; reflexivity|]. split; reflexivity.
Qed.

(** The three cases on a proxy with a four-byte buffer. *)
Lemma C3_read_errors_witness :
  let p := proxy_start ConnR ConnT 4 "c" false in
  pc p = AtRead /\ len [x61] <= len (buf p) /\
  done_sends (snd (prun p [ARead [x61] (Some EOF); ASent])) = [ConnR] /\
  done_sends (snd (prun p [ARead [x61] Sample.reset; ASent])) = [] /\
  done_sends
    (snd (prun p [ARead [x61] (Some (OtherError "syscall.Errno" "EIO" None));
                  ASent])) = [ConnR].
Proof.
  split; [reflexivity|]. split; [vm_compute; discriminate|].
  pose proof (C3_read_errors (proxy_start ConnR ConnT 4 "c" false) [x61] []
                eq_refl ltac:(vm_compute; discriminate))
    as [[_ [_ H1]] [_ H3]].
  pose proof (C3_read_errors (proxy_start ConnR ConnT 4 "c" false) [x61]
                [ASent] eq_refl ltac:(vm_compute; discriminate))
    as [_ [H2 _]].
  split; [exact H1|]. split.
  - exact (proj2 (H2 "read tcp 10.0.0.1:40000: connection reset by peer"
                    false eq_refl)).
  - exact (proj2 (proj2 (H3 "syscall.Errno" "EIO" None))).
Defined.

(** C3 as the claim states it fails: a read that ends on a connection
    timeout is a read error other than the two that are classified, and it
    is not EOF, yet the direction ends with nothing sent on [done]. *)
Lemma C3_other_read_error_counterexample :
  let p := proxy_start ConnR ConnT 4 "c" false in
  let text := "read tcp 10.0.0.1:40000: connection timed out" in
  let run := prun p [ARead [] Sample.timed_out; ASent] in
  Sample.timed_out = Some (OpError text true) /\
  HasSuffix text "use of closed network connection" = false /\
  HasSuffix text "connection reset by peer" = false /\
  pc (fst run) = Returned /\
  ~ In (EvDone ConnR) (snd run) /\
  ~ reporting (fst (prun p [ARead [] Sample.timed_out])) ConnR.
Proof.
  vm_compute. repeat split; try reflexivity.
  - intros [E|[]]. discriminate E.
  - intros [again E]. discriminate E.
Qed.

(** ** The write loop of proxyBytes *)

(** A write that fails with a non-temporary network error sends the
    destination handle on [done] and then is back at the read: the break
    leaves the write loop only. *)
Lemma write_error_reads_again p start end_ w :
  pc p = AtWrite start end_ ->
  0 <= start -> start <= end_ -> end_ <= len (buf p) ->
  0 <= w_n w <= end_ - start ->
  as_net_Error (w_err w) = Some false ->
  exists q tr,
    prun p [AWrite w; ASent] = (q, tr) /\
    pc q = AtRead /\ done_sends tr = [dst p].
Proof.
  intros Hp H0 H1 H2 Hn He. simpl. unfold pstep at 1. rewrite Hp.
  destruct ((0 <=? w_n w) && (w_n w <=? end_ - start)) eqn:E.
  2:{ apply andb_false_iff in E.
      destruct E as [E|E]; [apply Z.leb_gt in E | apply Z.leb_gt in E]; lia. }
  unfold on_write, slice.
  destruct ((0 <=? start) && (start <=? end_) && (end_ <=? len (buf p))) eqn:S.
  2:{ apply andb_false_iff in S. destruct S as [S|S].
      - apply andb_false_iff in S.
        destruct S as [S|S]; apply Z.leb_gt in S; lia.
      - apply Z.leb_gt in S; lia. }
  rewrite He. cbn [set_pc pstep pc dst]. eexists _, _.
  split; [reflexivity|]. split; reflexivity.
Qed.

(** C4.  The inbound direction reads "ab"; the write to the destination
    fails with a broken pipe, which is not temporary; the proxy sends the
    destination handle on [done], and the next thing it does is another read
    of the source, which it carries on with. *)
Theorem C4_write_error_does_not_stop_the_direction :
  let w := {| w_n := 0; w_err := Sample.broken_pipe |} in
  let run :=
    proxyBytes ConnR ConnT 4 "c" false
      [ARead [x61; x62] None; AWrite w; ASent; ARead [x63; x64] None] in
  as_net_Error (w_err w) = Some false /\
  snd run =
    [EvRead ConnR [x61; x62] None;
     EvWrite ConnT [x61; x62] w;
     EvLog "Error writing to c: write tcp 10.0.0.1:23: broken pipe";
     EvDone ConnT;
     EvRead ConnR [x63; x64] None] /\
  pc (fst run) = AtWrite 0 2.
Proof.
  vm_compute. repeat split; reflexivity.
Qed.

(** ** The records of the replay file *)

(** [%v] of an integer is its decimal numeral: reading it gives the
    integer back. *)
Lemma fmt_int_reads_back z :
  option_map Z.of_int (NilZero.int_of_string (fmt_int z)) = Some z.
Proof.
  unfold fmt_int. rewrite NilZero.isi.
  - simpl. f_equal. apply DecimalZ.of_to.
  - destruct z; simpl; try discriminate. intros E. injection E as E.
    revert E. apply DecimalPos.Unsigned.to_uint_nonnil.
  - destruct z; simpl; try discriminate. intros E. injection E as E.
    revert E. apply DecimalPos.Unsigned.to_uint_nonnil.
Qed.

Lemma metadata_bytes d t length payload :
  bytes (metadata d t length) ++ payload = record_bytes d t length payload.
Proof.
  cbv beta zeta delta [metadata record_bytes].
  rewrite !bytes_app. repeat rewrite <- List.app_assoc. reflexivity.
Qed.

Lemma slice_prefix (b : list byte) n :
  0 <= n <= len b -> slice b 0 n = Some (firstn (Z.to_nat n) b).
Proof.
  intros Hn. unfold slice.
  destruct (0 <=? 0) eqn:E0; [|apply Z.leb_gt in E0; lia].
  destruct (0 <=? n) eqn:E1; [|apply Z.leb_gt in E1; lia].
  destruct (n <=? len b) eqn:E2; [|apply Z.leb_gt in E2; lia].
  simpl. rewrite Z.sub_0_r. reflexivity.
Qed.

(** logPacket on an open file whose two writes succeed appends one
    record. *)
Lemma logPacket_appends (fs : disk) f p d t :
  closed f = false ->
  0 <= pkt_length p <= len (pkt_data p) ->
  logPacket fs (Some f) p d t FullWrite FullWrite =
    Live (<[Name f :=
              default [] (fs !! Name f) ++
              record_bytes d t (pkt_length p)
                (firstn (Z.to_nat (pkt_length p)) (pkt_data p))]> fs,
          Some f) [].
Proof.
  intros Hc Hn. unfold logPacket, File_Write. rewrite Hc.
  cbn [w_err]. rewrite (slice_prefix _ _ Hn). rewrite Hc. cbn [w_err].
  rewrite lookup_insert_eq. cbn [default]. rewrite insert_insert_eq.
  unfold id. rewrite <- List.app_assoc, metadata_bytes. reflexivity.
Qed.

(** C7.  A packet of declared length L, logged on an open replay file
    whose writes succeed: what is appended to the file is a newline, the
    human-readable timestamp, a tab, the Unix seconds, a dot, the
    nanoseconds, a tab, 'i' for the inbound and 'o' for the outbound
    direction, a tab, L in decimal, a tab, and the first L bytes of the
    payload, with nothing after them. *)
Theorem C7_record_format (fs : disk) (f : File) (p : packet) (d : bool)
    (t : Time) :
  closed f = false ->
  0 <= pkt_length p <= len (pkt_data p) ->
  exists fs',
    logPacket fs (Some f) p d t FullWrite FullWrite = Live (fs', Some f) [] /\
    fs' !! Name f =
      Some (default [] (fs !! Name f) ++
            bytes NL ++ bytes (StampNano t) ++ bytes TAB ++
            bytes (fmt_int (Unix t)) ++ bytes "." ++
            bytes (fmt_int (Nanosecond t)) ++ bytes TAB ++
            bytes (if d then "i" else "o") ++ bytes TAB ++
            bytes (fmt_int (pkt_length p)) ++ bytes TAB ++
            firstn (Z.to_nat (pkt_length p)) (pkt_data p)) /\
    (forall other, other <> Name f -> fs' !! other = fs !! other).
Proof.
  intros Hc Hn. eexists. split; [apply logPacket_appends; assumption|].
  split.
  - rewrite lookup_insert_eq. reflexivity.
  - intros other Hne. rewrite lookup_insert_ne by congruence. reflexivity.
Qed.

(** Two of the three bytes of a buffer, logged inbound on an empty file. *)
Lemma C7_record_format_witness :
  let f := {| Name := "owm/x.owm"; closed := false |} in
  let p := {| pkt_data := [x68; x69; x21]; pkt_length := 2 |} in
  closed f = false /\
  0 <= pkt_length p <= len (pkt_data p) /\
  exists fs',
    logPacket ∅ (Some f) p true Sample.noon FullWrite FullWrite =
      Live (fs', Some f) [] /\
    fs' !! "owm/x.owm" =
      Some (bytes (NL +:+ "Apr 28 10:00:00.000000005" +:+ TAB +:+
                   "1398679200.5" +:+ TAB +:+ "i" +:+ TAB +:+ "2" +:+ TAB +:+
                   "hi")).
Proof.
  split; [reflexivity|]. split; [vm_compute; split; discriminate|].
  destruct (C7_record_format ∅ {| Name := "owm/x.owm"; closed := false |}
              {| pkt_data := [x68; x69; x21]; pkt_length := 2 |} true
              Sample.noon eq_refl ltac:(vm_compute; split; discriminate))
    as [fs' [H1 [H2 _]]].
  exists fs'. split; [exact H1|]. cbn [Name] in H2. rewrite H2.
  vm_compute. reflexivity.
Defined.

(** ** Opening the replay file *)


Lemma olog_loop_head_None l : olog l = None -> olog (loop_head l) = None.
Proof.
  intros E. unfold loop_head.
  destruct (iclosed l && oclosed l); simpl; rewrite ?E; reflexivity.
Qed.

(** Without a file every turn of the logger leaves the disk alone and
    logs nothing. *)
Lemma lstep_nil_file (fs : disk) l r x :
  olog l = None -> lstep fs l r = Some x ->
  exists l', x = Live (fs, l') [] /\ olog l' = None.
Proof.
  intros Ho. unfold lstep. destruct (exited l); [discriminate|].
  destruct r as [d p t a1 a2|[|]].
  - destruct (chan_closed l d); [discriminate|].
    rewrite Ho. simpl. intros E. inversion E; subst.
    eexists. split; [reflexivity|]. apply olog_loop_head_None. reflexivity.
  - intros E. inversion E; subst.
    eexists. split; [reflexivity|]. apply olog_loop_head_None. exact Ho.
  - intros E. inversion E; subst.
    eexists. split; [reflexivity|]. apply olog_loop_head_None. exact Ho.
Qed.

Lemma lrun_nil_file script : forall (fs : disk) l res,
  olog l = None -> lrun fs l script = Some res ->
  exists l', res = Live (fs, l') [] /\ olog l' = None.
Proof.
  induction script as [|r rest IH]; intros fs l res Ho; simpl.
  - intros E. inversion E; subst. eauto.
  - destruct (lstep fs l r) as [x|] eqn:Es; [|discriminate].
    destruct (lstep_nil_file fs l r x Ho Es) as [l1 [-> Ho1]].
    destruct (lrun fs l1 rest) as [y|] eqn:Er; [|discriminate].
    destruct (IH fs l1 y Ho1 Er) as [l2 [-> Ho2]].
    simpl. intros E. inversion E; subst. eauto.
Qed.



(** ** The end of logSession *)

Lemma loop_head_ok f ic oc :
  logger_ok (loop_head {| olog := f; iclosed := ic; oclosed := oc;
                          exited := false |}).
Proof.
  unfold loop_head, logger_ok. cbn [iclosed oclosed].
  destruct (ic && oc) eqn:E; cbn [exited iclosed oclosed olog].
  - split; [symmetry; exact E|].
    intros _ f0 Hf. destruct f as [f|]; simpl in Hf; [|discriminate].
    inversion Hf; subst. reflexivity.
  - split; [symmetry; exact E|]. discriminate.
Qed.

Lemma loop_head_flags l :
  iclosed (loop_head l) = iclosed l /\ oclosed (loop_head l) = oclosed l.
Proof.
  unfold loop_head. destruct (iclosed l && oclosed l); split; reflexivity.
Qed.

Lemma lstep_flags (fs : disk) l r fs1 l1 log1 :
  lstep fs l r = Some (Live (fs1, l1) log1) ->
  exited l = false /\
  iclosed l1 = iclosed l || closes Inbound r /\
  oclosed l1 = oclosed l || closes Outbound r /\
  logger_ok l1.
Proof.
  unfold lstep. destruct (exited l); [discriminate|].
  destruct r as [d p t a1 a2|[|]].
  - destruct (chan_closed l d); [discriminate|].
    destruct (logPacket fs (olog l) p
                match d with Inbound => true | Outbound => false end
                t a1 a2) as [[fs2 f2] lg| |]; simpl; try discriminate.
    intros E. inversion E; subst.
    destruct (loop_head_flags {| olog := f2; iclosed := iclosed l;
                                 oclosed := oclosed l; exited := false |})
      as [Hi Ho].
    rewrite Hi, Ho. cbn [iclosed oclosed].
    repeat split; try apply loop_head_ok;
      destruct d; rewrite orb_false_r; reflexivity.
  - intros E. inversion E; subst.
    destruct (loop_head_flags {| olog := olog l; iclosed := true;
                                 oclosed := oclosed l; exited := false |})
      as [Hi Ho].
    rewrite Hi, Ho. cbn [iclosed oclosed closes].
    repeat split; try apply loop_head_ok.
    + rewrite orb_true_r. reflexivity.
    + rewrite orb_false_r. reflexivity.
  - intros E. inversion E; subst.
    destruct (loop_head_flags {| olog := olog l; iclosed := iclosed l;
                                 oclosed := true; exited := false |})
      as [Hi Ho].
    rewrite Hi, Ho. cbn [iclosed oclosed closes].
    repeat split; try apply loop_head_ok.
    + rewrite orb_false_r. reflexivity.
    + rewrite orb_true_r. reflexivity.
Qed.

Lemma lrun_flags script : forall (fs : disk) l fs' l' log,
  logger_ok l ->
  lrun fs l script = Some (Live (fs', l') log) ->
  iclosed l' = iclosed l || existsb (closes Inbound) script /\
  oclosed l' = oclosed l || existsb (closes Outbound) script /\
  logger_ok l'.
Proof.
  induction script as [|r rest IH]; intros fs l fs' l' log Hok; simpl.
  - intros E. inversion E; subst. rewrite !orb_false_r. auto.
  - destruct (lstep fs l r) as [[[fs1 l1] log1| |]|] eqn:Es;
      try discriminate.
    destruct (lstep_flags _ _ _ _ _ _ Es) as [_ [Hi [Ho Hok1]]].
    destruct (lrun fs1 l1 rest) as [[[fs2 l2] log2| |]|] eqn:Er;
      try discriminate.
    intros E. inversion E; subst.
    destruct (IH _ _ _ _ _ Hok1 Er) as [Hi2 [Ho2 Hok2]].
    rewrite Hi2, Ho2, Hi, Ho, !orb_assoc. auto.
Qed.

Lemma existsb_closes d script :
  existsb (closes d) script = true <-> In (Closed d) script.
Proof.
  rewrite existsb_exists. split.
  - intros [r [Hin Hr]]. destruct r as [? ? ? ? ?|[|]], d; simpl in Hr;
      try discriminate; exact Hin.
  - intros Hin. exists (Closed d). split; [exact Hin|]. destruct d; reflexivity.
Qed.

(** C8.  logSession has returned exactly when its select has received
    the end of both channels; when it returns its file is closed; and
    while it has not returned, a packet arriving on a channel that is not
    closed is taken and handed to logPacket. *)
Theorem C8_logger_ends_when_both_closed (fs : disk) (mkdir : option error)
    (dir prefix : string) (script : list received)
    (fs' : disk) (l : logger) (log : list string) :
  logSession fs mkdir dir prefix script = Some (Live (fs', l) log) ->
  (exited l = true <->
   In (Closed Inbound) script /\ In (Closed Outbound) script) /\
  (exited l = true -> forall f, olog l = Some f -> closed f = true) /\
  (forall d p t a1 a2,
      chan_closed l d = false ->
      lstep fs' l (Got d p t a1 a2) =
        Some (run_bind
                (logPacket fs' (olog l) p
                   (match d with Inbound => true | Outbound => false end)
                   t a1 a2)
                (fun '(fs2, f2) =>
                   Live (fs2, loop_head {| olog := f2; iclosed := iclosed l;
                                           oclosed := oclosed l;
                                           exited := false |}) []))).
Proof.
  unfold logSession.
  destruct (openLogFile fs mkdir dir (prefix +:+ ".owm"))
    as [[fs0 f0] log0| |]; try discriminate.
  destruct (lrun fs0 (logger_start f0) script) as [[[fs1 l1] log1| |]|] eqn:Er;
    try discriminate.
  intros E. inversion E; subst.
  destruct (lrun_flags script fs0 (logger_start f0) fs' l log1
              (loop_head_ok f0 false false) Er) as [Hi [Ho [Hex Hcl]]].
  simpl in Hi, Ho.
  split; [|split; [exact Hcl|]].
  - rewrite Hex, Hi, Ho, andb_true_iff, !existsb_closes. tauto.
  - intros d p t a1 a2 Hd. unfold lstep.
    assert (Hne : exited l = false).
    { rewrite Hex. destruct d; simpl in Hd; rewrite Hd;
        [reflexivity | apply andb_false_r]. }
    rewrite Hne, Hd. reflexivity.
Qed.

(** A packet each way, then the end of both channels: the logger has
    returned and the file it wrote is closed. *)
Lemma C8_logger_ends_when_both_closed_witness :
  let script :=
    [Got Inbound {| pkt_data := [x68; x69]; pkt_length := 2 |} Sample.noon
       FullWrite FullWrite;
     Closed Inbound;
     Got Outbound {| pkt_data := [x6f; x6b]; pkt_length := 2 |} Sample.later
       FullWrite FullWrite;
     Closed Outbound] in
  exists fs' l,
    logSession ∅ None "owm" "2014" script = Some (Live (fs', l) []) /\
    exited l = true /\
    olog l = Some {| Name := "owm/2014.owm"; closed := true |}.
Proof.
  intros script.
  destruct (logSession ∅ None "owm" "2014" script)
    as [[[fs' l] log| |]|] eqn:E;
    try (vm_compute in E; discriminate E).
  assert (Hlog : log = []) by (vm_compute in E; congruence).
  subst log.
  pose proof (C8_logger_ends_when_both_closed ∅ None "owm" "2014" script
                fs' l [] E) as [Hx [Hc _]].
  assert (Hex : exited l = true).
  { apply Hx. subst script. simpl. tauto. }
  exists fs', l. split; [reflexivity|]. split; [exact Hex|].
  vm_compute in E. inversion E; subst. reflexivity.
Defined.

(** ** The dispatcher after the death of a listener *)

Lemma dstep_closed_before_signal d a d' :
  closed_before_signal d -> dstep d a = Some d' -> closed_before_signal d'.
Proof.
  unfold closed_before_signal, dstep. intros Inv.
  destruct (fatal d); [discriminate|].
  destruct a as [f [c|err]|f|f|f|].
  - destruct (waiter d f) eqn:W; try discriminate.
    intros E g. inversion E; subst. specialize (Inv g).
    destruct f, g; simpl in *; intros [X|X];
      try discriminate X; auto; rewrite W in Inv; auto.
  - destruct (waiter d f) eqn:W; try discriminate.
    intros E g. inversion E; subst. specialize (Inv g).
    destruct f, g; simpl in *; auto.
  - destruct (waiter d f) eqn:W; try discriminate.
    intros E g. inversion E; subst. specialize (Inv g).
    destruct f, g; simpl in *; intros [X|X];
      try discriminate X; auto; rewrite W in Inv; auto.
  - destruct (ch_closed d f); [|discriminate].
    intros E g. inversion E; subst. exact (Inv g).
  - destruct (waiter d f) eqn:W; try discriminate.
    destruct (i d <? n d); [|discriminate].
    intros E g. inversion E; subst. specialize (Inv g).
    pose proof (Inv) as Inv'.
    destruct f, g; simpl in *; auto; intros _; apply Inv; rewrite W; auto.
  - destruct (i d <? n d); [discriminate|].
    intros E g. inversion E; subst. exact (Inv g).
Qed.

Lemma drun_closed_before_signal acts : forall d d',
  closed_before_signal d -> drun d acts = Some d' -> closed_before_signal d'.
Proof.
  induction acts as [|a rest IH]; intros d d' Inv; simpl.
  - intros E. inversion E; subst. exact Inv.
  - destruct (dstep d a) as [d1|] eqn:Es; [|discriminate].
    apply IH. eapply dstep_closed_before_signal; eauto.
Qed.

(** C10.  With both listeners started, the accept of the IPv4 listener
    fails.  Its channel is closed while its death is not yet signalled
    (waitDead has counted nothing), and the select of main receives from the
    closed channel: handleConn is started on a nil connection, with the IPv6
    listener still accepting and the process alive.  The same happens after
    the death is signalled, and again, for the channel stays closed. *)
Theorem C10_nil_connection_after_listener_death :
  main_start false false true true = Live both_listening [] /\
  (exists d,
      drun both_listening
        [Accept Tcp4 (inr (OpError "accept tcp 0.0.0.0:23: too many open files" true));
         RecvClosed Tcp4] = Some d /\
      handled d = [None] /\ closed4 d = true /\ w4 d = Signalling /\
      i d = 0 /\ w6 d = Accepting /\ fatal d = false) /\
  (exists d,
      drun both_listening
        [Accept Tcp4 (inr (OpError "accept tcp 0.0.0.0:23: too many open files" true));
         Death Tcp4; RecvClosed Tcp4; RecvClosed Tcp4] = Some d /\
      handled d = [None; None] /\ w4 d = Finished /\ i d = 1 /\ n d = 2 /\
      w6 d = Accepting /\ fatal d = false).
Proof.
  split; [reflexivity|]. split.
  - eexists. split; [reflexivity|]. repeat split; reflexivity.
  - eexists. split; [vm_compute; reflexivity|]. repeat split; reflexivity.
Qed.

(** ** Closing the sockets of a session *)

Lemma proxy_of_with_proxy s d p d' :
  proxy_of (with_proxy s d p) d' =
  match d, d' with
  | Inbound, Inbound | Outbound, Outbound => p
  | _, _ => proxy_of s d'
  end.
Proof. destruct d, d'; reflexivity. Qed.

Lemma logger_moved_frame s x s' ev :
  logger_moved s x = (s', ev) ->
  p_in s' = p_in s /\ p_out s' = p_out s /\ waiting s' = waiting s /\
  chans_closed s' = chans_closed s /\
  r_closes s' = r_closes s /\ t_closes s' = t_closes s.
Proof.
  unfold logger_moved. destruct x as [[fs' l'] log|log|log];
    intros E; inversion E; subst; simpl; repeat split; reflexivity.
Qed.

(** What a move of a session does to the handler and to the sockets:
    nothing, unless it is the handler receiving from [done], which makes it
    return and closes each socket once. *)
Lemma sstep_closes s a s' ev :
  sstep s a = Some (s', ev) ->
  (waiting s' = waiting s /\ r_closes s' = r_closes s /\
   t_closes s' = t_closes s) \/
  (exists d h again,
      a = Report d /\ pc (proxy_of s d) = AtDone h again /\
      waiting s = true /\ waiting s' = false /\
      r_closes s' = S (r_closes s) /\ t_closes s' = S (t_closes s)).
Proof.
  unfold sstep. destruct (negb (alive s)); [discriminate|].
  destruct a as [d [got err|w|]|mk|d|t a1 a2|d|d|d].
  - destruct (pstep (proxy_of s d) (ARead got err)) as [[p e]|];
      [|discriminate].
    intros E. inversion E; subst. left. destruct d; simpl; auto.
  - destruct (pstep (proxy_of s d) (AWrite w)) as [[p e]|]; [|discriminate].
    intros E. inversion E; subst. left. destruct d; simpl; auto.
  - discriminate.
  - destruct (logging s) as [[dir prefix|l|l d n]|]; try discriminate.
    intros E. inversion E as [E']. left.
    destruct (logger_moved_frame _ _ _ _ E') as (_ & _ & ? & _ & ? & ?).
    auto.
  - destruct (pc (proxy_of s d)); try discriminate.
    destruct (logging s) as [[dir prefix|l|l d' n']|]; try discriminate.
    destruct (exited l || chans_closed s); [discriminate|].
    destruct (pstep (proxy_of s d) ASent) as [[p e]|]; [|discriminate].
    intros E. inversion E; subst. left. destruct d; simpl; auto.
  - destruct (logging s) as [[dir prefix|l|l d n]|]; try discriminate.
    destruct (lstep (fs s) l _) as [x|]; [|discriminate].
    intros E. inversion E as [E']. left.
    destruct (logger_moved_frame _ _ _ _ E') as (_ & _ & ? & _ & ? & ?).
    auto.
  - destruct (pc (proxy_of s d)) as [| | |h again| |] eqn:Hpc;
      try discriminate.
    destruct (waiting s) eqn:Hw; [|discriminate].
    destruct (pstep (proxy_of s d) ASent) as [[p e]|]; [|discriminate].
    unfold handler_returns. intros E. inversion E; subst.
    right. exists d, h, again. destruct d; simpl; auto 10.
  - destruct (logging s) as [[dir prefix|l|l d' n]|]; try discriminate.
    destruct (chans_closed s); [|discriminate].
    destruct (lstep (fs s) l (Closed d)) as [x|]; [|discriminate].
    intros E. inversion E as [E']. left.
    destruct (logger_moved_frame _ _ _ _ E') as (_ & _ & ? & _ & ? & ?).
    auto.
  - destruct (pc (proxy_of s d)); try discriminate.
    destruct (chans_closed s); [|discriminate].
    intros E. inversion E; subst. left. simpl. auto.
Qed.

(** What a move does to a proxy: nothing, or one step of it. *)
Lemma sstep_proxy s a s' ev d :
  sstep s a = Some (s', ev) ->
  proxy_of s' d = proxy_of s d \/
  exists x e, pstep (proxy_of s d) x = Some (proxy_of s' d, e).
Proof.
  unfold sstep. destruct (negb (alive s)); [discriminate|].
  destruct a as [d0 [got err|w|]|mk|d0|t a1 a2|d0|d0|d0].
  - destruct (pstep (proxy_of s d0) (ARead got err)) as [[p e]|] eqn:Ep;
      [|discriminate].
    intros E. inversion E; subst. rewrite proxy_of_with_proxy.
    destruct d0, d; eauto.
  - destruct (pstep (proxy_of s d0) (AWrite w)) as [[p e]|] eqn:Ep;
      [|discriminate].
    intros E. inversion E; subst. rewrite proxy_of_with_proxy.
    destruct d0, d; eauto.
  - discriminate.
  - destruct (logging s) as [[dir prefix|l|l d1 n]|]; try discriminate.
    intros E. inversion E as [E']. left.
    destruct (logger_moved_frame _ _ _ _ E') as (? & ? & _).
    destruct d; simpl; auto.
  - destruct (pc (proxy_of s d0)); try discriminate.
    destruct (logging s) as [[dir prefix|l|l d' n']|]; try discriminate.
    destruct (exited l || chans_closed s); [discriminate|].
    destruct (pstep (proxy_of s d0) ASent) as [[p e]|] eqn:Ep;
      [|discriminate].
    intros E. inversion E; subst.
    destruct d0, d; simpl; eauto.
  - destruct (logging s) as [[dir prefix|l|l d1 n]|]; try discriminate.
    destruct (lstep (fs s) l _) as [x|]; [|discriminate].
    intros E. inversion E as [E']. left.
    destruct (logger_moved_frame _ _ _ _ E') as (? & ? & _).
    destruct d; simpl; auto.
  - destruct (pc (proxy_of s d0)) as [| | |h again| |] eqn:Hpc;
      try discriminate.
    destruct (waiting s) eqn:Hw; [|discriminate].
    destruct (pstep (proxy_of s d0) ASent) as [[p e]|] eqn:Ep;
      [|discriminate].
    unfold handler_returns. intros E. inversion E; subst.
    destruct d0, d; simpl; eauto.
  - destruct (logging s) as [[dir prefix|l|l d' n]|]; try discriminate.
    destruct (chans_closed s); [|discriminate].
    destruct (lstep (fs s) l (Closed d0)) as [x|]; [|discriminate].
    intros E. inversion E as [E']. left.
    destruct (logger_moved_frame _ _ _ _ E') as (? & ? & _).
    destruct d; simpl; auto.
  - destruct (pc (proxy_of s d0)); try discriminate.
    destruct (chans_closed s); [|discriminate].
    intros E. inversion E; subst. left. destruct d; reflexivity.
Qed.

Lemma pstep_Returned p x : pc p = Returned -> pstep p x = None.
Proof. intros E. unfold pstep. rewrite E. reflexivity. Qed.

(** Each socket is closed at most once, and both at the same time: when
    handleConn returns. *)
Lemma closed_once acts : forall s s' tr,
  waiting s = true -> r_closes s = 0%nat -> t_closes s = 0%nat ->
  srun s acts = Some (s', tr) ->
  (waiting s' = true /\ r_closes s' = 0%nat /\ t_closes s' = 0%nat) \/
  (waiting s' = false /\ r_closes s' = 1%nat /\ t_closes s' = 1%nat).
Proof.
  assert (Hafter : forall acts s s' tr,
             waiting s = false -> srun s acts = Some (s', tr) ->
             waiting s' = false /\ r_closes s' = r_closes s /\
             t_closes s' = t_closes s).
  { clear. induction acts as [|a rest IH]; intros s s' tr Hw; simpl.
    - intros E. inversion E; subst. auto.
    - destruct (sstep s a) as [[s1 e1]|] eqn:Es; [|discriminate].
      destruct (srun s1 rest) as [[s2 e2]|] eqn:Er; [|discriminate].
      intros E. inversion E; subst.
      destruct (sstep_closes _ _ _ _ Es)
        as [(Hw1 & Hr1 & Ht1)|(d & h & ag & _ & _ & Hw1 & _)];
        [|congruence].
      assert (Hw' : waiting s1 = false) by congruence.
      destruct (IH s1 s' e2 Hw' Er) as (? & ? & ?).
      repeat split; congruence. }
  induction acts as [|a rest IH]; intros s s' tr Hw Hr Ht; simpl.
  - intros E. inversion E; subst. auto.
  - destruct (sstep s a) as [[s1 e1]|] eqn:Es; [|discriminate].
    destruct (srun s1 rest) as [[s2 e2]|] eqn:Er; [|discriminate].
    intros E. inversion E; subst.
    destruct (sstep_closes _ _ _ _ Es)
      as [(Hw1 & Hr1 & Ht1)|(d & h & ag & _ & _ & _ & Hw1 & Hr1 & Ht1)].
    + apply (IH s1 s' e2); congruence.
    + right. destruct (Hafter _ _ _ _ Hw1 Er) as (? & ? & ?).
      repeat split; congruence.
Qed.

(** Once both directions have returned with handleConn still waiting,
    nothing ever closes the sockets. *)
Lemma never_closed acts : forall s s' tr,
  pc (p_in s) = Returned -> pc (p_out s) = Returned ->
  waiting s = true ->
  srun s acts = Some (s', tr) ->
  waiting s' = true /\ r_closes s' = r_closes s /\ t_closes s' = t_closes s.
Proof.
  induction acts as [|a rest IH]; intros s s' tr Hi Ho Hw; simpl.
  - intros E. inversion E; subst. auto.
  - destruct (sstep s a) as [[s1 e1]|] eqn:Es; [|discriminate].
    destruct (srun s1 rest) as [[s2 e2]|] eqn:Er; [|discriminate].
    intros E. inversion E; subst.
    assert (Hp : forall d, proxy_of s1 d = proxy_of s d).
    { intros d. destruct (sstep_proxy _ _ _ _ d Es) as [?|(x & e & Hx)];
        [assumption|].
      rewrite pstep_Returned in Hx by (destruct d; assumption).
      discriminate. }
    destruct (sstep_closes _ _ _ _ Es)
      as [(Hw1 & Hr1 & Ht1)|(d & h & ag & _ & Hpc & _)].
    + destruct (IH s1 s' e2) as (? & ? & ?); try assumption.
      * rewrite (Hp Inbound : p_in s1 = p_in s). assumption.
      * rewrite (Hp Outbound : p_out s1 = p_out s). assumption.
      * congruence.
      * repeat split; congruence.
    + destruct d; simpl in Hpc; congruence.
Qed.

(** C5.  In a session with its proxies started, the read of each
    direction fails with a connection reset.  Both directions have then
    returned, nothing was sent on [done], handleConn is still waiting, and
    neither socket is closed; and whatever the session does from there on,
    neither socket is ever closed. *)
Theorem C5_reset_leaves_sockets_open :
  snd Sample.logged = HWaiting Sample.logged_session /\
  exists s tr,
    srun Sample.logged_session
      [Io Inbound (ARead [] Sample.reset);
       Io Outbound (ARead [] Sample.reset)] = Some (s, tr) /\
    pc (p_in s) = Returned /\ pc (p_out s) = Returned /\
    done_sends tr = [] /\
    waiting s = true /\ r_closes s = 0%nat /\ t_closes s = 0%nat /\
    forall acts s' tr',
      srun s acts = Some (s', tr') ->
      waiting s' = true /\ r_closes s' = 0%nat /\ t_closes s' = 0%nat.
Proof.
  split; [reflexivity|].
  destruct (srun Sample.logged_session
              [Io Inbound (ARead [] Sample.reset);
               Io Outbound (ARead [] Sample.reset)])
    as [[s tr]|] eqn:E; [|vm_compute in E; discriminate E].
  exists s, tr. split; [reflexivity|].
  assert (Hs : pc (p_in s) = Returned /\ pc (p_out s) = Returned /\
               done_sends tr = [] /\ waiting s = true /\
               r_closes s = 0%nat /\ t_closes s = 0%nat).
  { vm_compute in E. inversion E; subst. repeat split; reflexivity. }
  destruct Hs as (Hi & Ho & Hd & Hw & Hr & Ht).
  repeat (split; [assumption|]).
  intros acts s' tr' Hrun.
  destruct (never_closed acts s s' tr' Hi Ho Hw Hrun) as (? & ? & ?).
  repeat split; congruence.
Qed.

(** ** The replay file and the bytes read *)


Lemma encode_nonempty r : encode r <> [].
Proof. unfold encode, record_bytes. discriminate. Qed.

Lemma pstep_read p got err q ev :
  pstep p (ARead got err) = Some (q, ev) ->
  pc p = AtRead /\ len got <= len (buf p) /\ (q, ev) = on_read p got err.
Proof.
  unfold pstep. destruct (pc p); try discriminate.
  destruct (len got <=? len (buf p)) eqn:E; [|discriminate].
  apply Z.leb_le in E. intros X. inversion X. auto.
Qed.

Lemma pstep_write p w q ev :
  pstep p (AWrite w) = Some (q, ev) ->
  exists start end_,
    pc p = AtWrite start end_ /\ (q, ev) = on_write p start end_ w.
Proof.
  unfold pstep. destruct (pc p) as [| |start end_| | |]; try discriminate.
  destruct ((0 <=? w_n w) && (w_n w <=? end_ - start)); [|discriminate].
  intros X. inversion X. eauto.
Qed.

Lemma pstep_sent p q ev :
  pstep p ASent = Some (q, ev) ->
  (exists n, pc p = AtLogSend n /\ q = set_pc p (write_loop 0 n) /\
             ev = [EvPacket (src p) n]) \/
  (exists h again, pc p = AtDone h again /\
                   q = set_pc p (if again then AtRead else Returned) /\
                   ev = [EvDone h]).
Proof.
  unfold pstep. destruct (pc p) as [|n| |h again| |]; try discriminate;
    intros X; inversion X; subst; eauto 6.
Qed.

Lemma write_loop_not_send a b n : write_loop a b <> AtLogSend n.
Proof. unfold write_loop. destruct (a <? b); discriminate. Qed.

Lemma on_read_facts p got err q ev :
  (q, ev) = on_read p got err ->
  src q = src p /\ logc q = logc p /\
  buf q = got ++ skipn (Z.to_nat (len got)) (buf p) /\
  (forall h, reads h ev = if handle_eqb h (src p) then got else []) /\
  match err with
  | None => pc q = if logc p then AtLogSend (len got) else write_loop 0 (len got)
  | Some _ => forall n, pc q <> AtLogSend n
  end.
Proof.
  unfold on_read. intros E.
  destruct err as [[|text tmp|ty text nt]|]; inversion E; subst; cbn;
    repeat split; try discriminate;
    try (intros h; destruct (handle_eqb h (src p));
         rewrite ?app_nil_r; reflexivity).
  intros h.
  destruct (HasSuffix text "use of closed network connection");
    [|destruct (HasSuffix text "connection reset by peer")];
    cbn; destruct (handle_eqb h (src p)); rewrite ?app_nil_r; reflexivity.
Qed.

Lemma on_write_facts p start end_ w q ev :
  (q, ev) = on_write p start end_ w ->
  src q = src p /\ logc q = logc p /\ buf q = buf p /\
  (forall h, reads h ev = []) /\ (forall n, pc q <> AtLogSend n).
Proof.
  unfold on_write. intros E.
  destruct (slice (buf p) start end_) as [offered|].
  - destruct (as_net_Error (w_err w)) as [[|]|]; inversion E; subst; cbn;
      repeat split; try discriminate; intros n; apply write_loop_not_send.
  - inversion E; subst; cbn. repeat split; discriminate.
Qed.

Lemma len_app {A} (a b : list A) : len (a ++ b) = len a + len b.
Proof. unfold len. rewrite length_app. lia. Qed.

Lemma len_overwrite (got b : list byte) :
  len got <= len b -> len (got ++ skipn (Z.to_nat (len got)) b) = len b.
Proof.
  intros H. rewrite len_app. unfold len in *. rewrite length_skipn. lia.
Qed.

Lemma firstn_overwrite (got b : list byte) :
  firstn (Z.to_nat (len got)) (got ++ skipn (Z.to_nat (len got)) b) = got.
Proof.
  unfold len. rewrite Nat2Z.id.
  rewrite firstn_app, Nat.sub_diag, firstn_all. simpl. apply app_nil_r.
Qed.



Lemma dir_eqb_eq d d' : dir_eqb d d' = true -> d = d'.
Proof. destruct d, d'; simpl; congruence. Qed.

Lemma proxy_of_with_proxy_same s d p : proxy_of (with_proxy s d p) d = p.
Proof. destruct d; reflexivity. Qed.

Lemma proxy_of_with_proxy_other s d d' p :
  dir_eqb d' d = false -> proxy_of (with_proxy s d p) d' = proxy_of s d'.
Proof. destruct d, d'; simpl; congruence. Qed.











Lemma reads_log_events h l : reads h (log_events l) = [].
Proof. induction l as [|m l IH]; simpl; [reflexivity|exact IH]. Qed.




Lemma len_firstn (b : list byte) n :
  0 <= n <= len b -> len (firstn (Z.to_nat n) b) = n.
Proof. unfold len. intros H. rewrite length_firstn. lia. Qed.








Section Replay.
Context `{NetText}.



End Replay.



(** When the logger is late, what it writes is what the next read left in
    the buffer: "AAAA" and "BB" are read, and the record written for the
    first packet has the payload "BBAA".  The schedule is not orderly. *)
Lemma late_logger_writes_the_next_read :
  let path := "owm/10.0.0.1/2014-04-28T10:00:00Z.owm" in
  let acts :=
    [LogOpen None; Io Inbound (ARead [x41; x41; x41; x41] None);
     Handoff Inbound; Io Inbound (AWrite (Sample.full 4));
     Io Inbound (ARead [x42; x42] None);
     LogIt Sample.noon FullWrite FullWrite] in
  orderly Sample.logged_session acts = false /\
  exists s tr,
    srun Sample.logged_session acts = Some (s, tr) /\
    reads ConnR tr = [x41; x41; x41; x41; x42; x42] /\
    fs s !! path =
      Some (encode {| rec_dir := Inbound; rec_time := Sample.noon;
                      rec_payload := [x42; x42; x41; x41] |}).
Proof.
  intros path acts. split; [vm_compute; reflexivity|].
  destruct (srun Sample.logged_session acts) as [[s tr]|] eqn:E;
    [|vm_compute in E; discriminate E].
  exists s, tr. split; [reflexivity|].
  vm_compute in E. inversion E; subst. split; reflexivity.
Qed.

(** When a write to the file fails the file is closed and the payload is
    lost: "hi" is read, and the file ends after the metadata. *)
Lemma failed_write_loses_the_payload :
  let path := "owm/10.0.0.1/2014-04-28T10:00:00Z.owm" in
  let full_disk :=
    OtherError "*fs.PathError" "write: no space left on device" None in
  let acts :=
    [LogOpen None; Io Inbound (ARead [x68; x69] None); Handoff Inbound;
     LogIt Sample.noon FullWrite (ShortWrite 0 full_disk)] in
  orderly Sample.logged_session acts = false /\
  exists s tr l,
    srun Sample.logged_session acts = Some (s, tr) /\
    reads ConnR tr = [x68; x69] /\ pending s Inbound = [] /\
    fs s !! path = Some (bytes (metadata true Sample.noon 2)) /\
    logging s = Some (LSelect l) /\
    olog l = Some {| Name := path; closed := true |}.
Proof.
  intros path full_disk acts. split; [vm_compute; reflexivity|].
  destruct (srun Sample.logged_session acts) as [[s tr]|] eqn:E;
    [|vm_compute in E; discriminate E].
  vm_compute in E. inversion E; subst.
  eexists _, _, _. split; [reflexivity|]. repeat split; reflexivity.
Qed.

(** Bytes that a read returns together with an error are counted and
    dropped: they are neither logged nor pending. *)
Lemma failed_read_drops_its_bytes :
  let path := "owm/10.0.0.1/2014-04-28T10:00:00Z.owm" in
  let acts := [LogOpen None; Io Inbound (ARead [x78] (Some EOF))] in
  orderly Sample.logged_session acts = false /\
  exists s tr,
    srun Sample.logged_session acts = Some (s, tr) /\
    reads ConnR tr = [x78] /\ pending s Inbound = [] /\
    read (p_in s) = 1 /\ fs s !! path = Some [].
Proof.
  intros path acts. split; [vm_compute; reflexivity|].
  destruct (srun Sample.logged_session acts) as [[s tr]|] eqn:E;
    [|vm_compute in E; discriminate E].
  vm_compute in E. inversion E; subst.
  eexists _, _. split; [reflexivity|]. repeat split; reflexivity.
Qed.

(** * Further properties *)

(** ** The byte proxy on its own *)

Lemma handle_eqb_refl h : handle_eqb h h = true.
Proof. destruct h; reflexivity. Qed.

Lemma write_loop_cases start end_ :
  (start < end_ /\ write_loop start end_ = AtWrite start end_) \/
  (end_ <= start /\ write_loop start end_ = AtRead).
Proof.
  unfold write_loop. destruct (start <? end_) eqn:E.
  - apply Z.ltb_lt in E. auto.
  - apply Z.ltb_ge in E. auto.
Qed.

Lemma add_int_small a b :
  - 2 ^ 63 <= a + b < 2 ^ 63 -> add_int a b = a + b.
Proof. intros H. unfold add_int. apply wrap_int_small. exact H. Qed.

Lemma firstn_split_chunk (l : list byte) (a b : nat) :
  firstn (a + b) l = firstn a l ++ firstn b (skipn a l).
Proof.
  revert l. induction a as [|a IH]; intros l; simpl; [reflexivity|].
  destruct l as [|x l]; simpl.
  - rewrite firstn_nil. reflexivity.
  - rewrite IH. reflexivity.
Qed.

Lemma bounds_write_loop (b : list byte) start end_ n :
  len b < 2 ^ 63 -> 0 <= start -> start < end_ -> end_ <= len b ->
  0 <= n <= end_ - start ->
  match write_loop (add_int start n) end_ with
  | AtLogSend m => 0 <= m <= len b
  | AtWrite s e => 0 <= s /\ s < e /\ e <= len b
  | Panicked => False
  | _ => True
  end.
Proof.
  intros HB H0 H1 H2 Hn. rewrite add_int_small by lia.
  destruct (write_loop_cases (start + n) end_) as [[G ->]|[G ->]];
    [lia | exact I].
Qed.

(** What a write took and what is left of the chunk are the chunk. *)
Lemma chunk_written (b : list byte) start end_ n :
  len b < 2 ^ 63 -> 0 <= start -> start < end_ -> end_ <= len b ->
  0 <= n <= end_ - start ->
  firstn (Z.to_nat n)
    (firstn (Z.to_nat (end_ - start)) (skipn (Z.to_nat start) b)) ++
  match write_loop (add_int start n) end_ with
  | AtLogSend m => firstn (Z.to_nat m) b
  | AtWrite s e => firstn (Z.to_nat (e - s)) (skipn (Z.to_nat s) b)
  | _ => []
  end =
  firstn (Z.to_nat (end_ - start)) (skipn (Z.to_nat start) b).
Proof.
  intros HB H0 H1 H2 Hn. rewrite add_int_small by lia.
  rewrite firstn_firstn, Nat.min_l by lia.
  destruct (write_loop_cases (start + n) end_) as [[G ->]|[G ->]].
  - replace (Z.to_nat (end_ - start))
      with (Z.to_nat n + Z.to_nat (end_ - (start + n)))%nat by lia.
    rewrite firstn_split_chunk, skipn_skipn.
    replace (Z.to_nat n + Z.to_nat start)%nat
      with (Z.to_nat (start + n)) by lia.
    reflexivity.
  - assert (n = end_ - start) as -> by lia. apply app_nil_r.
Qed.

Lemma on_read_pc_err p got e q ev :
  (q, ev) = on_read p got (Some e) ->
  pc q = Returned \/ pc q = AtDone (src p) false.
Proof.
  unfold on_read. destruct e as [|text tmp|ty text nt]; intros E;
    inversion E; subst; cbn; auto.
Qed.

(** One step of a proxy: bounds are kept, the sockets stay the same, and
    with a lossless answer what reached the destination and what is still
    unsent add up to what was unsent and what was read. *)
Lemma pstep_relay p a q ev :
  in_bounds p -> pstep p a = Some (q, ev) ->
  in_bounds q /\ src q = src p /\ dst q = dst p /\
  len (buf q) = len (buf p) /\
  (lossless a = true ->
   wire (dst p) ev ++ unsent q = unsent p ++ reads (src p) ev).
Proof.
  intros [HB Hpc] Hs. destruct a as [got err|w|].
  - destruct (pstep_read _ _ _ _ _ Hs) as (Hp & Hlen & Hon).
    destruct (on_read_facts _ _ _ _ _ Hon) as (Hsrc & Hlogc & Hbuf & Hreads & Hq).
    assert (Hdst : dst q = dst p).
    { unfold on_read in Hon.
      destruct err as [[|text tmp|ty text nt]|]; inversion Hon; reflexivity. }
    assert (Hwire : wire (dst p) ev = []).
    { unfold on_read in Hon.
      destruct err as [[|text tmp|ty text nt]|]; inversion Hon; try reflexivity.
      destruct (HasSuffix text "use of closed network connection");
        [reflexivity|].
      destruct (HasSuffix text "connection reset by peer"); reflexivity. }
    assert (Hlq : len (buf q) = len (buf p)).
    { rewrite Hbuf. apply len_overwrite. exact Hlen. }
    assert (Hn0 : 0 <= len got) by (unfold len; lia).
    split; [|split; [exact Hsrc|split; [exact Hdst|split; [exact Hlq|]]]].
    + split; [lia|]. destruct err as [e|].
      * destruct (on_read_pc_err _ _ _ _ _ Hon) as [-> | ->]; exact I.
      * rewrite Hq. destruct (logc p); [lia|].
        destruct (write_loop_cases 0 (len got)) as [[H1 ->]|[H1 ->]];
          [lia | exact I].
    + intros Hl. rewrite Hwire, Hreads, handle_eqb_refl.
      unfold unsent at 2. rewrite Hp. cbn [app].
      unfold unsent. destruct err as [e|].
      * cbn [lossless] in Hl. apply Z.eqb_eq in Hl.
        assert (got = []) by (destruct got; [reflexivity|unfold len in Hl; simpl in Hl; lia]).
        subst got.
        destruct (on_read_pc_err _ _ _ _ _ Hon) as [-> | ->]; reflexivity.
      * rewrite Hq. destruct (logc p).
        -- rewrite Hbuf. apply firstn_overwrite.
        -- destruct (write_loop_cases 0 (len got)) as [[H1 ->]|[H1 ->]].
           ++ rewrite Z.sub_0_r, Hbuf. cbn [Z.to_nat skipn].
              apply firstn_overwrite.
           ++ destruct got; [reflexivity|unfold len in H1; simpl in H1; lia].
  - destruct (pstep_write _ _ _ _ Hs) as (start & end_ & Hp & Hon).
    rewrite Hp in Hpc. destruct Hpc as (H0 & H1 & H2).
    assert (Hn : 0 <= w_n w <= end_ - start).
    { unfold pstep in Hs. rewrite Hp in Hs.
      destruct ((0 <=? w_n w) && (w_n w <=? end_ - start)) eqn:E;
        [|discriminate].
      apply andb_true_iff in E. destruct E as [E1 E2].
      apply Z.leb_le in E1. apply Z.leb_le in E2. lia. }
    assert (Hsl : slice (buf p) start end_ =
                  Some (firstn (Z.to_nat (end_ - start))
                          (skipn (Z.to_nat start) (buf p)))).
    { unfold slice.
      destruct (0 <=? start) eqn:E1; [|apply Z.leb_gt in E1; lia].
      destruct (start <=? end_) eqn:E2; [|apply Z.leb_gt in E2; lia].
      destruct (end_ <=? len (buf p)) eqn:E3; [|apply Z.leb_gt in E3; lia].
      reflexivity. }
    unfold on_write in Hon. rewrite Hsl in Hon.
    destruct (as_net_Error (w_err w)) as [[|]|] eqn:Hne;
      inversion Hon; subst q ev; clear Hon; cbn [src dst buf set_pc pc].
    + split; [|split; [reflexivity|split; [reflexivity|split; [reflexivity|]]]].
      * unfold in_bounds. cbn [buf set_pc pc]. split; [exact HB|].
        apply bounds_write_loop; lia.
      * intros _. cbn [wire reads]. rewrite handle_eqb_refl, !app_nil_r.
        unfold unsent at 2. rewrite Hp. unfold unsent. cbn [pc set_pc buf].
        apply chunk_written; lia.
    + split; [|split; [reflexivity|split; [reflexivity|split; [reflexivity|]]]].
      * unfold in_bounds. cbn [buf set_pc pc]. split; [exact HB|exact I].
      * intros Hl. cbn [lossless] in Hl. rewrite Hne in Hl. discriminate Hl.
    + split; [|split; [reflexivity|split; [reflexivity|split; [reflexivity|]]]].
      * unfold in_bounds. cbn [buf set_pc pc]. split; [exact HB|].
        apply bounds_write_loop; lia.
      * intros _. cbn [wire reads]. rewrite handle_eqb_refl, !app_nil_r.
        unfold unsent at 2. rewrite Hp. unfold unsent. cbn [pc set_pc buf].
        apply chunk_written; lia.
  - destruct (pstep_sent _ _ _ Hs)
      as [(n & Hp & -> & ->)|(h & again & Hp & -> & ->)];
      rewrite Hp in Hpc; cbn [src dst buf set_pc];
      (split; [|split; [reflexivity|split; [reflexivity|split; [reflexivity|]]]]).
    + unfold in_bounds. cbn [buf pc set_pc]. split; [exact HB|].
      destruct (write_loop_cases 0 n) as [[G1 ->]|[G1 ->]]; [lia | exact I].
    + intros _. cbn [wire reads]. rewrite app_nil_r.
      unfold unsent at 2. rewrite Hp. unfold unsent. cbn [pc set_pc buf].
      destruct (write_loop_cases 0 n) as [[G1 ->]|[G1 ->]].
      * rewrite Z.sub_0_r. reflexivity.
      * assert (n = 0) as -> by lia. reflexivity.
    + unfold in_bounds. cbn [buf pc set_pc]. split; [exact HB|].
      destruct again; exact I.
    + intros _. cbn [wire reads]. unfold unsent. cbn [pc set_pc].
      rewrite Hp. destruct again; reflexivity.
Qed.

Lemma proxy_start_in_bounds source dest buflen cstr logc :
  0 <= buflen < 2 ^ 63 ->
  in_bounds (proxy_start source dest buflen cstr logc) /\
  len (buf (proxy_start source dest buflen cstr logc)) = buflen.
Proof.
  intros H. unfold in_bounds, proxy_start. cbn [buf pc].
  assert (L : len (repeat x00 (Z.to_nat buflen)) = buflen).
  { unfold len. rewrite repeat_length. lia. }
  rewrite L. destruct (buflen <? 0) eqn:E; [apply Z.ltb_lt in E; lia|].
  repeat split; lia.
Qed.

Lemma prun_relay answers : forall p q tr,
  in_bounds p -> prun p answers = (q, tr) ->
  in_bounds q /\ src q = src p /\ dst q = dst p /\
  len (buf q) = len (buf p) /\
  (forallb lossless answers = true ->
   wire (dst p) tr ++ unsent q = unsent p ++ reads (src p) tr).
Proof.
  induction answers as [|a rest IH]; intros p q tr Hb; simpl.
  - intros E. inversion E; subst.
    refine (conj Hb (conj eq_refl (conj eq_refl (conj eq_refl _)))).
    intros _. simpl. rewrite app_nil_r. reflexivity.
  - destruct (pstep p a) as [[p1 e1]|] eqn:Es.
    + destruct (prun p1 rest) as [z evs] eqn:Er.
      intros E. inversion E; subst z tr. clear E.
      destruct (pstep_relay _ _ _ _ Hb Es) as (Hb1 & Hs1 & Hd1 & Hl1 & Hr1).
      destruct (IH _ _ _ Hb1 Er) as (Hb2 & Hs2 & Hd2 & Hl2 & Hr2).
      split; [exact Hb2|]. split; [congruence|]. split; [congruence|].
      split; [congruence|].
      intros Hall. apply andb_true_iff in Hall. destruct Hall as [Ha Hrest].
      specialize (Hr1 Ha). specialize (Hr2 Hrest).
      rewrite Hs1, Hd1 in Hr2.
      rewrite wire_app, reads_app, <- List.app_assoc, Hr2.
      rewrite !List.app_assoc, Hr1. reflexivity.
    + intros E. inversion E; subst.
      refine (conj Hb (conj eq_refl (conj eq_refl (conj eq_refl _)))).
      intros _. simpl. rewrite app_nil_r. reflexivity.
Qed.

(** X1 (relay).  A proxy relays faithfully: as long as no read fails with
    bytes in hand and no write fails for good, what the destination has
    been sent, followed by what the proxy still holds of the chunk at hand,
    is exactly what was read from the source, in order. *)
Theorem proxyBytes_relays_in_order (source dest : handle) (buflen : Z)
    (cstr : string) (logc : bool) (answers : list answer) :
  0 <= buflen < 2 ^ 63 ->
  forallb lossless answers = true ->
  let run := proxyBytes source dest buflen cstr logc answers in
  wire dest (snd run) ++ unsent (fst run) = reads source (snd run).
Proof.
  intros Hb Hl run. subst run. unfold proxyBytes.
  destruct (prun (proxy_start source dest buflen cstr logc) answers) as [q tr] eqn:E.
  destruct (proxy_start_in_bounds source dest buflen cstr logc Hb) as [H0 _].
  destruct (prun_relay _ _ _ _ H0 E) as (_ & _ & _ & _ & Hr).
  specialize (Hr Hl). cbn [fst snd].
  replace (src (proxy_start source dest buflen cstr logc)) with source in Hr
    by reflexivity.
  replace (dst (proxy_start source dest buflen cstr logc)) with dest in Hr
    by reflexivity.
  rewrite Hr. unfold unsent, proxy_start. cbn [pc].
  destruct (buflen <? 0); reflexivity.
Qed.

(** Two chunks, the first written in two pieces around a temporary
    error, the second still to be written. *)
Lemma proxyBytes_relays_in_order_witness :
  let answers :=
    [ARead [x61; x62; x63] None;
     AWrite {| w_n := 1;
               w_err := Some (OpError "write tcp 10.0.0.1:23: try again" true) |};
     AWrite (Sample.full 2); ARead [x64] None] in
  let run := proxyBytes ConnR ConnT 4 "c" false answers in
  0 <= 4 < 2 ^ 63 /\ forallb lossless answers = true /\
  wire ConnT (snd run) = [x61; x62; x63] /\ unsent (fst run) = [x64] /\
  wire ConnT (snd run) ++ unsent (fst run) = reads ConnR (snd run).
Proof.
  intros answers run.
  split; [lia|]. split; [reflexivity|].
  split; [reflexivity|]. split; [reflexivity|].
  apply (proxyBytes_relays_in_order ConnR ConnT 4 "c" false answers);
    [lia | reflexivity].
Defined.



Lemma wrap_int_add_l a b : wrap_int (wrap_int a + b) = wrap_int (a + b).
Proof.
  unfold wrap_int.
  replace ((a + 2 ^ 63) mod 2 ^ 64 - 2 ^ 63 + b + 2 ^ 63)
    with ((a + 2 ^ 63) mod 2 ^ 64 + b) by lia.
  rewrite Zplus_mod_idemp_l. f_equal. f_equal. lia.
Qed.

Lemma wrap_int_idem z : wrap_int (wrap_int z) = wrap_int z.
Proof.
  unfold wrap_int.
  replace ((z + 2 ^ 63) mod 2 ^ 64 - 2 ^ 63 + 2 ^ 63)
    with ((z + 2 ^ 63) mod 2 ^ 64) by lia.
  rewrite Zmod_mod. reflexivity.
Qed.

Lemma wrap_int_range z : - 2 ^ 63 <= wrap_int z < 2 ^ 63.
Proof.
  unfold wrap_int.
  pose proof (Z.mod_pos_bound (z + 2 ^ 63) (2 ^ 64) ltac:(lia)). lia.
Qed.

Lemma pstep_counters p a q ev :
  in_bounds p -> pstep p a = Some (q, ev) ->
  wrap_int (read q) = wrap_int (read p + len (reads (src p) ev)) /\
  wrap_int (written q) = wrap_int (written p + len (wire (dst p) ev)).
Proof.
  intros [HB Hpc] Hs. destruct a as [got err|w|].
  - destruct (pstep_read _ _ _ _ _ Hs) as (Hp & Hlen & Hon).
    destruct (on_read_facts _ _ _ _ _ Hon) as (_ & _ & _ & Hreads & _).
    rewrite Hreads, handle_eqb_refl.
    unfold on_read in Hon.
    assert (Hw : wire (dst p) ev = [] /\ read q = add_int (read p) (len got) /\
                 written q = written p).
    { destruct err as [[|text tmp|ty text nt]|]; inversion Hon; subst;
        cbn [read written set_pc wire]; repeat split; try reflexivity.
      destruct (HasSuffix text "use of closed network connection");
        [reflexivity|].
      destruct (HasSuffix text "connection reset by peer"); reflexivity. }
    destruct Hw as (-> & -> & ->). unfold add_int.
    rewrite wrap_int_idem. change (len (@nil byte)) with 0.
    rewrite Z.add_0_r. split; reflexivity.
  - destruct (pstep_write _ _ _ _ Hs) as (start & end_ & Hp & Hon).
    rewrite Hp in Hpc. destruct Hpc as (H0 & H1 & H2).
    assert (Hn : 0 <= w_n w <= end_ - start).
    { unfold pstep in Hs. rewrite Hp in Hs.
      destruct ((0 <=? w_n w) && (w_n w <=? end_ - start)) eqn:E;
        [|discriminate].
      apply andb_true_iff in E. destruct E as [E1 E2].
      apply Z.leb_le in E1. apply Z.leb_le in E2. lia. }
    assert (Hsl : slice (buf p) start end_ =
                  Some (firstn (Z.to_nat (end_ - start))
                          (skipn (Z.to_nat start) (buf p)))).
    { unfold slice.
      destruct (0 <=? start) eqn:E1; [|apply Z.leb_gt in E1; lia].
      destruct (start <=? end_) eqn:E2; [|apply Z.leb_gt in E2; lia].
      destruct (end_ <=? len (buf p)) eqn:E3; [|apply Z.leb_gt in E3; lia].
      reflexivity. }
    assert (Hlen : len (firstn (Z.to_nat (w_n w))
                          (firstn (Z.to_nat (end_ - start))
                             (skipn (Z.to_nat start) (buf p)))) = w_n w).
    { unfold len in *. rewrite !length_firstn, length_skipn. lia. }
    unfold on_write in Hon. rewrite Hsl in Hon.
    destruct (as_net_Error (w_err w)) as [[|]|];
      inversion Hon; subst q ev; clear Hon;
      cbn [read written set_pc wire reads dst src];
      rewrite handle_eqb_refl, ?app_nil_r, Hlen;
      change (len (@nil byte)) with 0; rewrite Z.add_0_r;
      (split; [reflexivity|]); unfold add_int; apply wrap_int_idem.
  - destruct (pstep_sent _ _ _ Hs)
      as [(n & Hp & -> & ->)|(h & again & Hp & -> & ->)];
      cbn [read written set_pc wire reads];
      change (len (@nil byte)) with 0;
      rewrite !Z.add_0_r; split; reflexivity.
Qed.

Lemma prun_counters answers : forall p q tr,
  in_bounds p -> prun p answers = (q, tr) ->
  wrap_int (read q) = wrap_int (read p + len (reads (src p) tr)) /\
  wrap_int (written q) = wrap_int (written p + len (wire (dst p) tr)).
Proof.
  induction answers as [|a rest IH]; intros p q tr Hb; simpl.
  - intros E. inversion E; subst. cbn [reads wire].
    change (len (@nil byte)) with 0.
    rewrite !Z.add_0_r. split; reflexivity.
  - destruct (pstep p a) as [[p1 e1]|] eqn:Es.
    + destruct (prun p1 rest) as [z evs] eqn:Er.
      intros E. inversion E; subst z tr. clear E.
      destruct (pstep_relay _ _ _ _ Hb Es) as (Hb1 & Hs1 & Hd1 & _).
      destruct (pstep_counters _ _ _ _ Hb Es) as [Hr1 Hw1].
      destruct (IH _ _ _ Hb1 Er) as [Hr2 Hw2].
      rewrite Hs1 in Hr2. rewrite Hd1 in Hw2.
      rewrite reads_app, wire_app, !len_app.
      split.
      * rewrite Hr2, <- wrap_int_add_l, Hr1, wrap_int_add_l.
        f_equal. lia.
      * rewrite Hw2, <- wrap_int_add_l, Hw1, wrap_int_add_l.
        f_equal. lia.
    + intros E. inversion E; subst. cbn [reads wire].
      change (len (@nil byte)) with 0.
      rewrite !Z.add_0_r. split; reflexivity.
Qed.

(** The counters of a proxy are always values of an [int]. *)
Lemma pstep_counters_range p a q ev :
  - 2 ^ 63 <= read p < 2 ^ 63 -> - 2 ^ 63 <= written p < 2 ^ 63 ->
  pstep p a = Some (q, ev) ->
  - 2 ^ 63 <= read q < 2 ^ 63 /\ - 2 ^ 63 <= written q < 2 ^ 63.
Proof.
  intros Hr Hw Hs. destruct a as [got err|w|].
  - destruct (pstep_read _ _ _ _ _ Hs) as (_ & _ & Hon). unfold on_read in Hon.
    destruct err as [[|text tmp|ty text nt]|]; inversion Hon; subst;
      cbn [read written set_pc]; split; try exact Hw; apply wrap_int_range.
  - destruct (pstep_write _ _ _ _ Hs) as (start & end_ & _ & Hon).
    unfold on_write in Hon.
    destruct (slice (buf p) start end_);
      [destruct (as_net_Error (w_err w)) as [[|]|]|];
      inversion Hon; subst; cbn [read written set_pc]; split;
      try exact Hr; try exact Hw; apply wrap_int_range.
  - destruct (pstep_sent _ _ _ Hs)
      as [(n & _ & -> & _)|(h & again & _ & -> & _)];
      cbn [read written set_pc]; split; assumption.
Qed.

Lemma prun_counters_range answers : forall p q tr,
  - 2 ^ 63 <= read p < 2 ^ 63 -> - 2 ^ 63 <= written p < 2 ^ 63 ->
  prun p answers = (q, tr) ->
  - 2 ^ 63 <= read q < 2 ^ 63 /\ - 2 ^ 63 <= written q < 2 ^ 63.
Proof.
  induction answers as [|a rest IH]; intros p q tr Hr Hw; simpl.
  - intros E. inversion E; subst. auto.
  - destruct (pstep p a) as [[p1 e1]|] eqn:Es.
    + destruct (prun p1 rest) as [z evs] eqn:Er.
      intros E. inversion E; subst z tr.
      destruct (pstep_counters_range _ _ _ _ Hr Hw Es) as [Hr1 Hw1].
      exact (IH _ _ _ Hr1 Hw1 Er).
    + intros E. inversion E; subst. auto.
Qed.

(** X3 (counters).  The two counters of the summary line are the number of
    bytes read from the source and the number of bytes the destination took,
    as an [int]: exact below 2^63, wrapped around beyond. *)
Theorem proxyBytes_counts_bytes (source dest : handle) (buflen : Z)
    (cstr : string) (logc : bool) (answers : list answer) :
  0 <= buflen < 2 ^ 63 ->
  let run := proxyBytes source dest buflen cstr logc answers in
  read (fst run) = wrap_int (len (reads source (snd run))) /\
  written (fst run) = wrap_int (len (wire dest (snd run))) /\
  rws (fst run) =
    fmt_int (wrap_int (len (reads source (snd run)))) +:+ " read / " +:+
    fmt_int (wrap_int (len (wire dest (snd run)))) +:+ " written".
Proof.
  intros Hb run. subst run. unfold proxyBytes.
  destruct (prun (proxy_start source dest buflen cstr logc) answers)
    as [q tr] eqn:E.
  destruct (proxy_start_in_bounds source dest buflen cstr logc Hb) as [H0 _].
  destruct (prun_counters _ _ _ _ H0 E) as [Hr Hw].
  assert (R0 : - 2 ^ 63 <= 0 < 2 ^ 63) by lia.
  destruct (prun_counters_range answers
              (proxy_start source dest buflen cstr logc) q tr R0 R0 E)
    as [Rr Rw].
  cbn [fst snd].
  assert (Hr' : read q = wrap_int (len (reads source tr))).
  { rewrite <- (wrap_int_small (read q)) by exact Rr. exact Hr. }
  assert (Hw' : written q = wrap_int (len (wire dest tr))).
  { rewrite <- (wrap_int_small (written q)) by exact Rw. exact Hw. }
  split; [exact Hr'|]. split; [exact Hw'|].
  unfold rws. rewrite Hr', Hw'. reflexivity.
Qed.

Lemma proxyBytes_counts_bytes_witness :
  let run :=
    proxyBytes ConnR ConnT 4 "c" false
      [ARead [x61; x62; x63] None; AWrite (Sample.full 2);
       AWrite (Sample.full 1); ARead [] (Some EOF)] in
  0 <= 4 < 2 ^ 63 /\
  read (fst run) = 3 /\ written (fst run) = 3 /\
  rws (fst run) = "3 read / 3 written".
Proof.
  intros run. split; [lia|].
  destruct (proxyBytes_counts_bytes ConnR ConnT 4 "c" false
              [ARead [x61; x62; x63] None; AWrite (Sample.full 2);
               AWrite (Sample.full 1); ARead [] (Some EOF)] ltac:(lia))
    as (H1 & H2 & H3).
  split; [exact H1|]. split; [exact H2|exact H3].
Defined.

(** ** Sessions *)

(** A handler that reaches [<-done] has started two proxies on fresh
    buffers and, with a log directory, the logger; nothing is closed yet. *)
Lemma handleConn_starts `{NetText} r buflen banner logdir disk0 env tr0 s0 :
  handleConn r buflen banner logdir disk0 env = (tr0, HWaiting s0) ->
  exists ta c1 c2,
    build_target r = inl ta /\
    s0 =
      {| p_in := proxy_start ConnR ConnT buflen c1
                   (match logdir with Some _ => true | None => false end);
         p_out := proxy_start ConnT ConnR buflen c2
                    (match logdir with Some _ => true | None => false end);
         logging :=
           option_map
             (fun d => LStart (path_Join d (IP_String (IP ta))) (now env))
             logdir;
         fs := disk0; waiting := true; chans_closed := false;
         r_closes := 0; t_closes := 0; process := Live tt [] |}.
Proof.
  unfold handleConn.
  destruct (if 0 <? slen banner
            then banner_loop banner (slen banner) 0 (r_writes env)
            else ([], Some (None, r_writes env))) as [ev1 [[[err|] ws]|]];
    try discriminate.
  destruct (build_target r) as [ta|ev2]; [|discriminate].
  destruct (dial env) as [t|err].
  - intros X. inversion X; subst. eauto 10.
  - destruct ws; discriminate.
Qed.

Lemma sound_start buflen c1 c2 (lg : option lphase) disk0 :
  0 <= buflen < 2 ^ 63 ->
  (forall ph, lg = Some ph -> exists dir prefix, ph = LStart dir prefix) ->
  sound {| p_in := proxy_start ConnR ConnT buflen c1
                     (match lg with Some _ => true | None => false end);
           p_out := proxy_start ConnT ConnR buflen c2
                      (match lg with Some _ => true | None => false end);
           logging := lg; fs := disk0; waiting := true;
           chans_closed := false; r_closes := 0; t_closes := 0;
           process := Live tt [] |}.
Proof.
  intros Hb Hlg. unfold sound. cbn [logging chans_closed waiting process].
  split; [|split; [|split; [|split]]].
  - intros d. destruct d; cbn [proxy_of p_in p_out];
      (split; [apply proxy_start_in_bounds; exact Hb | reflexivity]).
  - intros l d n E. destruct (Hlg _ E) as (dir & prefix & X). discriminate X.
  - discriminate.
  - intros l E. unfold logger_of in E. cbn [logging] in E.
    destruct lg as [ph|]; [|discriminate].
    destruct (Hlg ph eq_refl) as (dir & prefix & ->). discriminate E.
  - discriminate.
Qed.

Lemma pstep_logc p a q ev : pstep p a = Some (q, ev) -> logc q = logc p.
Proof.
  intros Hs. destruct a as [got err|w|].
  - destruct (pstep_read _ _ _ _ _ Hs) as (_ & _ & Hon).
    destruct (on_read_facts _ _ _ _ _ Hon) as (_ & H & _). exact H.
  - destruct (pstep_write _ _ _ _ Hs) as (start & end_ & _ & Hon).
    destruct (on_write_facts _ _ _ _ _ _ Hon) as (_ & H & _). exact H.
  - destruct (pstep_sent _ _ _ Hs)
      as [(n & _ & -> & _)|(h & again & _ & -> & _)]; reflexivity.
Qed.

(** logPacket does not panic on a packet that is within its buffer. *)
Lemma logPacket_lives (fs : disk) f p d t a1 a2 :
  0 <= pkt_length p <= len (pkt_data p) ->
  exists fs' f' log, logPacket fs f p d t a1 a2 = Live (fs', f') log.
Proof.
  intros Hn. unfold logPacket. destruct f as [f|]; [|eauto].
  destruct (File_Write fs f (bytes (metadata d t (pkt_length p))) a1)
    as [fs1 w1].
  rewrite (slice_prefix _ _ Hn).
  destruct (w_err w1) as [e1|].
  - destruct (File_Write fs1 (File_Close f) _ a2) as [fs2 w2].
    destruct (w_err w2); eauto.
  - destruct (File_Write fs1 f _ a2) as [fs2 w2].
    destruct (w_err w2); eauto.
Qed.

(** Replacing a proxy by one step of it keeps a session sound. *)
Lemma sound_with_proxy s d a q ev :
  sound s -> pstep (proxy_of s d) a = Some (q, ev) ->
  (forall l n, logging s = Some (LHolding l d n) -> True) ->
  sound (with_proxy s d q).
Proof.
  intros (S1 & S2 & S3 & S4 & S5) Hs _.
  destruct (S1 d) as [Hb Hl].
  destruct (pstep_relay _ _ _ _ Hb Hs) as (Hb1 & _ & _ & Hlen & _).
  pose proof (pstep_logc _ _ _ _ Hs) as Hl1.
  unfold sound.
  change (logging (with_proxy s d q)) with (logging s).
  change (chans_closed (with_proxy s d q)) with (chans_closed s).
  change (waiting (with_proxy s d q)) with (waiting s).
  change (process (with_proxy s d q)) with (process s).
  change (logger_of (with_proxy s d q)) with (logger_of s).
  split; [|split; [|split; [|split]]]; try assumption.
  - intros x. destruct (dir_eqb x d) eqn:E.
    + apply dir_eqb_eq in E. subst x. rewrite proxy_of_with_proxy_same.
      split; [exact Hb1 | congruence].
    + rewrite proxy_of_with_proxy_other by exact E. apply S1.
  - intros l x n E0. specialize (S2 l x n E0).
    destruct (dir_eqb x d) eqn:E.
    + apply dir_eqb_eq in E. subst x. rewrite proxy_of_with_proxy_same. lia.
    + rewrite proxy_of_with_proxy_other by exact E. exact S2.
Qed.

Lemma loop_head_fields l :
  olog (loop_head l) =
    (if iclosed l && oclosed l then option_map File_Close (olog l)
     else olog l) /\
  iclosed (loop_head l) = iclosed l /\ oclosed (loop_head l) = oclosed l /\
  exited (loop_head l) = (if iclosed l && oclosed l then true else exited l).
Proof.
  unfold loop_head. destruct (iclosed l && oclosed l); repeat split.
Qed.

(** Every move keeps a session sound. *)
Lemma sstep_sound s a s' ev :
  sound s -> sstep s a = Some (s', ev) -> sound s'.
Proof.
  intros Hs. pose proof Hs as (S1 & S2 & S3 & S4 & S5). unfold sstep.
  destruct (negb (alive s)); [discriminate|].
  destruct a as [d [got err|w|]|mk|d|t a1 a2|d|d|d].
  - destruct (pstep (proxy_of s d) (ARead got err)) as [[q e]|] eqn:Ep;
      [|discriminate].
    intros X. inversion X; subst. eapply sound_with_proxy; eauto.
  - destruct (pstep (proxy_of s d) (AWrite w)) as [[q e]|] eqn:Ep;
      [|discriminate].
    intros X. inversion X; subst. eapply sound_with_proxy; eauto.
  - discriminate.
  - destruct (logging s) as [[dir prefix|l|l d n]|] eqn:Hlog;
      try discriminate.
    unfold openLogFile.
    destruct mk as [err|]; cbn [run_bind logger_moved].
    + intros X. inversion X; subst.
      pose proof Hs as (T1 & T2 & T3 & T4 & T5).
      refine (conj T1 (conj T2 (conj T3 (conj T4 _)))).
      cbn [process with_process]. discriminate.
    + destruct (os_OpenFile (fs s) (path_Join dir (prefix +:+ ".owm"))
                  openLogFile_flags) as [fs' [f|err]];
        cbn [run_bind logger_moved]; intros X; inversion X; subst;
        unfold sound, logger_of;
        cbn [logging with_logger chans_closed waiting process];
        (split; [|split; [|split; [|split]]]); try assumption.
      all: try (intros x; exact (S1 x)).
      all: try discriminate.
      all: try (intros [Hw Hn]; split; [exact Hw|discriminate]).
      all: try (intros Hc; destruct (S3 Hc) as [Hw _];
                split; [exact Hw|discriminate]).
      all: intros l E _; inversion E; subst l; repeat split; reflexivity.
  - destruct (pc (proxy_of s d)) as [|n| | | |] eqn:Hpc; try discriminate.
    destruct (logging s) as [[dir prefix|l|l d' n']|] eqn:Hlog;
      try discriminate.
    destruct (exited l || chans_closed s) eqn:Hex; [discriminate|].
    destruct (pstep (proxy_of s d) ASent) as [[q e]|] eqn:Ep; [|discriminate].
    intros X. inversion X; subst s' ev. clear X.
    assert (Hq : sound (with_proxy s d q))
      by (eapply sound_with_proxy; eauto).
    destruct Hq as (Q1 & Q2 & Q3 & Q4 & Q5).
    destruct (S1 d) as [[_ Hb] _]. rewrite Hpc in Hb.
    destruct (pstep_sent _ _ _ Ep)
      as [(m & Hm & Hq & _)|(h & ag & Hm & _)]; [|congruence].
    unfold sound, logger_of.
    cbn [logging with_logger chans_closed waiting process].
    split; [|split; [|split; [|split]]].
    + intros x. specialize (Q1 x).
      change (logging (with_proxy s d q)) with (logging s) in Q1.
      rewrite Hlog in Q1. exact Q1.
    + intros l0 d0 n0 E. inversion E; subst l0 d0 n0.
      change (proxy_of (with_logger (with_proxy s d q) _ _) d)
        with (proxy_of (with_proxy s d q) d).
      rewrite proxy_of_with_proxy_same. subst q. cbn [buf set_pc]. exact Hb.
    + intros Hc. destruct (S3 Hc) as [Hw _]. split; [exact Hw|discriminate].
    + intros l0 E Hc. inversion E; subst l0.
      apply S4; [unfold logger_of; rewrite Hlog; reflexivity|exact Hc].
    + exact S5.
  - destruct (logging s) as [[dir prefix|l|l d n]|] eqn:Hlog;
      try discriminate.
    unfold lstep. destruct (exited l) eqn:Hex; [discriminate|].
    destruct (chan_closed l d); [discriminate|].
    destruct (logPacket_lives (fs s) (olog l)
                {| pkt_data := buf (proxy_of s d); pkt_length := n |}
                (match d with Inbound => true | Outbound => false end)
                t a1 a2 (S2 l d n eq_refl)) as (fs' & f' & log & ->).
    cbn [run_bind logger_moved]. intros X. inversion X; subst s' ev. clear X.
    destruct (loop_head_fields {| olog := f'; iclosed := iclosed l;
                                  oclosed := oclosed l; exited := false |})
      as (_ & Hi & Ho & He). cbn [iclosed oclosed exited] in Hi, Ho, He.
    unfold sound, logger_of.
    cbn [logging with_logger chans_closed waiting process].
    split; [|split; [|split; [|split]]].
    + intros x. exact (S1 x).
    + discriminate.
    + intros Hc. destruct (S3 Hc) as [Hw _]. split; [exact Hw|discriminate].
    + intros l0 E Hc. inversion E; subst l0.
      destruct (S4 l ltac:(unfold logger_of; rewrite Hlog; reflexivity) Hc)
        as (Fi & Fo & _).
      rewrite Hi, Ho, He, Fi, Fo. repeat split; reflexivity.
    + exact S5.
  - destruct (pc (proxy_of s d)) as [| | |h again| |] eqn:Hpc;
      try discriminate.
    destruct (waiting s) eqn:Hw; [|discriminate].
    destruct (pstep (proxy_of s d) ASent) as [[q e]|] eqn:Ep; [|discriminate].
    unfold handler_returns. intros X. inversion X; subst s' ev. clear X.
    assert (Hq : sound (with_proxy s d q))
      by (eapply sound_with_proxy; eauto).
    destruct Hq as (Q1 & Q2 & Q3 & Q4 & Q5).
    unfold sound, logger_of.
    cbn [logging chans_closed waiting process].
    split; [|split; [|split; [|split]]].
    + exact Q1.
    + exact Q2.
    + intros Hc. split; [reflexivity|].
      change (logging (with_proxy s d q)) with (logging s) in *.
      destruct (logging s); [discriminate|discriminate Hc].
    + intros l E Hc.
      change (logging (with_proxy s d q)) with (logging s) in *.
      destruct (logging s) as [ph|]; [discriminate Hc|discriminate E].
    + exact Q5.
  - destruct (logging s) as [[dir prefix|l|l d' n]|] eqn:Hlog;
      try discriminate.
    destruct (chans_closed s) eqn:Hc; [|discriminate].
    destruct (lstep (fs s) l (Closed d)) as [x|] eqn:El; [|discriminate].
    assert (Hx : exists l', x = Live (fs s, l') []).
    { unfold lstep in El. destruct (exited l); [discriminate|].
      destruct d; inversion El; eauto. }
    destruct Hx as [l' ->]. cbn [logger_moved].
    intros X. inversion X; subst s' ev. clear X.
    unfold sound, logger_of.
    cbn [logging with_logger chans_closed waiting process].
    rewrite Hc.
    split; [|split; [|split; [|split]]].
    + intros x. exact (S1 x).
    + discriminate.
    + intros _. destruct (S3 eq_refl) as [Hw _]. split; [exact Hw|discriminate].
    + discriminate.
    + exact S5.
  - destruct (pc (proxy_of s d)); try discriminate.
    destruct (chans_closed s) eqn:Hc; [|discriminate].
    intros X. inversion X; subst s' ev. clear X.
    pose proof Hs as (T1 & T2 & T3 & T4 & T5).
    refine (conj T1 (conj T2 (conj T3 (conj T4 _)))).
    cbn [process with_process]. intros log E. inversion E. reflexivity.
Qed.

Lemma srun_sound acts : forall s s' tr,
  sound s -> srun s acts = Some (s', tr) -> sound s'.
Proof.
  induction acts as [|a rest IH]; intros s s' tr Hs; simpl.
  - intros X. inversion X; subst. exact Hs.
  - destruct (sstep s a) as [[s1 e1]|] eqn:Es; [|discriminate].
    destruct (srun s1 rest) as [[s2 e2]|] eqn:Er; [|discriminate].
    intros X. inversion X; subst.
    exact (IH _ _ _ (sstep_sound _ _ _ _ Hs Es) Er).
Qed.

Section Sessions.
Context `{NetText}.


(** X5 (logger outlives the handler).  While handleConn waits on [done]
    the two log channels are open, and logSession has neither seen one of
    them closed nor returned. *)
Theorem logger_runs_while_handler_waits (r : TCPConn) (buflen : Z)
    (banner : string) (logdir : option string) (disk0 : disk) (env : henv)
    (tr0 : list event) (s0 : session) (acts : list action) (s : session)
    (tr : list event) :
  0 <= buflen < 2 ^ 63 ->
  handleConn r buflen banner logdir disk0 env = (tr0, HWaiting s0) ->
  srun s0 acts = Some (s, tr) ->
  waiting s = true ->
  chans_closed s = false /\
  forall l, logger_of s = Some l ->
            iclosed l = false /\ oclosed l = false /\ exited l = false.
Proof.
  intros Hb Hh Hrun Hw.
  destruct (handleConn_starts _ _ _ _ _ _ _ _ Hh) as (ta & c1 & c2 & _ & ->).
  assert (H0 : sound
                 {| p_in := proxy_start ConnR ConnT buflen c1
                              (match logdir with Some _ => true | None => false end);
                    p_out := proxy_start ConnT ConnR buflen c2
                               (match logdir with Some _ => true | None => false end);
                    logging :=
                      option_map
                        (fun d => LStart (path_Join d (IP_String (IP ta)))
                                    (now env)) logdir;
                    fs := disk0; waiting := true; chans_closed := false;
                    r_closes := 0; t_closes := 0; process := Live tt [] |}).
  { pose proof (sound_start buflen c1 c2
                  (option_map
                     (fun d => LStart (path_Join d (IP_String (IP ta)))
                                 (now env)) logdir) disk0 Hb) as G.
    destruct logdir as [d|]; cbn [option_map] in *; apply G;
      intros ph E; inversion E; eauto. }
  destruct (srun_sound _ _ _ _ H0 Hrun) as (_ & _ & S3 & S4 & _).
  assert (Hc : chans_closed s = false).
  { destruct (chans_closed s); [|reflexivity].
    destruct (S3 eq_refl) as [E _]. congruence. }
  split; [exact Hc|]. intros l E. exact (S4 l E Hc).
Qed.

End Sessions.


Lemma logger_runs_while_handler_waits_witness :
  0 <= 4 < 2 ^ 63 /\
  Sample.logged = (fst Sample.logged, HWaiting Sample.logged_session) /\
  exists s tr l,
    srun Sample.logged_session sample_schedule = Some (s, tr) /\
    waiting s = true /\ logger_of s = Some l /\
    chans_closed s = false /\ exited l = false.
Proof.
  split; [lia|]. split; [reflexivity|].
  destruct (srun Sample.logged_session sample_schedule) as [[s tr]|] eqn:E;
    [|vm_compute in E; discriminate E].
  assert (Hw : waiting s = true) by (vm_compute in E; inversion E; reflexivity).
  destruct (logger_of s) as [l|] eqn:El;
    [|vm_compute in E; inversion E; subst; discriminate El].
  exists s, tr, l. split; [reflexivity|]. split; [exact Hw|].
  split; [exact El|].
  destruct (@logger_runs_while_handler_waits Sample.text Sample.client 4
              "" (Some "owm") ∅ Sample.quiet (fst Sample.logged)
              Sample.logged_session sample_schedule s tr
              ltac:(lia) eq_refl E Hw) as [Hc Hl].
  split; [exact Hc|]. exact (proj2 (proj2 (Hl l El))).
Defined.

(** ** Reports on [done] *)

Lemma on_read_quiet p got err :
  done_sends (snd (on_read p got err)) = [] /\
  existsb logging_event (snd (on_read p got err)) = false.
Proof.
  unfold on_read. destruct err as [[|text tmp|ty text nt]|]; cbn;
    try (split; reflexivity).
  destruct (HasSuffix text "use of closed network connection");
    [split; reflexivity|].
  destruct (HasSuffix text "connection reset by peer"); split; reflexivity.
Qed.

Lemma on_write_quiet p start end_ w :
  done_sends (snd (on_write p start end_ w)) = [] /\
  existsb logging_event (snd (on_write p start end_ w)) = false.
Proof.
  unfold on_write. destruct (slice (buf p) start end_); [|split; reflexivity].
  destruct (as_net_Error (w_err w)) as [[|]|]; split; reflexivity.
Qed.

Lemma done_sends_log_events l : done_sends (log_events l) = [].
Proof. induction l as [|m l IH]; simpl; [reflexivity|exact IH]. Qed.

Lemma logger_moved_done_sends s x s' ev :
  logger_moved s x = (s', ev) -> done_sends ev = [].
Proof.
  unfold logger_moved. destruct x as [[fs' l'] log|log|log];
    intros E; inversion E; apply done_sends_log_events.
Qed.

(** Only the handler receiving from [done] puts a handle through it. *)
Lemma sstep_done_sends s a s' ev :
  sstep s a = Some (s', ev) ->
  done_sends ev =
    match a with
    | Report d =>
        match pc (proxy_of s d) with AtDone h _ => [h] | _ => [] end
    | _ => []
    end.
Proof.
  unfold sstep. destruct (negb (alive s)); [discriminate|].
  destruct a as [d [got err|w|]|mk|d|t a1 a2|d|d|d].
  - destruct (pstep (proxy_of s d) (ARead got err)) as [[q e]|] eqn:Ep;
      [|discriminate].
    intros X. inversion X; subst.
    destruct (pstep_read _ _ _ _ _ Ep) as (_ & _ & Hon).
    pose proof (on_read_quiet (proxy_of s d) got err) as [G _].
    rewrite <- Hon in G. exact G.
  - destruct (pstep (proxy_of s d) (AWrite w)) as [[q e]|] eqn:Ep;
      [|discriminate].
    intros X. inversion X; subst.
    destruct (pstep_write _ _ _ _ Ep) as (start & end_ & _ & Hon).
    pose proof (on_write_quiet (proxy_of s d) start end_ w) as [G _].
    rewrite <- Hon in G. exact G.
  - discriminate.
  - destruct (logging s) as [[dir prefix|l|l d n]|]; try discriminate.
    intros X. injection X as X. apply (logger_moved_done_sends _ _ _ _ X).
  - destruct (pc (proxy_of s d)) as [|n| | | |] eqn:Hpc; try discriminate.
    destruct (logging s) as [[dir prefix|l|l d' n']|]; try discriminate.
    destruct (exited l || chans_closed s); [discriminate|].
    destruct (pstep (proxy_of s d) ASent) as [[q e]|] eqn:Ep; [|discriminate].
    intros X. inversion X; subst.
    destruct (pstep_sent _ _ _ Ep)
      as [(m & _ & _ & ->)|(h & ag & Hm & _)]; [reflexivity|congruence].
  - destruct (logging s) as [[dir prefix|l|l d n]|]; try discriminate.
    destruct (lstep (fs s) l _) as [x|]; [|discriminate].
    intros X. injection X as X. apply (logger_moved_done_sends _ _ _ _ X).
  - destruct (pc (proxy_of s d)) as [| | |h again| |] eqn:Hpc;
      try discriminate.
    destruct (waiting s); [|discriminate].
    destruct (pstep (proxy_of s d) ASent) as [[q e]|] eqn:Ep; [|discriminate].
    unfold handler_returns. intros X. inversion X; subst.
    destruct (pstep_sent _ _ _ Ep)
      as [(m & Hm & _)|(h' & ag & Hm & _ & ->)]; [congruence|].
    rewrite Hpc in Hm. inversion Hm; subst.
    rewrite done_sends_app. cbn [done_sends app].
    destruct (logging s); reflexivity.
  - destruct (logging s) as [[dir prefix|l|l d' n]|]; try discriminate.
    destruct (chans_closed s); [|discriminate].
    destruct (lstep (fs s) l (Closed d)) as [x|]; [|discriminate].
    intros X. injection X as X. apply (logger_moved_done_sends _ _ _ _ X).
  - destruct (pc (proxy_of s d)); try discriminate.
    destruct (chans_closed s); [|discriminate].
    intros X. inversion X; subst. reflexivity.
Qed.

Lemma srun_after_return acts : forall s s' tr,
  waiting s = false -> srun s acts = Some (s', tr) ->
  done_sends tr = [] /\ waiting s' = false /\
  r_closes s' = r_closes s /\ t_closes s' = t_closes s.
Proof.
  induction acts as [|a rest IH]; intros s s' tr Hw; simpl.
  - intros X. inversion X; subst. auto.
  - destruct (sstep s a) as [[s1 e1]|] eqn:Es; [|discriminate].
    destruct (srun s1 rest) as [[s2 e2]|] eqn:Er; [|discriminate].
    intros X. inversion X; subst.
    pose proof (sstep_done_sends _ _ _ _ Es) as Hd.
    destruct (sstep_closes _ _ _ _ Es)
      as [(Hw1 & Hr1 & Ht1)|(d & h & ag & _ & _ & Hw1 & _)];
      [|congruence].
    assert (Hd0 : done_sends e1 = []).
    { rewrite Hd. destruct a; try reflexivity.
      revert Es. unfold sstep. destruct (negb (alive s)); [discriminate|].
      destruct (pc (proxy_of s d)); try discriminate.
      rewrite Hw. discriminate. }
    assert (Hw' : waiting s1 = false) by congruence.
    destruct (IH s1 s' e2 Hw' Er) as (? & ? & ? & ?).
    rewrite done_sends_app, Hd0. cbn [app].
    repeat split; congruence.
Qed.

(** X6 (one report).  However many directions end, at most one handle ever
    passes through [done]: handleConn receives once and returns, closing
    each socket exactly then; a direction that reports later stays blocked
    in its send for ever. *)
Theorem session_reports_once (s : session) (acts : list action)
    (s' : session) (tr : list event) :
  waiting s = true -> r_closes s = 0%nat -> t_closes s = 0%nat ->
  srun s acts = Some (s', tr) ->
  (length (done_sends tr) <= 1)%nat /\
  r_closes s' = length (done_sends tr) /\
  t_closes s' = length (done_sends tr) /\
  (waiting s' = true <-> done_sends tr = []) /\
  (waiting s' = false -> forall d, sstep s' (Report d) = None).
Proof.
  revert s s' tr.
  assert (G : forall acts s s' tr,
             waiting s = true -> r_closes s = 0%nat -> t_closes s = 0%nat ->
             srun s acts = Some (s', tr) ->
             (length (done_sends tr) <= 1)%nat /\
             r_closes s' = length (done_sends tr) /\
             t_closes s' = length (done_sends tr) /\
             (waiting s' = true <-> done_sends tr = [])).
  { clear. induction acts as [|a rest IH]; intros s s' tr Hw Hr Ht; simpl.
    - intros X. inversion X; subst. cbn. repeat split; auto.
    - destruct (sstep s a) as [[s1 e1]|] eqn:Es; [|discriminate].
      destruct (srun s1 rest) as [[s2 e2]|] eqn:Er; [|discriminate].
      intros X. inversion X; subst.
      pose proof (sstep_done_sends _ _ _ _ Es) as Hd.
      rewrite done_sends_app.
      destruct (sstep_closes _ _ _ _ Es)
        as [(Hw1 & Hr1 & Ht1)|(d & h & ag & -> & Hpc & _ & Hw1 & Hr1 & Ht1)].
      + assert (Hd0 : done_sends e1 = []).
        { rewrite Hd. destruct a; try reflexivity.
          exfalso. revert Es. unfold sstep.
          destruct (negb (alive s)); [discriminate|].
          destruct (pc (proxy_of s d)) eqn:Hpc; try discriminate.
          rewrite Hw.
          destruct (pstep (proxy_of s d) ASent) as [[q e]|]; [|discriminate].
          unfold handler_returns. intros X'. inversion X'; subst.
          cbn in Hw1. congruence. }
        rewrite Hd0. cbn [app].
        apply (IH s1 s' e2); congruence.
      + rewrite Hd, Hpc. cbn [app length].
        destruct (srun_after_return _ _ _ _ Hw1 Er) as (-> & Hw2 & Hr2 & Ht2).
        cbn [length]. repeat split; try lia; try congruence. }
  intros s s' tr Hw Hr Ht Hrun.
  destruct (G acts s s' tr Hw Hr Ht Hrun) as (G1 & G2 & G3 & G4).
  repeat (split; [assumption|]).
  intros Hw' d. unfold sstep. destruct (negb (alive s')); [reflexivity|].
  destruct (pc (proxy_of s' d)); try reflexivity. rewrite Hw'. reflexivity.
Qed.

(** Both directions end at EOF: the first report is received, the second
    direction stays at its send. *)
Lemma session_reports_once_witness :
  let acts :=
    [Io Inbound (ARead [] (Some EOF)); Io Outbound (ARead [] (Some EOF));
     Report Outbound] in
  waiting Sample.logged_session = true /\
  r_closes Sample.logged_session = 0%nat /\
  t_closes Sample.logged_session = 0%nat /\
  exists s tr,
    srun Sample.logged_session acts = Some (s, tr) /\
    done_sends tr = [ConnT] /\ r_closes s = 1%nat /\ t_closes s = 1%nat /\
    pc (p_in s) = AtDone ConnR false /\ sstep s (Report Inbound) = None.
Proof.
  intros acts. split; [reflexivity|]. split; [reflexivity|].
  split; [reflexivity|].
  destruct (srun Sample.logged_session acts) as [[s tr]|] eqn:E;
    [|vm_compute in E; discriminate E].
  destruct (session_reports_once Sample.logged_session acts s tr
              eq_refl eq_refl eq_refl E) as (_ & H2 & H3 & _ & H5).
  assert (Hs : done_sends tr = [ConnT] /\ pc (p_in s) = AtDone ConnR false /\
               waiting s = false).
  { vm_compute in E. inversion E; subst. repeat split; reflexivity. }
  destruct Hs as (Hd & Hp & Hw). rewrite Hd in H2, H3.
  exists s, tr. split; [reflexivity|]. split; [exact Hd|].
  split; [exact H2|]. split; [exact H3|]. split; [exact Hp|].
  exact (H5 Hw Inbound).
Defined.

(** ** Sessions without logging *)




Section NoLog.
Context `{NetText}.


End NoLog.


(** ** The channels closed under a sender *)

Section Crash.
Context `{NetText}.

(** X8 (send on a closed channel).  Every session with logging on and a
    buffer of at least one byte can end the whole process: the inbound
    direction has read a byte and is about to send the packet, the other
    direction reports an EOF, handleConn returns and closes the two log
    channels, and the send of the packet finds its channel closed. *)
Theorem closing_the_channels_can_crash (r : TCPConn) (buflen : Z)
    (banner : string) (logdir : string) (disk0 : disk) (env : henv)
    (tr0 : list event) (s0 : session) (b : byte) :
  1 <= buflen ->
  handleConn r buflen banner (Some logdir) disk0 env = (tr0, HWaiting s0) ->
  exists s tr,
    srun s0
      [Io Inbound (ARead [b] None); Io Outbound (ARead [] (Some EOF));
       Report Outbound; SendClosed Inbound] = Some (s, tr) /\
    done_sends tr = [ConnT] /\
    r_closes s = 1%nat /\ t_closes s = 1%nat /\
    process s = Panic ["send on closed channel"].
Proof.
  intros Hb Hh.
  destruct (handleConn_starts _ _ _ _ _ _ _ _ Hh) as (ta & c1 & c2 & _ & ->).
  unfold proxy_start.
  destruct (buflen <? 0) eqn:E; [apply Z.ltb_lt in E; lia|]. clear E.
  set (B := repeat x00 (Z.to_nat buflen)).
  assert (HB : (len [b] <=? len B) = true).
  { apply Z.leb_le. subst B. unfold len. rewrite repeat_length. simpl. lia. }
  assert (HB1 : (len (@nil byte) <=? len B) = true).
  { apply Z.leb_le. unfold len. simpl. lia. }
  cbn [option_map].
  unfold srun, sstep, alive, pstep.
  cbn [negb process pc p_in p_out proxy_of buf].
  rewrite HB.
  cbn [on_read with_proxy proxy_of p_in p_out pc set_pc logc process negb
       buf src].
  rewrite HB1. cbn.
  eexists _, _. split; [reflexivity|]. repeat split; reflexivity.
Qed.

End Crash.

Lemma closing_the_channels_can_crash_witness :
  1 <= 4 /\
  Sample.logged = (fst Sample.logged, HWaiting Sample.logged_session) /\
  exists s tr,
    srun Sample.logged_session
      [Io Inbound (ARead [x68] None); Io Outbound (ARead [] (Some EOF));
       Report Outbound; SendClosed Inbound] = Some (s, tr) /\
    process s = Panic ["send on closed channel"].
Proof.
  split; [lia|]. split; [reflexivity|].
  destruct (@closing_the_channels_can_crash Sample.text Sample.client 4 ""
              "owm" ∅ Sample.quiet (fst Sample.logged) Sample.logged_session
              x68 ltac:(lia) eq_refl) as (s & tr & Hrun & _ & _ & _ & Hp).
  exists s, tr. split; [exact Hrun|exact Hp].
Defined.

(** ** The paths of handleConn *)

Lemma count_close_app h a b :
  count_close h (a ++ b) = (count_close h a + count_close h b)%nat.
Proof.
  induction a as [|e a IH]; simpl; [reflexivity|].
  destruct e; simpl; rewrite ?IH; lia.
Qed.

Lemma count_close_writes h p ws :
  count_close h (map (EvWrite ConnR p) ws) = 0%nat.
Proof. induction ws as [|w ws IH]; simpl; [reflexivity|exact IH]. Qed.

Lemma before_dial_app_writes p ws tl :
  before_dial (map (EvWrite ConnR p) ws ++ tl) =
  map (EvWrite ConnR p) ws ++ before_dial tl.
Proof. induction ws as [|w ws IH]; simpl; [reflexivity|]. rewrite IH. reflexivity. Qed.

(** The banner loop writes the whole banner once per answer it uses, uses
    the answers in order, and stops at the first error. *)
Lemma banner_loop_shape banner l ws : forall s evs res,
  banner_loop banner l s ws = (evs, res) ->
  exists used,
    evs = map (EvWrite ConnR (bytes banner)) used /\
    match res with
    | Some (None, rest) => ws = used ++ rest /\ Forall clean used
    | Some (Some err, rest) =>
        exists pre w, used = pre ++ [w] /\ ws = used ++ rest /\
                      Forall clean pre /\ w_err w = Some err
    | None => ws = used /\ Forall clean used
    end.
Proof.
  induction ws as [|w ws IH]; intros s evs res; simpl.
  - destruct (s <? l); intros E; inversion E; subst; exists [];
      repeat split; constructor.
  - destruct (s <? l).
    + destruct (w_err w) as [err|] eqn:Ew.
      * intros E. inversion E; subst. exists [w]. split; [reflexivity|].
        exists [], w. repeat split; try assumption. constructor.
      * destruct (banner_loop banner l (add_int s (w_n w)) ws) as [evs1 res1]
          eqn:Eb.
        intros E. inversion E; subst.
        destruct (IH _ _ _ Eb) as (used & -> & Hres).
        exists (w :: used). split; [reflexivity|].
        destruct res as [[[err|] rest]|].
        -- destruct Hres as (pre & w' & -> & -> & Hpre & Hw').
           exists (w :: pre), w'. repeat split; try assumption.
           constructor; assumption.
        -- destruct Hres as [-> Hu]. split; [reflexivity|].
           constructor; assumption.
        -- destruct Hres as [-> Hu]. split; [reflexivity|].
           constructor; assumption.
    + intros E. inversion E; subst. exists []. split; [reflexivity|].
      split; [reflexivity|constructor].
Qed.

Lemma ends_base {A} (x : A) : exists before, [x] = before ++ [x].
Proof. exists []. reflexivity. Qed.

Lemma ends_cons {A} (e x : A) l :
  (exists before, l = before ++ [x]) -> exists before, e :: l = before ++ [x].
Proof. intros [b ->]. exists (e :: b). reflexivity. Qed.

Lemma ends_app {A} (x : A) a l :
  (exists before, l = before ++ [x]) -> exists before, a ++ l = before ++ [x].
Proof. intros [b ->]. exists (a ++ b). apply List.app_assoc. Qed.

Ltac ends_with :=
  repeat first [apply ends_base | apply ends_app | apply ends_cons].

Section Paths.
Context `{NetText}.

(** X9 (closing r).  On every path on which handleConn returns before it
    has started its proxies, the accepted connection is closed exactly once,
    last of all, and nothing else is closed; as long as handleConn has not
    returned it has closed nothing. *)
Theorem handleConn_closes_the_connection_on_return (r : TCPConn)
    (buflen : Z) (banner : string) (logdir : option string) (disk0 : disk)
    (env : henv) :
  let res := handleConn r buflen banner logdir disk0 env in
  count_close ConnT (fst res) = 0%nat /\
  match snd res with
  | HReturned =>
      count_close ConnR (fst res) = 1%nat /\
      exists before, fst res = before ++ [EvClose ConnR]
  | _ => count_close ConnR (fst res) = 0%nat
  end.
Proof.
  intros res. subst res. unfold handleConn.
  destruct (if 0 <? slen banner
            then banner_loop banner (slen banner) 0 (r_writes env)
            else ([], Some (None, r_writes env))) as [ev1 sent] eqn:EB.
  assert (HB : exists used, ev1 = map (EvWrite ConnR (bytes banner)) used).
  { destruct (0 <? slen banner).
    - destruct (banner_loop_shape _ _ _ _ _ _ EB) as (used & -> & _). eauto.
    - inversion EB; subst. exists []. reflexivity. }
  destruct HB as [used ->]. clear EB.
  assert (C0 : forall h, count_close h
                 (map (EvWrite ConnR (bytes banner)) used) = 0%nat)
    by (intros h; apply count_close_writes).
  destruct sent as [[[err|] ws]|]; cbn [fst snd].
  - rewrite !count_close_app, !C0. cbn. split; [reflexivity|].
    split; [reflexivity|]. ends_with.
  - destruct (build_target r) as [ta|ev2] eqn:Eb.
    + destruct (dial env) as [t|err]; cbn [fst snd].
      * rewrite !count_close_app, !C0. cbn. split; reflexivity.
      * destruct ws as [|w ws']; cbn [fst snd].
        -- rewrite !count_close_app, !C0. cbn. split; reflexivity.
        -- rewrite !count_close_app, !C0.
           destruct (w_err w) as [err'|]; cbn; (split; [reflexivity|]);
             (split; [reflexivity|]); ends_with.
    + cbn [fst snd]. rewrite !count_close_app, !C0.
      assert (E2 : forall h, count_close h ev2 = 0%nat).
      { intros h. unfold build_target in Eb.
        destruct (assert_TCPAddr (RemoteAddr r));
          [destruct (assert_TCPAddr (LocalAddr r))|];
          inversion Eb; reflexivity. }
      rewrite !E2. cbn. split; [reflexivity|]. split; [reflexivity|].
      ends_with.
  - rewrite !count_close_app, !C0. cbn. split; reflexivity.
Qed.

End Paths.

Lemma no_dial_in_writes p used ta :
  ~ In (EvDial ta) (map (EvWrite ConnR p) used).
Proof.
  induction used as [|w used IH]; simpl; [tauto|].
  intros [E|E]; [discriminate E|exact (IH E)].
Qed.

Section Dial.
Context `{NetText}.

(** X10 (banner before dial).  When handleConn dials, all it has done on the
    accepted connection before is to write the whole banner once per answer,
    each of these writes without error; with an empty banner it has written
    nothing. *)
Theorem handleConn_dials_after_the_banner (r : TCPConn) (buflen : Z)
    (banner : string) (logdir : option string) (disk0 : disk) (env : henv)
    (ta : TCPAddr) :
  let res := handleConn r buflen banner logdir disk0 env in
  In (EvDial ta) (fst res) ->
  exists used rest,
    r_writes env = used ++ rest /\ Forall clean used /\
    (banner = EmptyString -> used = []) /\
    before_dial (fst res) =
      EvLog ("Connection got: " +:+ Addr_String (RemoteAddr r) +:+ " -> " +:+
             Addr_String (LocalAddr r)) ::
      map (EvWrite ConnR (bytes banner)) used.
Proof.
  intros res. subst res. unfold handleConn.
  destruct (if 0 <? slen banner
            then banner_loop banner (slen banner) 0 (r_writes env)
            else ([], Some (None, r_writes env))) as [ev1 sent] eqn:EB.
  assert (HB : exists used,
             ev1 = map (EvWrite ConnR (bytes banner)) used /\
             (banner = EmptyString -> used = []) /\
             match sent with
             | Some (None, rest) => r_writes env = used ++ rest /\
                                    Forall clean used
             | _ => True
             end).
  { destruct (0 <? slen banner) eqn:E0.
    - destruct (banner_loop_shape _ _ _ _ _ _ EB) as (used & -> & Hres).
      exists used. split; [reflexivity|]. split.
      + intros ->. discriminate E0.
      + destruct sent as [[[err|] rest]|]; auto.
    - inversion EB; subst. exists []. repeat split. constructor. }
  destruct HB as (used & -> & Hempty & Hsent). clear EB.
  set (ev0 := EvLog ("Connection got: " +:+ Addr_String (RemoteAddr r) +:+
                     " -> " +:+ Addr_String (LocalAddr r))).
  assert (Hno : forall tl,
             In (EvDial ta)
               ([ev0] ++ map (EvWrite ConnR (bytes banner)) used ++ tl) ->
             In (EvDial ta) tl).
  { intros tl E. simpl in E. destruct E as [E|E]; [discriminate E|].
    apply in_app_or in E. destruct E as [E|E]; [|exact E].
    destruct (no_dial_in_writes _ _ _ E). }
  assert (Hbd : forall ta' tl,
             before_dial
               ([ev0] ++ map (EvWrite ConnR (bytes banner)) used ++
                EvDial ta' :: tl) =
             ev0 :: map (EvWrite ConnR (bytes banner)) used).
  { intros ta' tl. cbn [app before_dial]. unfold ev0 at 1. f_equal.
    rewrite before_dial_app_writes. cbn [before_dial]. apply app_nil_r. }
  destruct sent as [[[err|] ws]|]; cbn [fst snd].
  - intros E. apply Hno in E. simpl in E.
    destruct E as [E|[E|[]]]; discriminate E.
  - destruct Hsent as [Hw Hc].
    destruct (build_target r) as [ta'|ev2] eqn:Eb.
    + destruct (dial env) as [t|err]; cbn [fst snd].
      * intros _. exists used, ws. repeat split; try assumption.
        apply (Hbd ta').
      * destruct ws as [|w ws']; cbn [fst snd]; intros _;
          [exists used, [] | exists used, (w :: ws')];
          repeat split; try assumption.
        -- exact (Hbd ta' _).
        -- exact (Hbd ta' _).
    + cbn [fst snd]. intros E. apply Hno in E.
      apply in_app_or in E. destruct E as [E|[E|[]]]; [|discriminate E].
      unfold build_target in Eb.
      destruct (assert_TCPAddr (RemoteAddr r));
        [destruct (assert_TCPAddr (LocalAddr r))|];
        inversion Eb; subst; destruct E as [E|[]]; discriminate E.
  - cbn [fst snd]. intros E. simpl in E. destruct E as [E|E]; [discriminate E|].
    destruct (no_dial_in_writes _ _ _ E).
Qed.

(** X11 (failed dial).  When the dial fails no proxy is started; the failure
    is logged with the target; and if handleConn returns, it has written the
    client one line that names the target. *)
Theorem handleConn_reports_a_failed_dial (r : TCPConn) (buflen : Z)
    (banner : string) (logdir : option string) (disk0 : disk) (env : henv)
    (err : error) (ta : TCPAddr) :
  let res := handleConn r buflen banner logdir disk0 env in
  let e := "Unable to connect back to " +:+ TCPAddr_String ta in
  dial env = inr err ->
  In (EvDial ta) (fst res) ->
  (forall s, snd res <> HWaiting s) /\
  In (EvLog (e +:+ ": " +:+ Error err)) (fst res) /\
  (snd res = HReturned ->
   exists w, In (EvWrite ConnR (bytes (e +:+ NL)) w) (fst res)).
Proof.
  intros res e Hd. subst res. unfold handleConn. rewrite Hd.
  destruct (if 0 <? slen banner
            then banner_loop banner (slen banner) 0 (r_writes env)
            else ([], Some (None, r_writes env))) as [ev1 sent] eqn:EB.
  assert (HB : exists used, ev1 = map (EvWrite ConnR (bytes banner)) used).
  { destruct (0 <? slen banner).
    - destruct (banner_loop_shape _ _ _ _ _ _ EB) as (used & -> & _). eauto.
    - inversion EB; subst. exists []. reflexivity. }
  destruct HB as [used ->]. clear EB.
  assert (Hno : forall (x : event) tl,
             In (EvDial ta)
               ([x] ++ map (EvWrite ConnR (bytes banner)) used ++ tl) ->
             x <> EvDial ta -> In (EvDial ta) tl).
  { intros x tl E Hx. simpl in E. destruct E as [E|E]; [congruence|].
    apply in_app_or in E. destruct E as [E|E]; [|exact E].
    destruct (no_dial_in_writes _ _ _ E). }
  destruct sent as [[[err0|] ws]|]; cbn [fst snd].
  - intros E. apply Hno in E; [|discriminate]. simpl in E.
    destruct E as [E|[E|[]]]; discriminate E.
  - destruct (build_target r) as [ta'|ev2] eqn:Eb.
    + destruct ws as [|w ws']; cbn [fst snd]; intros E;
        apply Hno in E; try discriminate;
        simpl in E; destruct E as [E|E]; try (inversion E; subst ta');
        try (destruct E as [E|E]; [discriminate E|]).
      * split; [discriminate|]. split; [|discriminate].
        simpl. right. apply in_or_app. right. right. left. reflexivity.
      * destruct E.
      * split; [discriminate|]. split.
        -- simpl. right. apply in_or_app. right. right. left. reflexivity.
        -- intros _. exists w. simpl. right. apply in_or_app. right.
           right. right. left. reflexivity.
      * exfalso. destruct E as [E|E]; [discriminate E|].
        destruct (w_err w); simpl in E;
          repeat (destruct E as [E|E]; [discriminate E|]); destruct E.
    + cbn [fst snd]. intros E. apply Hno in E; [|discriminate].
      apply in_app_or in E. destruct E as [E|[E|[]]]; [|discriminate E].
      unfold build_target in Eb.
      destruct (assert_TCPAddr (RemoteAddr r));
        [destruct (assert_TCPAddr (LocalAddr r))|];
        inversion Eb; subst; destruct E as [E|[]]; discriminate E.
  - cbn [fst snd]. intros E. simpl in E. destruct E as [E|E]; [discriminate E|].
    destruct (no_dial_in_writes _ _ _ E).
Qed.

End Dial.

(** A two-byte banner of which the first write takes one byte: the banner is
    offered whole a second time, then the dial follows. *)
Lemma handleConn_dials_after_the_banner_witness :
  let env := {| r_writes := [Sample.full 1; Sample.full 2; Sample.full 9];
                dial := inl Sample.back; now := "2014-04-28T10:00:00Z" |} in
  let res := @handleConn Sample.text Sample.client 4 "hi" None ∅ env in
  let ta := {| IP := [x0a; x00; x00; x01]; Port := 23 |} in
  In (EvDial ta) (fst res) /\
  exists used rest,
    r_writes env = used ++ rest /\ Forall clean used /\
    ("hi" = EmptyString -> used = []) /\
    before_dial (fst res) =
      EvLog ("Connection got: " +:+
             @Addr_String Sample.text (RemoteAddr Sample.client) +:+ " -> " +:+
             @Addr_String Sample.text (LocalAddr Sample.client)) ::
      map (EvWrite ConnR (bytes "hi")) used.
Proof.
  intros env res ta.
  assert (Hin : In (EvDial ta) (fst res)).
  { vm_compute. repeat first [left; reflexivity | right]. }
  split; [exact Hin|].
  exact (@handleConn_dials_after_the_banner Sample.text Sample.client 4 "hi"
           None ∅ env ta Hin).
Defined.

(** A refused dial after an empty banner: the client is told, the failure
    is logged, and no session starts. *)
Lemma handleConn_reports_a_failed_dial_witness :
  let err := OpError "dial tcp 10.0.0.1:23: connection refused" false in
  let env := {| r_writes := [Sample.full 40]; dial := inr err;
                now := "2014-04-28T10:00:00Z" |} in
  let res := @handleConn Sample.text Sample.client 4 "" None ∅ env in
  let ta := {| IP := [x0a; x00; x00; x01]; Port := 23 |} in
  let e := "Unable to connect back to " +:+ @TCPAddr_String Sample.text ta in
  dial env = inr err /\
  In (EvDial ta) (fst res) /\
  (forall s, snd res <> HWaiting s) /\
  In (EvLog (e +:+ ": " +:+ Error err)) (fst res) /\
  (snd res = HReturned ->
   exists w, In (EvWrite ConnR (bytes (e +:+ NL)) w) (fst res)).
Proof.
  intros err env res ta e.
  assert (Hin : In (EvDial ta) (fst res)).
  { vm_compute. repeat first [left; reflexivity | right]. }
  split; [reflexivity|]. split; [exact Hin|].
  exact (@handleConn_reports_a_failed_dial Sample.text Sample.client 4 ""
           None ∅ env err ta eq_refl Hin).
Defined.

(** ** The listeners and main *)

Lemma main_start_tallied disable4 disable6 listen4 listen6 d log :
  main_start disable4 disable6 listen4 listen6 = Live d log ->
  tallied d /\ fatal d = false /\ handled d = [] /\
  in_flight d Tcp4 = [] /\ in_flight d Tcp6 = [].
Proof.
  unfold main_start.
  destruct disable4, disable6, listen4, listen6; simpl;
    intros E; inversion E; subst; clear E;
    (split; [|repeat split; reflexivity]);
    (split; [reflexivity|]); (split; [reflexivity|]);
    (split; [intros []; reflexivity|]);
    (split; [discriminate|]); vm_compute; discriminate.
Qed.

(** What one move of the dispatcher is, read off [dstep]. *)
Lemma dstep_cases d a d' :
  dstep d a = Some d' ->
  fatal d = false /\
  match a with
  | Accept f (inl c) =>
      waiter d f = Accepting /\
      d' = with_waiter d f (Delivering c) (ch_closed d f)
  | Accept f (inr err) =>
      waiter d f = Accepting /\
      w4 d' = w4 (with_waiter d f Signalling true) /\
      w6 d' = w6 (with_waiter d f Signalling true) /\
      closed4 d' = closed4 (with_waiter d f Signalling true) /\
      closed6 d' = closed6 (with_waiter d f Signalling true) /\
      n d' = n d /\ i d' = i d /\ handled d' = handled d /\
      out d' = out d ++ ["Unable to accept connection: " +:+ Error err] /\
      fatal d' = false
  | Deliver f =>
      exists c, waiter d f = Delivering c /\
      w4 d' = w4 (with_waiter d f Accepting (ch_closed d f)) /\
      w6 d' = w6 (with_waiter d f Accepting (ch_closed d f)) /\
      closed4 d' = closed4 d /\ closed6 d' = closed6 d /\
      n d' = n d /\ i d' = i d /\ handled d' = handled d ++ [Some c] /\
      out d' = out d /\ fatal d' = false
  | RecvClosed f =>
      ch_closed d f = true /\
      w4 d' = w4 d /\ w6 d' = w6 d /\
      closed4 d' = closed4 d /\ closed6 d' = closed6 d /\
      n d' = n d /\ i d' = i d /\ handled d' = handled d ++ [None] /\
      out d' = out d /\ fatal d' = false
  | Death f =>
      waiter d f = Signalling /\ i d < n d /\
      w4 d' = w4 (with_waiter d f Finished (ch_closed d f)) /\
      w6 d' = w6 (with_waiter d f Finished (ch_closed d f)) /\
      closed4 d' = closed4 d /\ closed6 d' = closed6 d /\
      n d' = n d /\ i d' = add_int (i d) 1 /\ handled d' = handled d /\
      out d' = out d /\ fatal d' = false
  | AllDead =>
      n d <= i d /\
      w4 d' = w4 d /\ w6 d' = w6 d /\
      closed4 d' = closed4 d /\ closed6 d' = closed6 d /\
      n d' = n d /\ i d' = i d /\ handled d' = handled d /\
      out d' = out d ++ ["All listeners have terminated"] /\
      fatal d' = true
  end.
Proof.
  unfold dstep. destruct (fatal d) eqn:Ef; [discriminate|].
  intros E0. split; [reflexivity|]. revert E0.
  destruct a as [f [c|err]|f|f|f|].
  - destruct (waiter d f) eqn:Ew; try discriminate.
    intros E; inversion E; subst. split; reflexivity.
  - destruct (waiter d f) eqn:Ew; try discriminate.
    intros E; inversion E; subst; cbn; rewrite ?Ef.
    repeat split; reflexivity.
  - destruct (waiter d f) eqn:Ew; try discriminate.
    intros E; inversion E; subst; cbn; rewrite ?Ef. exists c.
    destruct f; repeat split; reflexivity.
  - destruct (ch_closed d f) eqn:Ec; try discriminate.
    intros E; inversion E; subst; cbn; rewrite ?Ef.
    repeat split; reflexivity.
  - destruct (waiter d f) eqn:Ew; try discriminate.
    destruct (i d <? n d) eqn:Ei; try discriminate.
    apply Z.ltb_lt in Ei.
    intros E; inversion E; subst; cbn; rewrite ?Ef.
    destruct f; repeat split; try reflexivity; exact Ei.
  - destruct (i d <? n d) eqn:Ei; try discriminate.
    apply Z.ltb_ge in Ei.
    intros E; inversion E; subst; cbn.
    repeat split; try reflexivity; exact Ei.
Qed.

Lemma add_int_1_small z : 0 <= z <= 2 -> add_int z 1 = z + 1.
Proof. intros Hz. unfold add_int. apply wrap_int_small. lia. Qed.

Lemma dstep_tallied d a d' :
  tallied d -> dstep d a = Some d' -> tallied d'.
Proof.
  intros (Tn & Ti & Tc & Tf & T1) Hs.
  pose proof (Tc Tcp4) as Tc4. pose proof (Tc Tcp6) as Tc6.
  apply dstep_cases in Hs. destruct Hs as [Hf Hs].
  destruct d as [a4 a6 c4 c6 nn ii hh oo ff].
  destruct d' as [b4 b6 e4 e6 nn' ii' hh' oo' ff'].
  cbn in Tn, Ti, Tc4, Tc6, Tf, T1, Hf. clear Tc.
  unfold tallied; cbn [n i w4 w6 fatal].
  destruct a as [f [c|err]|f|f|f|]; cbn in Hs.
  - destruct Hs as [Hw E]. inversion E; subst; clear E.
    destruct f; cbn in Hw; subst; cbn in *;
      (split; [lia|]); (split; [lia|]);
      (split; [intros []; cbn; congruence|]);
      (split; [discriminate|lia]).
  - destruct Hs as (Hw & -> & -> & -> & -> & -> & -> & _ & _ & ->).
    destruct f; cbn in Hw; subst; cbn in *;
      (split; [lia|]); (split; [lia|]);
      (split; [intros []; cbn; congruence|]);
      (split; [discriminate|lia]).
  - destruct Hs as (c & Hw & -> & -> & -> & -> & -> & -> & _ & _ & ->).
    destruct f; cbn in Hw; subst; cbn in *;
      (split; [lia|]); (split; [lia|]);
      (split; [intros []; cbn; congruence|]);
      (split; [discriminate|lia]).
  - destruct Hs as (_ & -> & -> & -> & -> & -> & -> & _ & _ & ->).
    subst; cbn in *;
      (split; [lia|]); (split; [lia|]);
      (split; [intros []; cbn; congruence|]);
      (split; [discriminate|lia]).
  - destruct Hs as (Hw & Hlt & -> & -> & -> & -> & -> & -> & _ & _ & ->).
    assert (Hi : 0 <= ii <= 2)
      by (subst ii; destruct (is_finished a4), (is_finished a6); cbn; lia).
    rewrite (add_int_1_small _ Hi).
    destruct f; cbn in Hw; subst; cbn in *;
      (split; [lia|]); (split; [cbn; lia|]);
      (split; [intros []; cbn; congruence|]);
      (split; [discriminate|lia]).
  - destruct Hs as (Hle & -> & -> & -> & -> & -> & -> & _ & _ & ->).
    assert (Hi : ii <= nn).
    { subst ii nn. destruct a4, a6; cbn; lia. }
    subst; cbn in *;
      (split; [lia|]); (split; [lia|]);
      (split; [intros []; cbn; congruence|]);
      (split; [intros _; lia|lia]).
Qed.

Lemma drun_tallied acts : forall d d',
  tallied d -> drun d acts = Some d' -> tallied d'.
Proof.
  induction acts as [|a rest IH]; intros d d' Ht; simpl.
  - intros E. inversion E; subst. exact Ht.
  - destruct (dstep d a) as [d1|] eqn:Es; [|discriminate].
    apply IH. exact (dstep_tallied _ _ _ Ht Es).
Qed.

Lemma drun_fatal_stops d acts d' :
  fatal d = true -> drun d acts = Some d' -> acts = [] /\ d' = d.
Proof.
  intros Hf. destruct acts as [|a rest]; simpl.
  - intros E. inversion E. split; reflexivity.
  - unfold dstep. rewrite Hf. discriminate.
Qed.

Lemma drun_fatal acts : forall d d',
  fatal d = false -> drun d acts = Some d' ->
  (fatal d' = true <-> In AllDead acts).
Proof.
  induction acts as [|a rest IH]; intros d d' Hf; simpl.
  - intros E. inversion E; subst. rewrite Hf. split; [discriminate|tauto].
  - destruct (dstep d a) as [d1|] eqn:Es; [|discriminate].
    intros Hr. pose proof (dstep_cases _ _ _ Es) as [_ Hc].
    destruct (fatal d1) eqn:Ef1.
    + destruct (drun_fatal_stops _ _ _ Ef1 Hr) as [-> ->].
      rewrite Ef1. split; [intros _; left|reflexivity].
      destruct a as [f [c|err]|f|f|f|]; try reflexivity; exfalso.
      * destruct Hc as [_ ->]. destruct d, f; cbn in *; congruence.
      * destruct Hc as (_ & _ & _ & _ & _ & _ & _ & _ & _ & E).
        congruence.
      * destruct Hc as (c & _ & _ & _ & _ & _ & _ & _ & _ & _ & E).
        congruence.
      * destruct Hc as (_ & _ & _ & _ & _ & _ & _ & _ & _ & E).
        congruence.
      * destruct Hc as (_ & _ & _ & _ & _ & _ & _ & _ & _ & _ & E).
        congruence.
    + rewrite (IH _ _ Ef1 Hr). split; [tauto|].
      intros [E|E]; [|exact E]. subst a.
      destruct Hc as (_ & _ & _ & _ & _ & _ & _ & _ & _ & E). congruence.
Qed.

Lemma tallied_all_dead d :
  tallied d ->
  (n d <= i d <-> forall f, waiter d f = NotStarted \/ waiter d f = Finished).
Proof.
  intros (Tn & Ti & _ & _ & _). rewrite Tn, Ti. split.
  - intros Hle f. destruct f; cbn; destruct (w4 d), (w6 d); cbn in Hle;
      try lia; auto.
  - intros Hall. destruct (Hall Tcp4) as [E4|E4], (Hall Tcp6) as [E6|E6];
      cbn in E4, E6; rewrite E4, E6; cbn; lia.
Qed.

(** X12 (end of main).  From the start of main on, along any moves of the
    listeners and of the select: the process has ended with "All listeners
    have terminated" exactly when waitDead got through, which needs the
    death of every listener that was started to have been received; and as
    long as one of them has not finished, that end is not possible. *)
Theorem main_ends_when_every_listener_is_dead
    (disable4 disable6 listen4 listen6 : bool) (d0 : dispatcher)
    (log : list string) (acts : list daction) (d : dispatcher) :
  main_start disable4 disable6 listen4 listen6 = Live d0 log ->
  drun d0 acts = Some d ->
  (fatal d = true <-> In AllDead acts) /\
  (fatal d = true ->
   forall f, waiter d f = NotStarted \/ waiter d f = Finished) /\
  ((exists d', dstep d AllDead = Some d') <->
   fatal d = false /\
   forall f, waiter d f = NotStarted \/ waiter d f = Finished) /\
  exists f, waiter d f <> NotStarted.
Proof.
  intros Hm Hr.
  destruct (main_start_tallied _ _ _ _ _ _ Hm) as (Ht0 & Hf0 & _).
  pose proof (drun_tallied _ _ _ Ht0 Hr) as Ht.
  pose proof (tallied_all_dead _ Ht) as Hall.
  split; [exact (drun_fatal _ _ _ Hf0 Hr)|].
  split; [|split].
  - intros Hf. apply Hall. destruct Ht as (_ & _ & _ & Tf & _).
    rewrite (Tf Hf). lia.
  - rewrite <- Hall. unfold dstep. destruct (fatal d).
    + split; [intros [d' E]; discriminate E|intros [E _]; discriminate E].
    + destruct (i d <? n d) eqn:Ei.
      * apply Z.ltb_lt in Ei.
        split; [intros [d' E]; discriminate E|intros [_ E]; lia].
      * apply Z.ltb_ge in Ei. split; [intros _; split; [reflexivity|lia]|].
        intros _. eexists. reflexivity.
  - destruct Ht as (Tn & _ & _ & _ & T1). rewrite Tn in T1.
    destruct (w4 d) eqn:E4; [|exists Tcp4; cbn; congruence..].
    destruct (w6 d) eqn:E6; [|exists Tcp6; cbn; congruence..].
    cbn in T1. lia.
Qed.

Lemma main_ends_when_every_listener_is_dead_witness :
  let refused := OpError "accept tcp 0.0.0.0:23: too many open files" true in
  let acts := [Accept Tcp4 (inr refused); Death Tcp4;
               Accept Tcp6 (inr refused); Death Tcp6; AllDead] in
  exists d,
    main_start false false true true = Live both_listening [] /\
    drun both_listening acts = Some d /\
    (fatal d = true <-> In AllDead acts) /\
    (fatal d = true ->
     forall f, waiter d f = NotStarted \/ waiter d f = Finished) /\
    ((exists d', dstep d AllDead = Some d') <->
     fatal d = false /\
     forall f, waiter d f = NotStarted \/ waiter d f = Finished) /\
    exists f, waiter d f <> NotStarted.
Proof.
  intros refused acts.
  destruct (drun both_listening acts) as [d|] eqn:E;
    [|vm_compute in E; discriminate E].
  exists d. split; [reflexivity|]. split; [reflexivity|].
  exact (main_ends_when_every_listener_is_dead false false true true
           both_listening [] acts d eq_refl E).
Defined.

Lemma conns_app hs hs' : conns (hs ++ hs') = conns hs ++ conns hs'.
Proof. unfold conns. apply omap_app. Qed.

Lemma nils_app hs hs' : nils (hs ++ hs') = (nils hs + nils hs')%nat.
Proof. unfold nils. rewrite filter_app. apply length_app. Qed.

Lemma in_flight_with_waiter d f w cl f' :
  in_flight (with_waiter d f w cl) f' =
  match f, f' with
  | Tcp4, Tcp4 | Tcp6, Tcp6 =>
      match w with Delivering c => [c] | _ => [] end
  | _, _ => in_flight d f'
  end.
Proof. destruct f, f'; reflexivity. Qed.

Lemma in_flight_eq d d' :
  w4 d' = w4 d -> w6 d' = w6 d -> forall f, in_flight d' f = in_flight d f.
Proof. intros E4 E6 [|]; unfold in_flight; cbn; rewrite ?E4, ?E6; reflexivity. Qed.

(** What one move does to the connections that are on their way. *)
Lemma dstep_conserves d a d' :
  dstep d a = Some d' ->
  conns (handled d') ++ in_flight d' Tcp4 ++ in_flight d' Tcp6 ≡ₚ
    (conns (handled d) ++ in_flight d Tcp4 ++ in_flight d Tcp6) ++
    accepts [a] /\
  nils (handled d') = (nils (handled d) + nil_receptions [a])%nat.
Proof.
  intros Hs. apply dstep_cases in Hs. destruct Hs as [_ Hs].
  destruct a as [f [c|err]|f|f|f|]; cbn [accepts nil_receptions].
  - destruct Hs as [Hw ->]. cbn [handled with_waiter].
    rewrite !in_flight_with_waiter.
    assert (Hf : in_flight d f = []) by (unfold in_flight; rewrite Hw; reflexivity).
    split; [|lia].
    destruct f; rewrite Hf; cbn [app]; rewrite ?app_nil_r.
    + rewrite (Permutation_app_comm [c] (in_flight d Tcp6)).
      rewrite List.app_assoc. reflexivity.
    + rewrite List.app_assoc. reflexivity.
  - destruct Hs as (Hw & E4 & E6 & _ & _ & _ & _ & -> & _).
    assert (Hf : in_flight d f = []) by (unfold in_flight; rewrite Hw; reflexivity).
    assert (Hfl : forall f', in_flight d' f' = in_flight d f').
    { intros f'. unfold in_flight at 1. destruct f'; cbn [waiter];
        rewrite ?E4, ?E6; destruct f; cbn; try reflexivity;
        symmetry; exact Hf. }
    rewrite !Hfl, app_nil_r. split; [reflexivity|lia].
  - destruct Hs as (c & Hw & E4 & E6 & _ & _ & _ & _ & -> & _).
    assert (Hf : in_flight d f = [c]) by (unfold in_flight; rewrite Hw; reflexivity).
    assert (Hf' : in_flight d' f = []).
    { unfold in_flight. destruct f; cbn [waiter]; rewrite ?E4, ?E6;
        reflexivity. }
    assert (Ho : forall f', f' <> f -> in_flight d' f' = in_flight d f').
    { intros f' Hne. unfold in_flight.
      destruct f, f'; try congruence; cbn [waiter]; rewrite ?E4, ?E6;
        reflexivity. }
    rewrite conns_app, nils_app, app_nil_r.
    change (conns [Some c]) with [c].
    split; [|unfold nils; cbn; rewrite decide_False by discriminate; cbn; lia].
    destruct f.
    + rewrite Hf', (Ho Tcp6) by discriminate. rewrite Hf.
      rewrite <- List.app_assoc. reflexivity.
    + rewrite Hf', (Ho Tcp4) by discriminate. rewrite Hf.
      rewrite app_nil_r, <- List.app_assoc.
      apply Permutation_app_head, Permutation_app_comm.
  - destruct Hs as (_ & E4 & E6 & _ & _ & _ & _ & -> & _).
    rewrite conns_app, nils_app, app_nil_r, !(in_flight_eq _ _ E4 E6).
    cbn [conns omap app]. rewrite app_nil_r.
    split; [reflexivity|].
    unfold nils. cbn. rewrite decide_True by reflexivity. reflexivity.
  - destruct Hs as (Hw & _ & E4 & E6 & _ & _ & _ & _ & -> & _).
    assert (Hf : in_flight d f = []) by (unfold in_flight; rewrite Hw; reflexivity).
    assert (Hfl : forall f', in_flight d' f' = in_flight d f').
    { intros f'. unfold in_flight at 1. destruct f'; cbn [waiter];
        rewrite ?E4, ?E6; destruct f; cbn; try reflexivity;
        symmetry; exact Hf. }
    rewrite !Hfl, app_nil_r. split; [reflexivity|lia].
  - destruct Hs as (_ & E4 & E6 & _ & _ & _ & _ & -> & _).
    rewrite !(in_flight_eq _ _ E4 E6), app_nil_r. split; [reflexivity|lia].
Qed.

Lemma accepts_cons a acts : accepts (a :: acts) = accepts [a] ++ accepts acts.
Proof. destruct a as [f [c|err]|f|f|f|]; reflexivity. Qed.

Lemma nil_receptions_cons a acts :
  nil_receptions (a :: acts) =
  (nil_receptions [a] + nil_receptions acts)%nat.
Proof. destruct a as [f [c|err]|f|f|f|]; reflexivity. Qed.

Lemma drun_conserves acts : forall d d',
  drun d acts = Some d' ->
  conns (handled d') ++ in_flight d' Tcp4 ++ in_flight d' Tcp6 ≡ₚ
    (conns (handled d) ++ in_flight d Tcp4 ++ in_flight d Tcp6) ++
    accepts acts /\
  nils (handled d') = (nils (handled d) + nil_receptions acts)%nat.
Proof.
  induction acts as [|a rest IH]; intros d d'; simpl drun.
  - intros E. inversion E; subst. cbn. rewrite app_nil_r.
    split; [reflexivity|lia].
  - destruct (dstep d a) as [d1|] eqn:Es; [|discriminate].
    intros Hr. destruct (IH _ _ Hr) as [P N].
    destruct (dstep_conserves _ _ _ Es) as [P1 N1].
    rewrite accepts_cons, nil_receptions_cons. split.
    + rewrite P, P1, <- List.app_assoc. reflexivity.
    + lia.
Qed.

(** X13 (every connection once).  From the start of main on: the
    connections handleConn was started on, together with the at most two
    that a waitConn goroutine is about to hand over, are the connections
    AcceptTCP returned, each as often as it was returned; and handleConn was
    started on nil once for every reception from a closed channel. *)
Theorem every_accepted_connection_is_handled_once
    (disable4 disable6 listen4 listen6 : bool) (d0 : dispatcher)
    (log : list string) (acts : list daction) (d : dispatcher) :
  main_start disable4 disable6 listen4 listen6 = Live d0 log ->
  drun d0 acts = Some d ->
  conns (handled d) ++ in_flight d Tcp4 ++ in_flight d Tcp6 ≡ₚ accepts acts /\
  nils (handled d) = nil_receptions acts /\
  (length (in_flight d Tcp4 ++ in_flight d Tcp6) <= 2)%nat.
Proof.
  intros Hm Hr.
  destruct (main_start_tallied _ _ _ _ _ _ Hm) as (_ & _ & Hh & H4 & H6).
  destruct (drun_conserves _ _ _ Hr) as [P N].
  rewrite Hh, H4, H6 in P. rewrite Hh in N. cbn in P, N.
  split; [exact P|]. split; [exact N|].
  unfold in_flight. destruct (waiter d Tcp4), (waiter d Tcp6); cbn; lia.
Qed.

Lemma every_accepted_connection_is_handled_once_witness :
  let refused := OpError "accept tcp [::]:23: too many open files" true in
  let acts := [Accept Tcp4 (inl Sample.client); Accept Tcp6 (inl Sample.back);
               Deliver Tcp6; Accept Tcp6 (inr refused); RecvClosed Tcp6;
               Deliver Tcp4; Accept Tcp4 (inl Sample.client)] in
  exists d,
    main_start false false true true = Live both_listening [] /\
    drun both_listening acts = Some d /\
    conns (handled d) ++ in_flight d Tcp4 ++ in_flight d Tcp6 ≡ₚ
      accepts acts /\
    nils (handled d) = nil_receptions acts /\
    (length (in_flight d Tcp4 ++ in_flight d Tcp6) <= 2)%nat.
Proof.
  intros refused acts.
  destruct (drun both_listening acts) as [d|] eqn:E;
    [|vm_compute in E; discriminate E].
  exists d. split; [reflexivity|]. split; [reflexivity|].
  exact (every_accepted_connection_is_handled_once false false true true
           both_listening [] acts d eq_refl E).
Defined.

Lemma dstep_dead_stays d a d' f :
  dstep d a = Some d' ->
  is_dead (waiter d f) = true \/ (exists err, a = Accept f (inr err)) ->
  is_dead (waiter d' f) = true.
Proof.
  intros Hs Hd. apply dstep_cases in Hs. destruct Hs as [_ Hs].
  destruct d as [a4 a6 c4 c6 nn ii hh oo ff].
  destruct d' as [b4 b6 e4 e6 nn' ii' hh' oo' ff'].
  destruct a as [g [c|err]|g|g|g|]; cbn in Hs.
  - destruct Hs as [Hw E]. inversion E; subst; clear E.
    destruct Hd as [Hd|[err E]]; [|discriminate E].
    destruct g, f; cbn in *; subst; try discriminate; exact Hd.
  - destruct Hs as (Hw & -> & -> & _).
    destruct Hd as [Hd|[err' E]].
    + destruct g, f; cbn in *; subst; try discriminate; try reflexivity;
        exact Hd.
    + inversion E; subst. destruct f; reflexivity.
  - destruct Hs as (c & Hw & -> & -> & _).
    destruct Hd as [Hd|[err E]]; [|discriminate E].
    destruct g, f; cbn in *; subst; try discriminate; exact Hd.
  - destruct Hs as (_ & -> & -> & _).
    destruct Hd as [Hd|[err E]]; [|discriminate E]. exact Hd.
  - destruct Hs as (Hw & _ & -> & -> & _).
    destruct Hd as [Hd|[err E]]; [|discriminate E].
    destruct g, f; cbn in *; subst; try reflexivity; exact Hd.
  - destruct Hs as (_ & -> & -> & _).
    destruct Hd as [Hd|[err E]]; [|discriminate E]. exact Hd.
Qed.

Lemma drun_dead_stays acts : forall d d' f,
  drun d acts = Some d' ->
  is_dead (waiter d f) = true \/ (exists err, In (Accept f (inr err)) acts) ->
  is_dead (waiter d' f) = true.
Proof.
  induction acts as [|a rest IH]; intros d d' f; simpl drun.
  - intros E. inversion E; subst. intros [Hd|[err []]]. exact Hd.
  - destruct (dstep d a) as [d1|] eqn:Es; [|discriminate].
    intros Hr Hd. apply (IH _ _ _ Hr).
    destruct Hd as [Hd|[err [E|Hin]]].
    + left. apply (dstep_dead_stays _ _ _ _ Es). left. exact Hd.
    + left. apply (dstep_dead_stays _ _ _ _ Es). right. eauto.
    + right. eauto.
Qed.

Lemma recv_closed_again k : forall d f,
  ch_closed d f = true -> fatal d = false ->
  exists d',
    drun d (repeat (RecvClosed f) k) = Some d' /\
    handled d' = handled d ++ repeat None k /\
    w4 d' = w4 d /\ w6 d' = w6 d /\ out d' = out d /\ i d' = i d /\
    fatal d' = false.
Proof.
  induction k as [|k IH]; intros d f Hc Hf; cbn [repeat drun].
  - exists d. rewrite app_nil_r. repeat split; try reflexivity. exact Hf.
  - unfold dstep. rewrite Hf, Hc.
    match goal with |- context [drun ?x _] => set (d1 := x) end.
    destruct (IH d1 f) as (d' & Hr & Hh & E4 & E6 & Eo & Ei & Ef).
    + destruct f; exact Hc.
    + reflexivity.
    + exists d'. split; [exact Hr|]. rewrite Hh, E4, E6, Eo, Ei. cbn.
      rewrite <- List.app_assoc. repeat split; try reflexivity. exact Ef.
Qed.

(** X14 (nil handlers without end).  Once the accept of a listener has
    failed, and for as long as the process lives, the select of main can
    take the closed channel of that listener any number of times in a row:
    each time handleConn is started on a nil connection, nothing is logged,
    and waitDead is no further.  The listener itself accepts nothing any
    more. *)
Theorem failed_accept_feeds_nil_handlers
    (disable4 disable6 listen4 listen6 : bool) (d0 : dispatcher)
    (log : list string) (acts : list daction) (d : dispatcher) (f : family)
    (err : error) (k : nat) :
  main_start disable4 disable6 listen4 listen6 = Live d0 log ->
  drun d0 acts = Some d ->
  In (Accept f (inr err)) acts ->
  fatal d = false ->
  exists d',
    drun d (repeat (RecvClosed f) k) = Some d' /\
    handled d' = handled d ++ repeat None k /\
    out d' = out d /\ i d' = i d /\ fatal d' = false /\
    forall res, dstep d' (Accept f res) = None.
Proof.
  intros Hm Hr Hin Hf.
  destruct (main_start_tallied _ _ _ _ _ _ Hm) as (Ht0 & _).
  pose proof (drun_tallied _ _ _ Ht0 Hr) as (_ & _ & Tc & _).
  assert (Hd : is_dead (waiter d f) = true).
  { apply (drun_dead_stays _ _ _ _ Hr). right. eauto. }
  assert (Hc : ch_closed d f = true) by (rewrite Tc; exact Hd).
  destruct (recv_closed_again k d f Hc Hf)
    as (d' & Hk & Hh & E4 & E6 & Eo & Ei & Ef).
  exists d'. repeat split; try assumption.
  intros res. unfold dstep. rewrite Ef.
  assert (Hw : waiter d' f = waiter d f)
    by (destruct f; cbn; assumption).
  rewrite Hw. destruct (waiter d f); try discriminate Hd;
    destruct res; reflexivity.
Qed.

Lemma failed_accept_feeds_nil_handlers_witness :
  let refused := OpError "accept tcp 0.0.0.0:23: too many open files" true in
  let acts := [Accept Tcp6 (inl Sample.client); Accept Tcp4 (inr refused)] in
  exists d d',
    main_start false false true true = Live both_listening [] /\
    drun both_listening acts = Some d /\
    In (Accept Tcp4 (inr refused)) acts /\
    fatal d = false /\
    drun d (repeat (RecvClosed Tcp4) 3) = Some d' /\
    handled d' = handled d ++ repeat None 3 /\
    out d' = out d /\ i d' = i d /\ fatal d' = false /\
    forall res, dstep d' (Accept Tcp4 res) = None.
Proof.
  intros refused acts.
  destruct (drun both_listening acts) as [d|] eqn:E;
    [|vm_compute in E; discriminate E].
  assert (Hin : In (Accept Tcp4 (inr refused)) acts)
    by (right; left; reflexivity).
  assert (Hf : fatal d = false)
    by (vm_compute in E; inversion E; reflexivity).
  destruct (failed_accept_feeds_nil_handlers false false true true
              both_listening [] acts d Tcp4 refused 3 eq_refl E Hin Hf)
    as (d' & H).
  exists d, d'. split; [reflexivity|]. split; [reflexivity|].
  split; [exact Hin|]. split; [exact Hf|]. exact H.
Defined.

(** ** The start of main *)

(** X15 (listeners at the start).  Whatever the flags and the answers of the
    system: main never gets to "Unaable to create any listeners", for when
    no listener was asked for it has ended before, and a listener that
    cannot be made ends the process inside listener; and listener is called
    on "tcp4" and "tcp6" only, so that it does not panic. *)
Theorem main_never_lacks_listeners (fl : flags) (mkdir : option error)
    (a4 a6 : bind_answer) :
  ~ In "Unaable to create any listeners" (log_of (main fl mkdir a4 a6)) /\
  (forall log, main fl mkdir a4 a6 <> Panic log) /\
  (forall t, t <> "tcp4" -> t <> "tcp6" ->
             exists log, listener t (f_addr fl) a4 = Panic log).
Proof.
  split; [|split].
  - unfold main, listener.
    destruct (f_nolog fl), (f_no4 fl), (f_no6 fl), mkdir as [e|],
      a4 as [e4|ta4 e4|l4], a6 as [e6|ta6 e6|l6];
      cbn; intros E;
      repeat (destruct E as [E|E]; [discriminate E|]); exact E.
  - unfold main, listener.
    destruct (f_nolog fl), (f_no4 fl), (f_no6 fl), mkdir as [e|],
      a4 as [e4|ta4 e4|l4], a6 as [e6|ta6 e6|l6];
      cbn; discriminate.
  - intros t H4 H6. unfold listener.
    destruct (String.eqb_spec t "tcp4") as [E|_]; [destruct (H4 E)|].
    destruct (String.eqb_spec t "tcp6") as [E|_]; [destruct (H6 E)|].
    cbn. eauto.
Qed.

(** X16 (what main sets up).  main enters its loop exactly when the log
    directory could be made (or logging is off), not both families are
    disabled, and every family that is not disabled got its listener.  It
    has then logged one line for each listener, the IPv4 one first; the
    dispatcher is the one of [main_start]; and the handlers get the buffer
    length of the flag, the banner with a newline appended unless it is
    empty, and a log directory unless logging is off. *)
Theorem main_serves (fl : flags) (mkdir : option error)
    (a4 a6 : bind_answer) :
  let ok :=
    (f_nolog fl || bool_decide (mkdir = None)) &&
    negb (f_no4 fl && f_no6 fl) &&
    (f_no4 fl || is_bound a4) && (f_no6 fl || is_bound a6) in
  (ok = true <-> exists sv log, main fl mkdir a4 a6 = Live sv log) /\
  forall sv log,
    main fl mkdir a4 a6 = Live sv log ->
    log = listening_line (f_no4 fl) a4 ++ listening_line (f_no6 fl) a6 /\
    main_start (f_no4 fl) (f_no6 fl) (is_bound a4) (is_bound a6) =
      Live (s_disp sv) [] /\
    s_buflen sv = f_buflen fl /\
    s_banner sv = main_banner (f_banner fl) /\
    s_logdir sv = (if f_nolog fl then None else Some (f_logdir fl)).
Proof.
  unfold main, listener, main_start, main_banner.
  destruct (f_nolog fl), (f_no4 fl), (f_no6 fl), mkdir as [e|],
    a4 as [e4|ta4 e4|l4], a6 as [e6|ta6 e6|l6];
    cbn; (split; [split; [try discriminate; intros _; eauto
                         |try (intros _; reflexivity);
                          intros (sv & log & E); discriminate E]|]);
    intros sv log E; try discriminate E;
    inversion E; subst; clear E; repeat split; reflexivity.
Qed.

(** ** The logger after a failed write *)

Lemma File_Close_closed f : closed f = true -> File_Close f = f.
Proof. destruct f as [nm c]. cbn. intros ->. reflexivity. Qed.

(** On a closed file both writes of logPacket fail without touching the
    disk, and both failures are logged. *)
Lemma logPacket_shut (fs : disk) f p d t a1 a2 fs' f' log :
  closed f = true ->
  logPacket fs (Some f) p d t a1 a2 = Live (fs', f') log ->
  fs' = fs /\ f' = Some f /\ length log = 2%nat.
Proof.
  intros Hc. unfold logPacket, File_Write.
  rewrite Hc. cbn [w_err]. rewrite (File_Close_closed _ Hc), Hc.
  destruct (slice (pkt_data p) 0 (pkt_length p)); [|discriminate].
  cbn [w_err]. rewrite (File_Close_closed _ Hc).
  intros E. inversion E; subst. repeat split.
Qed.

(** A write that fails closes the file, whichever of the two it is. *)
Lemma logPacket_failure (fs : disk) f p d t a1 a2 fs' f' log :
  a1 <> FullWrite \/ a2 <> FullWrite ->
  logPacket fs (Some f) p d t a1 a2 = Live (fs', f') log ->
  f' = Some (File_Close f) /\ log <> [].
Proof.
  intros Ha. unfold logPacket.
  destruct (closed f) eqn:Hc.
  - intros E. destruct (logPacket_shut _ _ _ _ _ _ _ _ _ _ Hc E)
      as (_ & -> & Hl).
    rewrite (File_Close_closed _ Hc). split; [reflexivity|].
    intros ->. discriminate Hl.
  - unfold File_Write at 1. rewrite Hc.
    destruct a1 as [|n1 e1]; cbn [w_err].
    + destruct (slice (pkt_data p) 0 (pkt_length p)); [|discriminate].
      unfold File_Write. rewrite Hc.
      destruct a2 as [|n2 e2]; [destruct Ha as [Ha|Ha]; destruct (Ha eq_refl)|].
      cbn [w_err]. intros E. inversion E; subst.
      split; [reflexivity|discriminate].
    + destruct (slice (pkt_data p) 0 (pkt_length p)); [|discriminate].
      unfold File_Write. cbn [closed File_Close w_err].
      intros E. inversion E; subst. split; [reflexivity|discriminate].
Qed.

Lemma lstep_shut (fs : disk) l f r fs1 l1 log1 :
  olog l = Some f -> closed f = true ->
  lstep fs l r = Some (Live (fs1, l1) log1) ->
  fs1 = fs /\ olog l1 = Some f /\ length log1 = (2 * packets [r])%nat.
Proof.
  intros Ho Hc. unfold lstep. destruct (exited l); [discriminate|].
  assert (Hh : forall ic oc,
             olog (loop_head {| olog := Some f; iclosed := ic; oclosed := oc;
                                exited := false |}) = Some f).
  { intros ic oc. unfold loop_head. cbn [iclosed oclosed].
    destruct (ic && oc); cbn [olog option_map];
      rewrite ?(File_Close_closed _ Hc); reflexivity. }
  destruct r as [d p t a1 a2|[|]].
  - destruct (chan_closed l d); [discriminate|]. rewrite Ho.
    destruct (logPacket fs (Some f) p
                match d with Inbound => true | Outbound => false end
                t a1 a2) as [[fs2 f2] lg| |] eqn:El; simpl; try discriminate.
    destruct (logPacket_shut _ _ _ _ _ _ _ _ _ _ Hc El) as (-> & -> & Hl).
    intros E. inversion E; subst. rewrite app_nil_r.
    split; [reflexivity|]. split; [apply Hh|exact Hl].
  - intros E. inversion E; subst. rewrite Ho.
    split; [reflexivity|]. split; [apply Hh|reflexivity].
  - intros E. inversion E; subst. rewrite Ho.
    split; [reflexivity|]. split; [apply Hh|reflexivity].
Qed.

Lemma lrun_shut script : forall (fs : disk) l f fs' l' log,
  olog l = Some f -> closed f = true ->
  lrun fs l script = Some (Live (fs', l') log) ->
  fs' = fs /\ olog l' = Some f /\ length log = (2 * packets script)%nat.
Proof.
  induction script as [|r rest IH]; intros fs l f fs' l' log Ho Hc; simpl lrun.
  - intros E. inversion E; subst. repeat split. exact Ho.
  - destruct (lstep fs l r) as [[[fs1 l1] log1| |]|] eqn:Es;
      try discriminate.
    destruct (lstep_shut _ _ _ _ _ _ _ Ho Hc Es) as (-> & Ho1 & Hl1).
    destruct (lrun fs l1 rest) as [[[fs2 l2] log2| |]|] eqn:Er;
      try discriminate.
    destruct (IH _ _ _ _ _ _ Ho1 Hc Er) as (-> & Ho2 & Hl2).
    intros E. inversion E; subst. split; [reflexivity|].
    split; [exact Ho2|].
    rewrite length_app, Hl1, Hl2. destruct r; cbn [packets]; lia.
Qed.

(** X17 (a failed write ends the log).  When one of the two writes of a
    packet fails, logPacket closes the file and logSession goes on with it:
    whatever it receives afterwards, the disk stays as that packet left it,
    and every later packet costs two log lines and nothing else. *)
Theorem failed_write_ends_the_replay_file (fs : disk) (l : logger) (f : File)
    (d : dir) (p : packet) (t : Time) (a1 a2 : fanswer) (fs1 : disk)
    (l1 : logger) (log1 : list string) (script : list received)
    (fs' : disk) (l' : logger) (log : list string) :
  olog l = Some f ->
  a1 <> FullWrite \/ a2 <> FullWrite ->
  lstep fs l (Got d p t a1 a2) = Some (Live (fs1, l1) log1) ->
  lrun fs1 l1 script = Some (Live (fs', l') log) ->
  log1 <> [] /\ fs' = fs1 /\ olog l' = Some (File_Close f) /\
  length log = (2 * packets script)%nat.
Proof.
  intros Ho Ha Hs Hr.
  assert (H1 : olog l1 = Some (File_Close f) /\ log1 <> []).
  { revert Hs. unfold lstep. destruct (exited l); [discriminate|].
    destruct (chan_closed l d); [discriminate|]. rewrite Ho.
    destruct (logPacket fs (Some f) p
                match d with Inbound => true | Outbound => false end
                t a1 a2) as [[fs2 f2] lg| |] eqn:El; simpl; try discriminate.
    destruct (logPacket_failure _ _ _ _ _ _ _ _ _ _ Ha El) as (-> & Hl).
    intros E. inversion E; subst. rewrite app_nil_r. split; [|exact Hl].
    unfold loop_head. cbn [iclosed oclosed].
    destruct (iclosed l && oclosed l); reflexivity. }
  destruct H1 as [Ho1 Hl1].
  destruct (lrun_shut _ _ _ _ _ _ _ Ho1 eq_refl Hr) as (E1 & E2 & E3).
  repeat split; assumption.
Qed.

Lemma failed_write_ends_the_replay_file_witness :
  let f := {| Name := "owm/x.owm"; closed := false |} in
  let l := {| olog := Some f; iclosed := false; oclosed := false;
              exited := false |} in
  let p := {| pkt_data := [x68; x69; x21]; pkt_length := 2 |} in
  let full := OtherError "*fs.PathError" "write owm/x.owm: no space left on device" None in
  let script := [Got Outbound p Sample.later FullWrite FullWrite;
                 Closed Inbound;
                 Got Outbound p Sample.later FullWrite FullWrite] in
  exists fs1 l1 log1 fs' l' log,
    olog l = Some f /\
    (ShortWrite 3 full <> FullWrite \/ FullWrite <> FullWrite) /\
    lstep ∅ l (Got Inbound p Sample.noon (ShortWrite 3 full) FullWrite) =
      Some (Live (fs1, l1) log1) /\
    lrun fs1 l1 script = Some (Live (fs', l') log) /\
    log1 <> [] /\ fs' = fs1 /\ olog l' = Some (File_Close f) /\
    length log = (2 * packets script)%nat.
Proof.
  intros f l p full script.
  assert (Ha : ShortWrite 3 full <> FullWrite \/ FullWrite <> FullWrite)
    by (left; discriminate).
  assert (E : exists fs1 l1 log1 fs' l' log,
             lstep ∅ l (Got Inbound p Sample.noon (ShortWrite 3 full)
                          FullWrite) = Some (Live (fs1, l1) log1) /\
             lrun fs1 l1 script = Some (Live (fs', l') log)).
  { do 6 eexists. split; reflexivity. }
  destruct E as (fs1 & l1 & log1 & fs' & l' & log & Es & Er).
  exists fs1, l1, log1, fs', l', log.
  split; [reflexivity|]. split; [exact Ha|]. split; [exact Es|].
  split; [exact Er|].
  exact (failed_write_ends_the_replay_file ∅ l f Inbound p Sample.noon
           (ShortWrite 3 full) FullWrite fs1 l1 log1 script fs' l' log
           eq_refl Ha Es Er).
Defined.

(** ** Two sessions on one file name *)

Lemma File_Write_keeps (fs : disk) f b a k :
  is_Some (fs !! k) -> is_Some (fst (File_Write fs f b a) !! k).
Proof.
  intros Hk. unfold File_Write. destruct (closed f); [exact Hk|].
  destruct a as [|n e]; cbn [fst];
    (destruct (decide (Name f = k)) as [->|Hne];
     [rewrite lookup_insert_eq; eauto
     |rewrite lookup_insert_ne by exact Hne; exact Hk]).
Qed.

Lemma logPacket_keeps (fs : disk) f p d t a1 a2 fs' f' log k :
  logPacket fs f p d t a1 a2 = Live (fs', f') log ->
  is_Some (fs !! k) -> is_Some (fs' !! k).
Proof.
  unfold logPacket. destruct f as [f|].
  - pose proof (File_Write_keeps fs f (bytes (metadata d t (pkt_length p)))
                  a1 k) as K1.
    destruct (File_Write fs f (bytes (metadata d t (pkt_length p))) a1)
      as [fs1 w1]. cbn [fst] in K1.
    destruct (slice (pkt_data p) 0 (pkt_length p)) as [payload|];
      [|destruct (w_err w1); discriminate].
    destruct (w_err w1) as [e1|].
    + pose proof (File_Write_keeps fs1 (File_Close f) payload a2 k) as K2.
      destruct (File_Write fs1 (File_Close f) payload a2) as [fs2 w2].
      cbn [fst] in K2.
      destruct (w_err w2); intros E; inversion E; subst; auto.
    + pose proof (File_Write_keeps fs1 f payload a2 k) as K2.
      destruct (File_Write fs1 f payload a2) as [fs2 w2].
      cbn [fst] in K2.
      destruct (w_err w2); intros E; inversion E; subst; auto.
  - intros E. inversion E; subst. auto.
Qed.

Lemma lstep_keeps (fs : disk) l r fs1 l1 log1 k :
  lstep fs l r = Some (Live (fs1, l1) log1) ->
  is_Some (fs !! k) -> is_Some (fs1 !! k).
Proof.
  unfold lstep. destruct (exited l); [discriminate|].
  destruct r as [d p t a1 a2|[|]].
  - destruct (chan_closed l d); [discriminate|].
    destruct (logPacket fs (olog l) p
                match d with Inbound => true | Outbound => false end
                t a1 a2) as [[fs2 f2] lg| |] eqn:El; simpl; try discriminate.
    intros E. inversion E; subst. exact (logPacket_keeps _ _ _ _ _ _ _ _ _ _ _ El).
  - intros E. inversion E; subst. auto.
  - intros E. inversion E; subst. auto.
Qed.

Lemma lrun_keeps script : forall (fs : disk) l fs' l' log k,
  lrun fs l script = Some (Live (fs', l') log) ->
  is_Some (fs !! k) -> is_Some (fs' !! k).
Proof.
  induction script as [|r rest IH]; intros fs l fs' l' log k; simpl lrun.
  - intros E. inversion E; subst. auto.
  - destruct (lstep fs l r) as [[[fs1 l1] log1| |]|] eqn:Es;
      try discriminate.
    destruct (lrun fs1 l1 rest) as [[[fs2 l2] log2| |]|] eqn:Er;
      try discriminate.
    intros E. inversion E; subst. intros Hk.
    apply (IH _ _ _ _ _ _ Er). exact (lstep_keeps _ _ _ _ _ _ _ Es Hk).
Qed.

(** X18 (one log per name).  After a logSession that got as far as opening
    its file, with or without success, a file of that name exists.  A later
    logSession with the same directory and prefix (the same peer address, at
    the same time stamp) cannot open it: it logs the failure and drops all
    its packets, and the disk stays as the first one left it. *)
Theorem same_name_is_logged_once (fs : disk) (dir prefix : string)
    (script1 script2 : list received) (fs1 : disk) (l1 : logger)
    (log1 : list string) (res : run (disk * logger)) :
  logSession fs None dir prefix script1 = Some (Live (fs1, l1) log1) ->
  logSession fs1 None dir prefix script2 = Some res ->
  is_Some (fs1 !! path_Join dir (prefix +:+ ".owm")) /\
  exists l,
    res = Live (fs1, l)
            ["Unable to open " +:+ (prefix +:+ ".owm") +:+ ": open " +:+
             path_Join dir (prefix +:+ ".owm") +:+ ": file exists"] /\
    olog l = None.
Proof.
  intros H1 H2.
  set (name := prefix +:+ ".owm") in *.
  assert (Hopen : forall (x : disk) c,
             x !! path_Join dir name = Some c ->
             openLogFile x None dir name =
               Live (x, None)
                 ["Unable to open " +:+ name +:+ ": open " +:+
                  path_Join dir name +:+ ": file exists"]).
  { intros x c Hx. unfold openLogFile, os_OpenFile. rewrite Hx. reflexivity. }
  assert (Hex : is_Some (fs1 !! path_Join dir name)).
  { revert H1. unfold logSession. fold name.
    destruct (fs !! path_Join dir name) as [c|] eqn:Ef.
    - rewrite (Hopen _ _ Ef).
      destruct (lrun fs (logger_start None) script1)
        as [[[fs2 l2] log2| |]|] eqn:Er; try discriminate.
      intros E. inversion E; subst.
      apply (lrun_keeps _ _ _ _ _ _ _ Er). rewrite Ef. eauto.
    - assert (Ho : openLogFile fs None dir name =
                   Live (<[path_Join dir name := []]> fs,
                         Some {| Name := path_Join dir name;
                                 closed := false |}) []).
      { unfold openLogFile, os_OpenFile. rewrite Ef. reflexivity. }
      rewrite Ho.
      match goal with |- context [lrun ?a ?b script1] =>
        destruct (lrun a b script1) as [[[fs2 l2] log2| |]|] eqn:Er;
          try discriminate
      end.
      intros E. inversion E; subst.
      apply (lrun_keeps _ _ _ _ _ _ _ Er). rewrite lookup_insert_eq. eauto. }
  split; [exact Hex|]. destruct Hex as [c Hc].
  revert H2. unfold logSession. fold name. rewrite (Hopen _ _ Hc).
  destruct (lrun fs1 (logger_start None) script2) as [y|] eqn:Er;
    [|discriminate].
  destruct (lrun_nil_file script2 fs1 (logger_start None) y eq_refl Er)
    as [l [-> Hl]].
  intros E. inversion E; subst. exists l. split; [reflexivity|exact Hl].
Qed.

Lemma same_name_is_logged_once_witness :
  let p := {| pkt_data := [x68; x69; x21]; pkt_length := 2 |} in
  let script1 := [Got Inbound p Sample.noon FullWrite FullWrite;
                  Closed Inbound; Closed Outbound] in
  let script2 := [Got Outbound p Sample.later FullWrite FullWrite] in
  exists fs1 l1 log1 res,
    logSession ∅ None "owm/10.0.0.1" "2014" script1 =
      Some (Live (fs1, l1) log1) /\
    logSession fs1 None "owm/10.0.0.1" "2014" script2 = Some res /\
    is_Some (fs1 !! path_Join "owm/10.0.0.1" ("2014" +:+ ".owm")) /\
    exists l,
      res = Live (fs1, l)
              ["Unable to open " +:+ ("2014" +:+ ".owm") +:+ ": open " +:+
               path_Join "owm/10.0.0.1" ("2014" +:+ ".owm") +:+
               ": file exists"] /\
      olog l = None.
Proof.
  intros p script1 script2.
  assert (E : exists fs1 l1 log1 res,
             logSession ∅ None "owm/10.0.0.1" "2014" script1 =
               Some (Live (fs1, l1) log1) /\
             logSession fs1 None "owm/10.0.0.1" "2014" script2 = Some res).
  { do 4 eexists. split; reflexivity. }
  destruct E as (fs1 & l1 & log1 & res & E1 & E2).
  exists fs1, l1, log1, res. split; [exact E1|]. split; [exact E2|].
  exact (same_name_is_logged_once ∅ "owm/10.0.0.1" "2014" script1 script2
           fs1 l1 log1 res E1 E2).
Defined.

(** ** Reading the replay file back *)

Lemma until_field sep field rest :
  free_of sep field = true ->
  until sep (field ++ sep :: rest) = Some (field, rest).
Proof.
  induction field as [|b field IH]; cbn [free_of forallb app until].
  - intros _. rewrite (Byte.byte_dec_lb (x:=sep) eq_refl). reflexivity.
  - intros Hf. apply andb_true_iff in Hf. destruct Hf as [Hb Hf].
    apply negb_true_iff in Hb. rewrite Hb.
    unfold free_of in IH. rewrite (IH Hf). reflexivity.
Qed.

Lemma free_of_String sep c s :
  free_of sep (bytes (String c s)) =
  negb (Byte.eqb (byte_of_ascii c) sep) && free_of sep (bytes s).
Proof. reflexivity. Qed.

(** A numeral has digits and at most a sign: no tab and no dot. *)
Lemma uint_bytes_plain sep d :
  sep = x09 \/ sep = x2e ->
  free_of sep (bytes (NilEmpty.string_of_uint d)) = true.
Proof.
  intros Hs. induction d; cbn [NilEmpty.string_of_uint];
    [reflexivity|rewrite free_of_String, IHd;
                 destruct Hs as [-> | ->]; reflexivity..].
Qed.

Lemma fmt_int_plain sep z :
  sep = x09 \/ sep = x2e -> free_of sep (bytes (fmt_int z)) = true.
Proof.
  intros Hs. unfold fmt_int, NilZero.string_of_int.
  assert (Hu : forall d, free_of sep (bytes (NilZero.string_of_uint d)) = true).
  { intros d. unfold NilZero.string_of_uint.
    destruct d; try apply (uint_bytes_plain sep _ Hs);
      destruct Hs as [-> | ->]; reflexivity. }
  destruct (Z.to_int z) as [d|d]; [apply Hu|].
  rewrite free_of_String, Hu. destruct Hs as [-> | ->]; reflexivity.
Qed.

Lemma read_int_fmt_int z : read_int (bytes (fmt_int z)) = Some z.
Proof.
  unfold read_int, bytes. rewrite string_of_list_byte_of_string.
  apply fmt_int_reads_back.
Qed.

Lemma firstn_len_app {A} (l r : list A) :
  firstn (Z.to_nat (len l)) (l ++ r) = l /\
  skipn (Z.to_nat (len l)) (l ++ r) = r.
Proof.
  unfold len. rewrite Nat2Z.id. split.
  - rewrite firstn_app, Nat.sub_diag, firstn_all. cbn. apply app_nil_r.
  - rewrite skipn_app, Nat.sub_diag, skipn_all. reflexivity.
Qed.

(** One record is read back as it was written, whatever follows it. *)
Lemma read_record_encode r rest :
  plain_stamp r -> read_record (encode r ++ rest) = Some (r, rest).
Proof.
  intros Hp. unfold encode, record_bytes.
  repeat rewrite <- List.app_assoc.
  change (bytes NL ++ ?x) with (x0a :: x).
  repeat change (bytes TAB ++ ?x) with (x09 :: x).
  change (bytes "." ++ ?x) with (x2e :: x).
  unfold read_record.
  rewrite (Byte.byte_dec_lb (x:=x0a) eq_refl). cbn [negb].
  rewrite (until_field x09 _ _ Hp).
  rewrite (until_field x2e _ _ (fmt_int_plain x2e _ (or_intror eq_refl))).
  rewrite (until_field x09 _ _ (fmt_int_plain x09 _ (or_introl eq_refl))).
  assert (Hd : until x09 (bytes (if tag (rec_dir r) then "i" else "o") ++
                          x09 :: bytes (fmt_int (len (rec_payload r))) ++
                          x09 :: rec_payload r ++ rest) =
               Some ([if tag (rec_dir r) then x69 else x6f],
                     bytes (fmt_int (len (rec_payload r))) ++
                     x09 :: rec_payload r ++ rest)).
  { destruct (tag (rec_dir r)); reflexivity. }
  rewrite Hd.
  rewrite (until_field x09 _ _ (fmt_int_plain x09 _ (or_introl eq_refl))).
  rewrite !read_int_fmt_int.
  assert (Hr : read_dir (if tag (rec_dir r) then x69 else x6f) =
               Some (rec_dir r)).
  { destruct (rec_dir r); reflexivity. }
  rewrite Hr.
  assert (H0 : (0 <=? len (rec_payload r)) &&
               (len (rec_payload r) <=? len (rec_payload r ++ rest)) = true).
  { apply andb_true_iff. split; [apply Z.leb_le|apply Z.leb_le];
      unfold len; rewrite ?length_app; lia. }
  rewrite H0.
  destruct (firstn_len_app (rec_payload r) rest) as [-> ->].
  unfold bytes. rewrite string_of_list_byte_of_string.
  destruct r as [d [st u ns] pl]. reflexivity.
Qed.

Lemma read_records_encode recs : forall fuel,
  Forall plain_stamp recs -> (length recs <= fuel)%nat ->
  read_records fuel (concat (map encode recs)) = Some recs.
Proof.
  induction recs as [|r recs IH]; intros fuel Hp Hf.
  - destruct fuel; reflexivity.
  - inversion Hp as [|? ? Hr Hrest]; subst.
    cbn [map concat].
    destruct fuel as [|fuel]; [cbn in Hf; lia|].
    destruct (encode r ++ concat (map encode recs)) as [|b bs] eqn:E.
    + apply app_eq_nil in E. destruct E as [E _].
      destruct (encode_nonempty _ E).
    + cbn [read_records]. rewrite <- E.
      rewrite (read_record_encode _ _ Hr).
      rewrite (IH fuel Hrest) by (cbn in Hf; lia). reflexivity.
Qed.

Lemma encode_length r : (1 <= length (encode r))%nat.
Proof. unfold encode, record_bytes. cbn. lia. Qed.

Lemma concat_encode_length recs :
  (length recs <= length (concat (map encode recs)))%nat.
Proof.
  induction recs as [|r recs IH]; cbn [map concat length]; [lia|].
  rewrite length_app. pose proof (encode_length r). lia.
Qed.

Lemma replay_encode recs :
  Forall plain_stamp recs -> replay (concat (map encode recs)) = Some recs.
Proof.
  intros Hp. unfold replay.
  apply read_records_encode; [exact Hp|apply concat_encode_length].
Qed.

(** X19 (replay).  A replay file that holds records, to which logPacket
    appends a packet with both writes succeeding, reads back as those
    records followed by one more: the direction and the time of the packet,
    and the first [length] bytes of its data, whatever bytes these are. *)
Theorem replay_reads_back_what_logPacket_wrote (fs : disk) (f : File)
    (recs : list record) (p : packet) (d : dir) (t : Time) :
  closed f = false ->
  0 <= pkt_length p <= len (pkt_data p) ->
  default [] (fs !! Name f) = concat (map encode recs) ->
  Forall plain_stamp recs ->
  free_of x09 (bytes (StampNano t)) = true ->
  exists fs',
    logPacket fs (Some f) p (tag d) t FullWrite FullWrite =
      Live (fs', Some f) [] /\
    (fs' !! Name f) ≫= replay =
      Some (recs ++
            [{| rec_dir := d; rec_time := t;
                rec_payload :=
                  firstn (Z.to_nat (pkt_length p)) (pkt_data p) |}]).
Proof.
  intros Hc Hn Hfile Hp Ht.
  eexists. split; [apply logPacket_appends; assumption|].
  rewrite lookup_insert_eq. cbn [mbind option_bind].
  set (r := {| rec_dir := d; rec_time := t;
               rec_payload := firstn (Z.to_nat (pkt_length p)) (pkt_data p) |}).
  assert (Hr : record_bytes (tag d) t (pkt_length p)
                 (firstn (Z.to_nat (pkt_length p)) (pkt_data p)) = encode r).
  { unfold encode, r. cbn [rec_dir rec_time rec_payload].
    rewrite len_firstn by exact Hn. reflexivity. }
  rewrite Hfile, Hr.
  assert (Hall : concat (map encode recs) ++ encode r =
                 concat (map encode (recs ++ [r]))).
  { rewrite map_app, concat_app. cbn. rewrite app_nil_r. reflexivity. }
  rewrite Hall. apply replay_encode.
  apply Forall_app. split; [exact Hp|]. constructor; [exact Ht|constructor].
Qed.

(** A file with one outbound record, to which two of the three bytes of an
    inbound buffer are appended. *)
Lemma replay_reads_back_what_logPacket_wrote_witness :
  let f := {| Name := "owm/x.owm"; closed := false |} in
  let r0 := {| rec_dir := Outbound; rec_time := Sample.noon;
               rec_payload := [x09; x0a; x79] |} in
  let fs : disk := {[ "owm/x.owm" := encode r0 ]} in
  let p := {| pkt_data := [x68; x69; x21]; pkt_length := 2 |} in
  closed f = false /\
  0 <= pkt_length p <= len (pkt_data p) /\
  default [] (fs !! Name f) = concat (map encode [r0]) /\
  Forall plain_stamp [r0] /\
  free_of x09 (bytes (StampNano Sample.later)) = true /\
  exists fs',
    logPacket fs (Some f) p (tag Inbound) Sample.later FullWrite FullWrite =
      Live (fs', Some f) [] /\
    (fs' !! Name f) ≫= replay =
      Some ([r0] ++
            [{| rec_dir := Inbound; rec_time := Sample.later;
                rec_payload := [x68; x69] |}]).
Proof.
  intros f r0 fs p.
  assert (H1 : 0 <= pkt_length p <= len (pkt_data p))
    by (vm_compute; split; discriminate).
  assert (H2 : default [] (fs !! Name f) = concat (map encode [r0]))
    by (cbn [map concat]; rewrite app_nil_r; reflexivity).
  assert (H3 : Forall plain_stamp [r0])
    by (constructor; [reflexivity|constructor]).
  split; [reflexivity|]. split; [exact H1|]. split; [exact H2|].
  split; [exact H3|]. split; [reflexivity|].
  exact (replay_reads_back_what_logPacket_wrote fs f [r0] p Inbound
           Sample.later eq_refl H1 H2 H3 eq_refl).
Defined.
